(** * folder2podcast: cover-art resolver and feed/shownotes builder

    A shallow embedding of the TypeScript sources

      - the cover resolver of [utils] ([guessExtFromUrl], [isFresh],
        [cleanupOldVariants], [downloadToFile], [itunesSearchArtwork],
        [resolveCoverForSource]),
      - [utils/feed.ts], in its version with inline attachments
        ([escapeHtml], [formatBytes], [formatDate], [findSidecarAttachments],
        [buildEpisodeShownotes], the per-episode item of [generateFeed],
        [getMediaType]),
      - [utils/env.ts] (the fields of [EnvConfig] that the two read, and
        [getEnvConfig] itself in the module [Env]),

    followed by the properties of the specification that were checked
    against them, and by further properties of the code: of the resolver
    and its parts, of the string helpers, of the attachment locator, of
    the items and the head of the feed, and of the configuration.

    Conventions of the embedding.
      - A JavaScript string is a [string]: a sequence of code units.  The
        model covers code units below 256; file names and texts are
        well-formed (no lone surrogates), so [encodeURIComponent] is total.
      - A finite JavaScript number is the rational it denotes ([Q]); [NaN]
        and the infinities are separate constructors of [number].  The
        arithmetic the sources perform on them (comparison, division by
        1024, [toFixed]) is exact on doubles, so nothing is lost.
      - Asynchronous code is sequential here: every [await] is a step of a
        state-and-exception monad over a [world] (file system and the log
        of the calls made to the collaborators).  What the collaborators
        answer is fixed by an [oracle]. *)

From Stdlib Require Import ZArith QArith Qround Qabs Lqa String Ascii List Lia Bool.
From Stdlib Require Import DecimalString.
From stdpp Require Import gmap strings list fin_maps.

Local Open Scope string_scope.
Local Open Scope list_scope.

(** ** JavaScript strings *)

Module JsString.

(** The double quote, kept out of string literals. *)
Definition dquote : ascii := Eval cbv in ascii_of_nat 34.
Definition dq : string := String dquote EmptyString.

(** [s.startsWith(pat)] *)
Fixpoint startsWith (pat s : string) : bool :=
  match pat, s with
  | EmptyString, _ => true
  | String _ _, EmptyString => false
  | String a pat', String b s' => Ascii.eqb a b && startsWith pat' s'
  end.

(** [s.endsWith(suf)] *)
Definition endsWith (suf s : string) : bool :=
  startsWith (String.rev suf) (String.rev s).

(** [s.slice(n)] and [s.slice(0, n)] for [n >= 0]. *)
Fixpoint drop (n : nat) (s : string) : string :=
  match n, s with
  | O, _ => s
  | S _, EmptyString => EmptyString
  | S k, String _ s' => drop k s'
  end.

Fixpoint take (n : nat) (s : string) : string :=
  match n, s with
  | O, _ => EmptyString
  | S _, EmptyString => EmptyString
  | S k, String c s' => String c (take k s')
  end.

(** [s.replace(/pat/g, rep)] for a literal, non-empty pattern [pat] and a
    replacement without [$]: the matches are found left to right and do
    not overlap.  [skip] counts the code units of the current match that
    are still to be dropped. *)
Fixpoint replaceAll_from (pat rep : string) (skip : nat) (s : string) : string :=
  match s with
  | EmptyString => EmptyString
  | String c s' =>
      match skip with
      | S k => replaceAll_from pat rep k s'
      | O =>
          if startsWith pat s
          then rep +:+ replaceAll_from pat rep (String.length pat - 1) s'
          else String c (replaceAll_from pat rep 0 s')
      end
  end.

Definition replaceAll (pat rep s : string) : string :=
  replaceAll_from pat rep 0 s.

(** [s.replace(pat, rep)] with a string pattern: the first match only. *)
Fixpoint replaceFirst (pat rep : string) (s : string) : string :=
  match s with
  | EmptyString => EmptyString
  | String c s' =>
      if startsWith pat s
      then rep +:+ drop (String.length pat) s
      else String c (replaceFirst pat rep s')
  end.

(** White space of [String.prototype.trim] among the code units below
    256: TAB, LF, VT, FF, CR, SP and NBSP. *)
Definition isWhiteSpace (c : ascii) : bool :=
  let n := nat_of_ascii c in
  ((9 <=? n) && (n <=? 13) || (n =? 32) || (n =? 160))%nat.

Fixpoint trimStart (s : string) : string :=
  match s with
  | EmptyString => EmptyString
  | String c s' => if isWhiteSpace c then trimStart s' else s
  end.

Definition trimEnd (s : string) : string :=
  String.rev (trimStart (String.rev s)).

(** [s.trim()] *)
Definition trim (s : string) : string := trimEnd (trimStart s).

(** [s.toLowerCase()] on code units below 256: A-Z and the Latin-1
    capitals (192-214, 216-222) move up by 32. *)
Definition lowerChar (c : ascii) : ascii :=
  let n := nat_of_ascii c in
  if ((65 <=? n) && (n <=? 90)
      || (192 <=? n) && (n <=? 214)
      || (216 <=? n) && (n <=? 222))%nat
  then ascii_of_nat (n + 32) else c.

Fixpoint toLowerCase (s : string) : string :=
  match s with
  | EmptyString => EmptyString
  | String c s' => String (lowerChar c) (toLowerCase s')
  end.

(** [s.split(sep)[0]] for a one-unit separator: the part before the first
    separator, the whole string when there is none. *)
Fixpoint beforeFirst (sep : ascii) (s : string) : string :=
  match s with
  | EmptyString => EmptyString
  | String c s' => if Ascii.eqb c sep then EmptyString else String c (beforeFirst sep s')
  end.

(** [parts.join(sep)] *)
Fixpoint join (sep : string) (parts : list string) : string :=
  match parts with
  | [] => EmptyString
  | [p] => p
  | p :: rest => p +:+ sep +:+ join sep rest
  end.

(** Truthiness of a string: [''] is the only falsy one. *)
Definition truthy (s : string) : bool :=
  match s with EmptyString => false | String _ _ => true end.

(** [a || b] on strings. *)
Definition or_else (a b : string) : string := if truthy a then a else b.

(** [a || b] where [a] may be [undefined]. *)
Definition opt_or_else (a : option string) (b : string) : string :=
  match a with Some s => or_else s b | None => b end.

End JsString.

Import JsString.

(** ** [escapeHtml] (feed.ts) *)

Definition escapeHtml (input : string) : string :=
  replaceAll "'" "&#39;"
    (replaceAll dq "&quot;"
      (replaceAll ">" "&gt;"
        (replaceAll "<" "&lt;"
          (replaceAll "&" "&amp;" input)))).

(** The inverse the specification describes: the entities [&lt;], [&gt;],
    [&quot;], [&#39;] are replaced back, and [&amp;] last. *)
Definition unescapeHtml (s : string) : string :=
  replaceAll "&amp;" "&"
    (replaceAll "&#39;" "'"
      (replaceAll "&quot;" dq
        (replaceAll "&gt;" ">"
          (replaceAll "&lt;" "<" s)))).

(** ** JavaScript numbers and the platform *)

Inductive number : Type :=
| NaN
| PosInf
| NegInf
| Fin (q : Q).

(** [Number.isFinite(x)] *)
Definition isFinite (x : number) : bool :=
  match x with Fin _ => true | _ => false end.

(** [x <= 0]: false on [NaN]. *)
Definition nonPositive (x : number) : bool :=
  match x with
  | Fin q => Qle_bool q 0
  | NegInf => true
  | NaN | PosInf => false
  end.

(** What the sources take from Node and the JavaScript built-ins without
    computing it themselves.  [Date] is the type of [Date] objects. *)
Class Runtime : Type := {
  (** [encodeURIComponent], on well-formed strings *)
  encodeURIComponent : string -> string;
  (** [path.join(a, b)] *)
  path_join : string -> string -> string;
  (** [path.dirname(p)] and [path.extname(p)] *)
  path_dirname : string -> string;
  path_extname : string -> string;
  (** [process.cwd()] *)
  cwd : string;
  (** [new URLSearchParams(pairs).toString()] *)
  urlSearchParams : list (string * string) -> string;
  (** [buf.toString('utf8')] *)
  decodeUtf8 : string -> string;
  (** [Number.prototype.toString] of a finite number of magnitude at least
      10^21 (exponent notation), which [toFixed] falls back to *)
  numberToString : Q -> string;
  Date : Type;
  (** [date.toISOString()]; [None] when it throws (invalid date) *)
  toISOString : Date -> option string;
  (** [String(date)] *)
  dateToString : Date -> string
}.

(** [x < y] on rationals, as a boolean. *)
Definition Qlt_bool (x y : Q) : bool := negb (Qle_bool y x).

(** [x * c] for a positive constant [c], and [a < y] for a finite [a]. *)
Definition mulConst (x : number) (c : Q) : number :=
  match x with Fin q => Fin (q * c) | other => other end.

Definition ltNumber (a : Q) (y : number) : bool :=
  match y with
  | Fin q => Qlt_bool a q
  | PosInf => true
  | NaN | NegInf => false
  end.

(** Parsed JSON, the [any] that [res.json()] yields. *)
#[local] Unset Elimination Schemes.
Inductive json : Type :=
| JNull
| JBool (b : bool)
| JNum (q : Q)
| JStr (s : string)
| JArr (items : list json)
| JObj (fields : list (string * json)).
#[local] Set Elimination Schemes.

(** Truthiness of a value. *)
Definition jsTruthy (v : json) : bool :=
  match v with
  | JNull => false
  | JBool b => b
  | JNum q => negb (Qeq_bool q 0)
  | JStr s => truthy s
  | JArr _ | JObj _ => true
  end.

(** [a || b] *)
Definition jsOr (a b : json) : json := if jsTruthy a then a else b.

(** [v.key] and [v?.key] for a key that no primitive, array or prototype
    defines: the field of an object, [undefined] otherwise.  [undefined]
    and [null] are not told apart ([JNull]): the sources only test them for
    truthiness. *)
Fixpoint lookupField (key : string) (fields : list (string * json)) : json :=
  match fields with
  | [] => JNull
  | (k, v) :: rest => if String.eqb k key then v else lookupField key rest
  end.

Definition getProp (v : json) (key : string) : json :=
  match v with
  | JObj fields => lookupField key fields
  | _ => JNull
  end.

(** ** The world: file system, collaborators and the log of calls *)

Record file : Type := {
  mtimeMs : Q;
  isFile : bool;
  content : string
}.

(** [stats.size] *)
Definition size (f : file) : nat := String.length (content f).

(** An HTTP response as the sources look at it: [res.ok], the bytes of
    [res.arrayBuffer()] and the value of [res.json()], each [None] when the
    call rejects (broken body, malformed JSON). *)
Record response : Type := {
  ok : bool;
  arrayBuffer : option string;
  jsonBody : option json
}.

Inductive event : Type :=
| EvPathExists (p : string)
| EvStat (p : string)
| EvFetch (url : string) (accept : option string)
| EvEnsureDir (p : string)
| EvWriteFile (p : string)
| EvRemove (p : string)
| EvOpen (p : string)
| EvRead (p : string) (len : nat)
| EvClose (p : string).

(** What the collaborators answer during one run.  A fetch that is aborted
    by the timeout, refused or otherwise fails is [None].  [now] is what
    [Date.now()] reads; [written_mtime] is the modification time the file
    system gives to what is written during the run, which need not be the
    reading of the clock.  A call that fails may have done part of its
    work: [ensureDir_made p d] tells whether the directory [d] had been
    made when [ensureDir p] failed; [writeFile_written p] is [None] when
    the file could not be opened, and the number of bytes that were
    written after the file was truncated otherwise; [remove_done p q]
    tells whether the entry [q] below [p] had been deleted when
    [remove p] failed. *)
Record oracle : Type := {
  now : Q;
  written_mtime : Q;
  stat_fails : string -> bool;
  fetch_result : string -> option string -> option response;
  ensureDir_fails : string -> bool;
  ensureDir_made : string -> string -> bool;
  writeFile_fails : string -> bool;
  writeFile_written : string -> option nat;
  remove_fails : string -> bool;
  remove_done : string -> string -> bool;
  open_fails : string -> bool;
  read_result : string -> nat -> option nat;
  close_fails : string -> bool
}.

(** The file system maps a path to its entry: a regular file or, with
    [isFile] false, a directory. *)
Record world : Type := {
  fs : gmap string file;
  log : list event
}.

(** Paths are POSIX: what lies below the directory [p] starts with [p]
    and a slash. *)
Definition below (p q : string) : bool := startsWith (p +:+ "/") q.

(** The entries that are left when those that [gone] names are deleted. *)
Definition prune (gone : string -> bool) (files : gmap string file) : gmap string file :=
  map_imap (fun q f => if gone q then None else Some f) files.

(** ** The monad of asynchronous code: state and exceptions *)

Inductive outcome (A : Type) : Type :=
| Ok (a : A)
| Throw.
Arguments Ok {A} a.
Arguments Throw {A}.

Definition M (A : Type) : Type := world -> outcome A * world.

Definition ret {A} (a : A) : M A := fun w => (Ok a, w).

Definition bind {A B} (m : M A) (k : A -> M B) : M B :=
  fun w => match m w with
           | (Ok a, w') => k a w'
           | (Throw, w') => (Throw, w')
           end.

Definition throw {A} : M A := fun w => (Throw, w).

(** [try { m } catch { h }] *)
Definition try_catch {A} (m h : M A) : M A :=
  fun w => match m w with
           | (Ok a, w') => (Ok a, w')
           | (Throw, w') => h w'
           end.

(** [try { m } finally { f }]: [f] runs in both cases, and what it throws
    wins. *)
Definition try_finally {A} (m : M A) (f : M unit) : M A :=
  fun w => match m w with
           | (r, w') =>
               match f w' with
               | (Ok _, w'') => (r, w'')
               | (Throw, w'') => (Throw, w'')
               end
           end.

Notation "x <- c1 ;; c2" := (bind c1 (fun x => c2))
  (at level 100, c1 at next level, right associativity).
Notation "c1 ;;; c2" := (bind c1 (fun _ => c2))
  (at level 100, right associativity).

Definition emit (e : event) : M unit :=
  fun w => (Ok tt, {| fs := fs w; log := log w ++ [e] |}).

Section Collaborators.
Context {rt : Runtime} (O : oracle).

(** [fs.pathExists(p)] of fs-extra: never rejects; true for a directory
    as for a file. *)
Definition pathExists (p : string) : M bool :=
  emit (EvPathExists p) ;;;
  fun w => (Ok (match fs w !! p with Some _ => true | None => false end), w).

(** [fs.stat(p)] *)
Definition stat (p : string) : M file :=
  emit (EvStat p) ;;;
  fun w => if stat_fails O p then (Throw, w)
           else match fs w !! p with
                | Some f => (Ok f, w)
                | None => (Throw, w)
                end.

(** [fetch(url, { signal, headers })]; [accept] is the Accept header. *)
Definition fetch (url : string) (accept : option string) : M response :=
  emit (EvFetch url accept) ;;;
  match fetch_result O url accept with
  | Some res => ret res
  | None => throw
  end.

(** A directory made during the run. *)
Definition directory : file :=
  {| mtimeMs := written_mtime O; isFile := false; content := EmptyString |}.

(** [p], its parent, the parent of that, up to the root (where
    [path.dirname] returns its argument); the fuel bounds the walk. *)
Fixpoint ancestors (fuel : nat) (p : string) : list string :=
  match fuel with
  | S k => p :: (if String.eqb (path_dirname p) p then [] else ancestors k (path_dirname p))
  | _ => []
  end.

(** [mkdir d]: what is there stays as it is. *)
Definition mkdir (d : string) (files : gmap string file) : gmap string file :=
  match files !! d with
  | Some _ => files
  | None => <[ d := directory ]> files
  end.

Definition mkdirs (dirs : list string) (files : gmap string file) : gmap string file :=
  fold_right mkdir files dirs.

(** [fs.ensureDir(p)] of fs-extra, a recursive [mkdir]: it makes [p] and
    the ancestors of [p] that are missing.  When it fails it may have made
    some of them. *)
Definition ensureDir (p : string) : M unit :=
  emit (EvEnsureDir p) ;;;
  fun w =>
    let dirs := ancestors (S (String.length p)) p in
    if ensureDir_fails O p
    then (Throw, {| fs := mkdirs (List.filter (ensureDir_made O p) dirs) (fs w);
                    log := log w |})
    else (Ok tt, {| fs := mkdirs dirs (fs w); log := log w |}).

(** [fs.writeFile(p, buf)]: the file is opened for writing, which
    truncates it, and the bytes are written.  A write that fails before
    the file is open leaves [fs] as it was; one that fails later leaves the
    bytes written so far. *)
Definition writeFile (p : string) (buf : string) : M unit :=
  emit (EvWriteFile p) ;;;
  fun w =>
    if writeFile_fails O p
    then (Throw,
          {| fs := match writeFile_written O p with
                   | Some n => <[ p := {| mtimeMs := written_mtime O; isFile := true;
                                          content := take n buf |} ]> (fs w)
                   | None => fs w
                   end;
             log := log w |})
    else (Ok tt,
          {| fs := <[ p := {| mtimeMs := written_mtime O; isFile := true; content := buf |} ]>
                     (fs w);
             log := log w |}).

(** [fs.remove(p)] of fs-extra, a recursive removal: [p] goes, and when it
    is a directory all that lies below it.  When it fails [p] is still
    there, but some of what lies below it may be gone. *)
Definition remove (p : string) : M unit :=
  emit (EvRemove p) ;;;
  fun w =>
    if remove_fails O p
    then (Throw, {| fs := prune (fun q => below p q && remove_done O p q) (fs w);
                    log := log w |})
    else (Ok tt, {| fs := prune (fun q => String.eqb q p || below p q) (fs w);
                    log := log w |}).

End Collaborators.

(** ** Configuration and data model *)

Inductive coverProvider : Type := ProviderNone | ProviderItunes.
Inductive shownotesMode : Type := ModeTitle | ModeFull.
Inductive inlineMode : Type := InlineNone | InlineImages | InlineAll.

(** [EnvConfig] (env.ts), the fields the two modules read.  The numeric
    ones come from [parseInt] and may be [NaN]. *)
Record EnvConfig : Type := {
  EPISODE_SHOWNOTES : shownotesMode;
  EPISODE_INLINE_ATTACHMENTS : inlineMode;
  EPISODE_INLINE_TEXT_MAX_CHARS : number;
  REMOTE_COVER_ENABLED : bool;
  REMOTE_COVER_PROVIDER : coverProvider;
  REMOTE_COVER_COUNTRY : string;
  REMOTE_COVER_TTL_DAYS : number;
  REMOTE_COVER_TIMEOUT_MS : number
}.

(** Modelled from the spec: the declarations of [../types]
    ([PodcastConfig], [Episode], [PodcastSource], [ProcessOptions]) are not
    among the sources; the fields are those of the data model of the
    specification, with the names the sources use. *)
Record PodcastConfig : Type := {
  title : string;
  description : string;
  author : string;
  email : string;
  language : string;
  category : string;
  explicit : bool;
  websiteUrl : option string;
  coverImageUrl : option string;
  coverSearchTerm : option string
}.

Record Episode {rt : Runtime} : Type := {
  ep_title : string;
  ep_fileName : string;
  ep_filePath : string;
  ep_pubDate : Date
}.

Record PodcastSource {rt : Runtime} : Type := {
  dirName : string;
  dirPath : string;
  config : PodcastConfig;
  episodes : list Episode;
  coverPath : option string;
  coverUrl : option string
}.

Record ProcessOptions : Type := {
  baseUrl : string;
  defaultCover : string
}.

(** ** The cover resolver *)

(** The result object [{ coverUrl?, coverCachePath? }]. *)
Record coverResult : Type := {
  res_coverUrl : option string;
  res_coverCachePath : option string
}.

Definition emptyResult : coverResult :=
  {| res_coverUrl := None; res_coverCachePath := None |}.

Definition coverExts : list string := [".jpg"; ".png"; ".webp"].

Definition guessExtFromUrl (url : string) : string :=
  let lower := beforeFirst "?" (toLowerCase url) in
  if endsWith ".png" lower then ".png"
  else if endsWith ".webp" lower then ".webp"
  else if endsWith ".jpeg" lower then ".jpg"
  else if endsWith ".jpg" lower then ".jpg"
  else ".jpg".

(** [ageMs >= 0 && ageMs < ttlDays * 24 * 60 * 60 * 1000] *)
Definition freshAge (ttlDays : number) (ageMs : Q) : bool :=
  Qle_bool 0 ageMs
  && ltNumber ageMs (mulConst (mulConst (mulConst (mulConst ttlDays 24) 60) 60) 1000).

Section CoverResolver.
Context {rt : Runtime} (O : oracle) (env : EnvConfig).

Definition coversDir : string := path_join cwd ".covers".

Definition isFresh (filePath : string) (ttlDays : number) : M bool :=
  try_catch
    (st <- stat O filePath ;;
     let ageMs := (now O - mtimeMs st)%Q in
     ret (freshAge ttlDays ageMs))
    (ret false).

(** The loop of [cleanupOldVariants], over the extensions still to do. *)
Fixpoint cleanupVariants (basePathNoExt keepExt : string) (exts : list string) : M unit :=
  match exts with
  | [] => ret tt
  | ext :: rest =>
      if String.eqb ext keepExt then cleanupVariants basePathNoExt keepExt rest
      else
        let p := basePathNoExt +:+ ext in
        present <- pathExists p ;;
        (if present then remove O p else ret tt) ;;;
        cleanupVariants basePathNoExt keepExt rest
  end.

Definition cleanupOldVariants (basePathNoExt keepExt : string) : M unit :=
  cleanupVariants basePathNoExt keepExt coverExts.

(** The timer and its [AbortController] are in the oracle: an aborted
    fetch rejects. *)
Definition downloadToFile (url filePath : string) (timeoutMs : number) : M unit :=
  res <- fetch O url None ;;
  if negb (ok res) then throw
  else
    match arrayBuffer res with
    | None => throw
    | Some buf =>
        ensureDir O (path_dirname filePath) ;;;
        writeFile O filePath buf
    end.

(** Returns [any]: what the first result carries in its artwork fields,
    [null] ([JNull]) when there is nothing. *)
Definition itunesSearchArtwork (term country : string) (timeoutMs : number) : M json :=
  let q := urlSearchParams
             [("term", term); ("entity", "podcast"); ("limit", "3"); ("country", country)] in
  let url := "https://itunes.apple.com/search?" +:+ q in
  try_catch
    (res <- fetch O url (Some "application/json") ;;
     if negb (ok res) then ret JNull
     else
       match jsonBody res with
       | None => throw
       | Some j =>
           let r := match getProp j "results" with JArr items => items | _ => [] end in
           match r with
           | [] => ret JNull
           | r0 :: _ =>
               let first := jsOr r0 (JObj []) in
               ret (jsOr (getProp first "artworkUrl600")
                      (jsOr (getProp first "artworkUrl512")
                         (jsOr (getProp first "artworkUrl100") JNull)))
           end
       end)
    (ret JNull).

Definition toCoverRoute (fileName : string) : string :=
  "/covers/" +:+ encodeURIComponent fileName.

(** The cache probe: the [for] loop with its early [return]; [None] when
    the loop runs to its end. *)
Fixpoint probeCache (baseNoExt baseName : string) (exts : list string) : M (option coverResult) :=
  match exts with
  | [] => ret None
  | ext :: rest =>
      let p := baseNoExt +:+ ext in
      present <- pathExists p ;;
      fresh <- (if present then isFresh p (REMOTE_COVER_TTL_DAYS env) else ret false) ;;
      if fresh
      then ret (Some {| res_coverUrl := Some (toCoverRoute (baseName +:+ ext));
                        res_coverCachePath := Some p |})
      else probeCache baseNoExt baseName rest
  end.

(** [(source.config.coverImageUrl || '').trim()] *)
Definition directUrlOf (source : PodcastSource) : string :=
  trim (opt_or_else (coverImageUrl (config source)) EmptyString).

(** [(coverSearchTerm || title || dirName).trim()] *)
Definition searchTermOf (source : PodcastSource) : string :=
  trim (opt_or_else (coverSearchTerm (config source))
          (or_else (title (config source)) (dirName source))).

(** The artwork URL, [null] ([JNull]) when there is none. *)
Definition findArtworkUrl (source : PodcastSource) : M json :=
  let directUrl := directUrlOf source in
  if truthy directUrl then ret (JStr directUrl)
  else
    let term := searchTermOf source in
    if truthy term
    then itunesSearchArtwork term (REMOTE_COVER_COUNTRY env) (REMOTE_COVER_TIMEOUT_MS env)
    else ret JNull.

(** [guessExtFromUrl(artworkUrl)] on the value at hand: a value that is
    not a string has no [toLowerCase], and the call throws a TypeError. *)
Definition guessExtOf (artworkUrl : json) : M string :=
  match artworkUrl with
  | JStr url => ret (guessExtFromUrl url)
  | _ => throw
  end.

(** The value as the [url] argument of [fetch], which takes its string
    form; only strings get that far. *)
Definition urlOf (artworkUrl : json) : string :=
  match artworkUrl with JStr url => url | _ => EmptyString end.

Definition resolveCoverForSource (source : PodcastSource) : M coverResult :=
  if negb (REMOTE_COVER_ENABLED env)
     || match REMOTE_COVER_PROVIDER env with ProviderNone => true | ProviderItunes => false end
  then ret emptyResult
  else
    let baseName := dirName source in
    let baseNoExt := path_join coversDir baseName in
    hit <- probeCache baseNoExt baseName coverExts ;;
    match hit with
    | Some r => ret r
    | None =>
        artworkUrl <- findArtworkUrl source ;;
        if negb (jsTruthy artworkUrl) then ret emptyResult
        else
          ext <- guessExtOf artworkUrl ;;
          let cachePath := baseNoExt +:+ ext in
          try_catch
            (downloadToFile (urlOf artworkUrl) cachePath (REMOTE_COVER_TIMEOUT_MS env) ;;;
             cleanupOldVariants baseNoExt ext ;;;
             ret {| res_coverUrl := Some (toCoverRoute (baseName +:+ ext));
                    res_coverCachePath := Some cachePath |})
            (ret emptyResult)
    end.

(** The search term as the specification words it: of the configured
    search term, the podcast title and the folder name, "whichever is
    first non-empty after trimming". *)
Definition searchTerm_as_worded (source : PodcastSource) : string :=
  or_else (trim (opt_or_else (coverSearchTerm (config source)) EmptyString))
    (or_else (trim (title (config source))) (trim (dirName source))).

End CoverResolver.

(** ** [formatBytes] (feed.ts) *)

Section FormatBytes.
Context {rt : Runtime}.

Definition units : list string := ["B"; "KB"; "MB"; "GB"; "TB"].

(** Decimal digits of a natural number, ["0"] for zero. *)
Definition digitsOf (n : Z) : string :=
  NilZero.string_of_uint (N.to_uint (Z.to_N n)).

Fixpoint zeros (k : nat) : string :=
  match k with O => EmptyString | S k' => String "0" (zeros k') end.

(** [x.toFixed(f)] (ECMA-262, Number.prototype.toFixed): below 10^21 the
    integer [n] closest to [x * 10^f], the larger one on a tie, written
    with [f] digits after the point. *)
Definition toFixed (x : Q) (f : nat) : string :=
  let ax := Qabs x in
  if Qle_bool (inject_Z (10 ^ 21)) ax then numberToString x
  else
    let sign := if Qle_bool 0 x then EmptyString else "-" in
    let n := Qfloor (ax * inject_Z (10 ^ Z.of_nat f) + (1 # 2)) in
    let m := digitsOf n in
    match f with
    | O => sign +:+ m
    | S _ =>
        let m' := zeros (f + 1 - String.length m) +:+ m in
        let k := String.length m' in
        sign +:+ take (k - f) m' +:+ "." +:+ drop (k - f) m'
    end.

(** [while (n >= 1024 && i < units.length - 1) { n /= 1024; i += 1; }] *)
Fixpoint scale (fuel : nat) (n : Q) (i : nat) : Q * nat :=
  match fuel with
  | O => (n, i)
  | S fuel' =>
      if Qle_bool 1024 n && (i <? length units - 1)%nat
      then scale fuel' (n / 1024) (S i)
      else (n, i)
  end.

(** [i === 0 ? 0 : n >= 10 ? 1 : 2] *)
Definition fixedDigits (n : Q) (i : nat) : nat :=
  if (i =? 0)%nat then 0%nat else if Qle_bool 10 n then 1%nat else 2%nat.

Definition unitAt (i : nat) : string := nth i units EmptyString.

Definition formatBytes (bytes : number) : string :=
  if negb (isFinite bytes) || nonPositive bytes then "0 B"
  else
    match bytes with
    | Fin q =>
        let '(n, i) := scale (length units) q 0 in
        toFixed n (fixedDigits n i) +:+ " " +:+ unitAt i
    | _ => "0 B"
    end.

(** The digit rule as the specification words it: "0 decimal places at
    the B scale, 1 decimal place below 10 of a unit, else 2 decimal
    places". *)
Definition fixedDigits_as_worded (n : Q) (i : nat) : nat :=
  if (i =? 0)%nat then 0%nat else if Qle_bool 10 n then 2%nat else 1%nat.

Definition formatBytes_as_worded (bytes : number) : string :=
  if negb (isFinite bytes) || nonPositive bytes then "0 B"
  else
    match bytes with
    | Fin q =>
        let '(n, i) := scale (length units) q 0 in
        toFixed n (fixedDigits_as_worded n i) +:+ " " +:+ unitAt i
    | _ => "0 B"
    end.

End FormatBytes.

(** ** Sidecar attachments and shownotes (feed.ts) *)

Inductive attachmentKind : Type := KImage | KText | KPdf | KDoc | KOther.

Record attachment : Type := {
  att_fileName : string;
  att_url : string;
  att_kind : attachmentKind;
  att_inlineText : option string
}.

Definition isImage (a : attachment) : bool :=
  match att_kind a with KImage => true | _ => false end.
Definition isText (a : attachment) : bool :=
  match att_kind a with KText => true | _ => false end.

(** [arr.includes(x)] *)
Definition includes (arr : list string) (x : string) : bool :=
  existsb (String.eqb x) arr.

Definition sidecarExts : list string :=
  ["pdf"; "doc"; "docx"; "epub"; "mobi"; "azw3"; "txt"; "md"; "jpg"; "jpeg"; "png"; "webp"].

Definition kindOfExt (ext : string) : attachmentKind :=
  if includes ["jpg"; "jpeg"; "png"; "webp"] ext then KImage
  else if includes ["md"; "txt"] ext then KText
  else if String.eqb ext "pdf" then KPdf
  else if includes ["doc"; "docx"] ext then KDoc
  else KOther.

(** The longest prefix without ['.'] and ['/'], and what follows it. *)
Fixpoint spanExt (s : string) : string * string :=
  match s with
  | EmptyString => (EmptyString, EmptyString)
  | String c s' =>
      if Ascii.eqb c "." || Ascii.eqb c "/" then (EmptyString, s)
      else let '(a, b) := spanExt s' in (String c a, b)
  end.

(** [audioFileName.replace(/\.[^/.]+$/, '')]: the last dot and what
    follows it go, when at least one code unit follows and none of them is
    a slash.  Computed on the reversed name. *)
Definition stemOf (audioFileName : string) : string :=
  match spanExt (String.rev audioFileName) with
  | (String _ _, String c rest) =>
      if Ascii.eqb c "." then String.rev rest else audioFileName
  | _ => audioFileName
  end.

Section Feed.
Context {rt : Runtime} (O : oracle).

Definition formatDate (date : Date) : string :=
  match toISOString date with
  | Some iso => replaceFirst "Z" " UTC" (replaceFirst "T" " " iso)
  | None => dateToString date
  end.

(** [fs.open], [fs.read] and [fs.close] on the file at [p]. *)
Definition openFile (p : string) : M file :=
  emit (EvOpen p) ;;;
  fun w => if open_fails O p then (Throw, w)
           else match fs w !! p with
                | Some f => (Ok f, w)
                | None => (Throw, w)
                end.

Definition readFile (p : string) (f : file) (len : nat) : M string :=
  emit (EvRead p len) ;;;
  match read_result O p len with
  | Some bytesRead => ret (take (Nat.min bytesRead len) (content f))
  | None => throw
  end.

Definition closeFile (p : string) : M unit :=
  emit (EvClose p) ;;;
  if close_fails O p then throw else ret tt.

Definition readTextTruncated (fullPath : string) (maxChars : nat) : M string :=
  try_catch
    (st <- stat O fullPath ;;
     if negb (isFile st) then ret EmptyString
     else
       let maxBytes := Nat.max 1024 (maxChars * 4) in
       fd <- openFile fullPath ;;
       try_finally
         (bytes <- readFile fullPath fd (Nat.min maxBytes (size st)) ;;
          let s := decodeUtf8 bytes in
          ret (if (maxChars <? String.length s)%nat then take maxChars s else s))
         (closeFile fullPath))
    (ret EmptyString).

(** The loop of [findSidecarAttachments]; [results] is the array the
    items are pushed to. *)
Fixpoint sidecarLoop (dirPath' baseUrl' dirName' stem : string) (maxTextChars : nat)
    (exts : list string) (results : list attachment) : M (list attachment) :=
  match exts with
  | [] => ret results
  | ext :: rest =>
      let candidate := stem +:+ "." +:+ ext in
      let fullPath := path_join dirPath' candidate in
      present <- pathExists fullPath ;;
      if present then
        let url := baseUrl' +:+ "/audio/" +:+ encodeURIComponent dirName'
                     +:+ "/" +:+ encodeURIComponent candidate in
        let kind := kindOfExt ext in
        inline <- match kind with
                  | KText => t <- readTextTruncated fullPath maxTextChars ;; ret (Some t)
                  | _ => ret None
                  end ;;
        sidecarLoop dirPath' baseUrl' dirName' stem maxTextChars rest
          (results ++ [{| att_fileName := candidate; att_url := url;
                          att_kind := kind; att_inlineText := inline |}])
      else sidecarLoop dirPath' baseUrl' dirName' stem maxTextChars rest results
  end.

Definition findSidecarAttachments (dirPath' audioFileName baseUrl' dirName' : string)
    (maxTextChars : nat) : M (list attachment) :=
  sidecarLoop dirPath' baseUrl' dirName' (stemOf audioFileName) maxTextChars sidecarExts [].

Definition getFileSize (filePath : string) : M number :=
  try_catch
    (stats <- stat O filePath ;; ret (Fin (inject_Z (Z.of_nat (size stats)))))
    (ret (Fin 0)).

(** [arr.push(x)] *)
Definition push (arr : list string) (x : string) : list string := arr ++ [x].

Definition attachmentItem (a : attachment) : string :=
  "<li><a href=" +:+ dq +:+ escapeHtml (att_url a) +:+ dq +:+ ">"
    +:+ escapeHtml (att_fileName a) +:+ "</a></li>".

Definition imageBlock (img : attachment) : string :=
  "<p><a href=" +:+ dq +:+ escapeHtml (att_url img) +:+ dq +:+ "><img src=" +:+ dq
    +:+ escapeHtml (att_url img) +:+ dq +:+ " alt=" +:+ dq +:+ escapeHtml (att_fileName img)
    +:+ dq +:+ " style=" +:+ dq +:+ "max-width:100%;height:auto;" +:+ dq +:+ "/></a></p>".

Definition noteLink (t : attachment) : string :=
  "<p><a href=" +:+ dq +:+ escapeHtml (att_url t) +:+ dq +:+ ">"
    +:+ escapeHtml (att_fileName t) +:+ "</a></p>".

Definition imagesHeading : string := "<hr/><p><strong>Images</strong></p>".
Definition notesHeading : string := "<hr/><p><strong>Notes</strong></p>".

(** The body of [for (const t of texts)]. *)
Definition pushNote (htmlParts : list string) (t : attachment) : list string :=
  let body := trim (opt_or_else (att_inlineText t) EmptyString) in
  if negb (truthy body) then push htmlParts (noteLink t)
  else push (push htmlParts (noteLink t)) ("<pre>" +:+ escapeHtml body +:+ "</pre>").

(** The inline block of the full mode, from [htmlParts] as it stands
    after the base list. *)
Definition inlineSections (inlineAttachments : inlineMode) (attachments : list attachment)
    (htmlParts : list string) : list string :=
  if negb (Nat.eqb (length attachments) 0)
     && match inlineAttachments with InlineNone => false | _ => true end
  then
    let images := List.filter isImage attachments in
    let texts := List.filter isText attachments in
    let htmlParts1 :=
      if negb (Nat.eqb (length images) 0)
         && match inlineAttachments with InlineImages | InlineAll => true | InlineNone => false end
      then fold_left (fun parts img => push parts (imageBlock img)) images
             (push htmlParts imagesHeading)
      else htmlParts in
    if negb (Nat.eqb (length texts) 0)
       && match inlineAttachments with InlineAll => true | _ => false end
    then fold_left pushNote texts (push htmlParts1 notesHeading)
    else htmlParts1
  else htmlParts.

Record shownotes : Type := { plain : string; html : string }.

(** The parts of the full mode, before [join('')]. *)
Definition fullHtmlParts (source : PodcastSource) (episode : Episode) (episodeUrl : string)
    (fileSizeBytes : number) (inlineAttachments : inlineMode)
    (attachments : list attachment) : list string :=
  let htmlParts := [] in
  let htmlParts := push htmlParts ("<p><strong>" +:+ escapeHtml (ep_title episode) +:+ "</strong></p>") in
  let htmlParts := push htmlParts "<ul>" in
  let htmlParts := push htmlParts ("<li><strong>Podcast</strong>: " +:+ escapeHtml (title (config source)) +:+ "</li>") in
  let htmlParts := push htmlParts ("<li><strong>Published</strong>: " +:+ escapeHtml (formatDate (ep_pubDate episode)) +:+ "</li>") in
  let htmlParts := push htmlParts ("<li><strong>File</strong>: " +:+ escapeHtml (ep_fileName episode) +:+ "</li>") in
  let htmlParts := push htmlParts ("<li><strong>Size</strong>: " +:+ escapeHtml (formatBytes fileSizeBytes) +:+ "</li>") in
  let htmlParts := push htmlParts ("<li><strong>Audio</strong>: <a href=" +:+ dq +:+ escapeHtml episodeUrl +:+ dq +:+ ">"
                                     +:+ escapeHtml episodeUrl +:+ "</a></li>") in
  let htmlParts :=
    if negb (Nat.eqb (length attachments) 0)
    then push (fold_left (fun parts a => push parts (attachmentItem a)) attachments
                 (push htmlParts "<li><strong>Attachments</strong>:<ul>"))
           "</ul></li>"
    else htmlParts in
  let htmlParts := push htmlParts "</ul>" in
  inlineSections inlineAttachments attachments htmlParts.

Definition fullLines (source : PodcastSource) (episode : Episode) (episodeUrl : string)
    (fileSizeBytes : number) (attachments : list attachment) : list string :=
  let lines := [] in
  let lines := push lines (ep_title episode) in
  let lines := push lines ("Podcast: " +:+ title (config source)) in
  let lines := push lines ("Published: " +:+ formatDate (ep_pubDate episode)) in
  let lines := push lines ("File: " +:+ ep_fileName episode) in
  let lines := push lines ("Size: " +:+ formatBytes fileSizeBytes) in
  let lines := push lines ("Audio: " +:+ episodeUrl) in
  if negb (Nat.eqb (length attachments) 0)
  then push lines ("Attachments: " +:+ join ", " (map att_fileName attachments))
  else lines.

Definition buildEpisodeShownotes (source : PodcastSource) (episode : Episode)
    (episodeUrl : string) (fileSizeBytes : number) (baseUrl' : string)
    (defaultMode : shownotesMode) (inlineAttachments : inlineMode)
    (inlineTextMaxChars : nat) : M shownotes :=
  match defaultMode with
  | ModeTitle =>
      ret {| plain := ep_title episode;
             html := "<p>" +:+ escapeHtml (ep_title episode) +:+ "</p>" |}
  | ModeFull =>
      attachments <- findSidecarAttachments (dirPath source) (ep_fileName episode)
                       baseUrl' (dirName source) inlineTextMaxChars ;;
      ret {| plain := join (String (ascii_of_nat 10) EmptyString)
                        (fullLines source episode episodeUrl fileSizeBytes attachments);
             html := join EmptyString
                       (fullHtmlParts source episode episodeUrl fileSizeBytes
                          inlineAttachments attachments) |}
  end.

Definition getMediaType (fileName : string) : string :=
  let ext := toLowerCase (path_extname fileName) in
  if String.eqb ext ".mp3" then "audio/mpeg"
  else if String.eqb ext ".m4a" then "audio/x-m4a"
  else if String.eqb ext ".wav" then "audio/wav"
  else "audio/mpeg".

(** The item [generateFeed] hands to [feed.addItem] for one episode; the
    XML itself is written by the [feed] package. *)
Record feedItem : Type := {
  item_title : string;
  item_id : string;
  item_link : string;
  item_description : string;
  item_content : string;
  item_date : Date;
  enclosure_url : string;
  enclosure_type : string;
  enclosure_length : number;
  itunes_summary : string
}.

(** [Number.isFinite(x) && x > 0 ? x : 8000], as a count of code units. *)
Definition inlineTextMaxCharsOf (env : EnvConfig) : nat :=
  match EPISODE_INLINE_TEXT_MAX_CHARS env with
  | Fin q => if Qlt_bool 0 q then Z.to_nat (Qfloor q) else Z.to_nat 8000
  | _ => Z.to_nat 8000
  end.

(** The body of [for (const episode of episodes)]. *)
Definition episodeItem (env : EnvConfig) (source : PodcastSource) (options : ProcessOptions)
    (episode : Episode) : M feedItem :=
  let shownotesMode := EPISODE_SHOWNOTES env in
  let inlineAttachments := EPISODE_INLINE_ATTACHMENTS env in
  let inlineTextMaxChars := inlineTextMaxCharsOf env in
  let episodeUrl := baseUrl options +:+ "/audio/" +:+ encodeURIComponent (dirName source)
                      +:+ "/" +:+ encodeURIComponent (ep_fileName episode) in
  fileSize <- getFileSize (ep_filePath episode) ;;
  notes <- buildEpisodeShownotes source episode episodeUrl fileSize (baseUrl options)
             shownotesMode inlineAttachments inlineTextMaxChars ;;
  ret {| item_title := ep_title episode;
         item_id := episodeUrl;
         item_link := episodeUrl;
         item_description :=
           match shownotesMode with
           | ModeTitle => ep_title episode
           | ModeFull => ep_title episode +:+ " (" +:+ formatBytes fileSize +:+ ")"
           end;
         item_content := or_else (html notes) ("<p>" +:+ escapeHtml (ep_title episode) +:+ "</p>");
         item_date := ep_pubDate episode;
         enclosure_url := episodeUrl;
         enclosure_type := getMediaType (ep_fileName episode);
         enclosure_length := fileSize;
         itunes_summary := or_else (plain notes) (ep_title episode) |}.

(** The items of [generateFeed], in the order of the episodes. *)
Fixpoint feedItems (env : EnvConfig) (source : PodcastSource) (options : ProcessOptions)
    (eps : list Episode) : M (list feedItem) :=
  match eps with
  | [] => ret []
  | episode :: rest =>
      item <- episodeItem env source options episode ;;
      items <- feedItems env source options rest ;;
      ret (item :: items)
  end.

(** The Notes section as the specification words it: each text
    attachment "as a link followed by a <pre> block of its HTML-escaped
    truncated inline text, link only when the inline text is empty". *)
Definition pushNote_as_worded (htmlParts : list string) (t : attachment) : list string :=
  let body := opt_or_else (att_inlineText t) EmptyString in
  if negb (truthy body) then push htmlParts (noteLink t)
  else push (push htmlParts (noteLink t)) ("<pre>" +:+ escapeHtml body +:+ "</pre>").

End Feed.

(** ** A concrete platform, for running the model *)

Module Demo.

(** Percent encoding of a code unit: the bytes of its UTF-8 form. *)
Definition hexDigit (n : nat) : ascii :=
  nth n ["0"; "1"; "2"; "3"; "4"; "5"; "6"; "7"; "8"; "9"; "A"; "B"; "C"; "D"; "E"; "F"]%char
    "0"%char.

Definition percentByte (b : nat) : string :=
  String "%" (String (hexDigit (b / 16)) (String (hexDigit (b mod 16)) EmptyString)).

Definition percentUnit (c : ascii) : string :=
  let n := nat_of_ascii c in
  if (n <? 128)%nat then percentByte n
  else percentByte (192 + n / 64) +:+ percentByte (128 + n mod 64).

Definition isAlnum (c : ascii) : bool :=
  let n := nat_of_ascii c in
  ((48 <=? n) && (n <=? 57) || (65 <=? n) && (n <=? 90) || (97 <=? n) && (n <=? 122))%nat.

Definition oneOf (set : string) (c : ascii) : bool :=
  existsb (Ascii.eqb c) (list_ascii_of_string set).

(** The code units that [keep] accepts stay; a space becomes [space];
    the others are percent-encoded. *)
Fixpoint encodeWith (keep : ascii -> bool) (space : string) (s : string) : string :=
  match s with
  | EmptyString => EmptyString
  | String c s' =>
      (if keep c then String c EmptyString
       else if Ascii.eqb c " " then space
       else percentUnit c) +:+ encodeWith keep space s'
  end.

(** The serializer of [URLSearchParams] (application/x-www-form-urlencoded). *)
Definition formEncode : string -> string :=
  encodeWith (fun c => isAlnum c || oneOf "*-._" c) "+".

(** [path.dirname] of [path.posix]: the scan from the end of the path for
    the last slash that follows a name; [r] is the path reversed, and the
    first code unit of the path is not looked at. *)
Fixpoint dirnameScan (matchedSlash : bool) (r : string) : option string :=
  match r with
  | EmptyString => None
  | String c r' =>
      match r' with
      | EmptyString => None
      | String _ _ =>
          if Ascii.eqb c "/"
          then if matchedSlash then dirnameScan true r' else Some r'
          else dirnameScan false r'
      end
  end.

Definition dirname (p : string) : string :=
  match p with
  | EmptyString => "."
  | String c0 _ =>
      let hasRoot := Ascii.eqb c0 "/" in
      match dirnameScan true (String.rev p) with
      | None => if hasRoot then "/" else "."
      | Some r' => if hasRoot && (String.length r' =? 1)%nat then "//" else String.rev r'
      end
  end.

Fixpoint dropSlashes (s : string) : string :=
  match s with
  | String c s' => if Ascii.eqb c "/" then dropSlashes s' else s
  | EmptyString => EmptyString
  end.

Fixpoint beforeSlash (s : string) : string :=
  match s with
  | EmptyString => EmptyString
  | String c s' => if Ascii.eqb c "/" then EmptyString else String c (beforeSlash s')
  end.

(** The part before the first dot and the part after it, when there is a
    dot. *)
Fixpoint splitAtDot (s : string) : option (string * string) :=
  match s with
  | EmptyString => None
  | String c s' =>
      if Ascii.eqb c "." then Some (EmptyString, s')
      else match splitAtDot s' with
           | Some (a, b) => Some (String c a, b)
           | None => None
           end
  end.

(** [path.extname] of [path.posix]: of the last segment of the path, the
    part from the last dot on; empty when there is no dot, when the dot
    is the first code unit of the segment, and for the segment [..]. *)
Definition extname (p : string) : string :=
  let segment := beforeSlash (dropSlashes (String.rev p)) in
  match splitAtDot segment with
  | None => EmptyString
  | Some (extRev, restRev) =>
      if negb (truthy restRev) then EmptyString
      else if negb (truthy extRev) && String.eqb restRev "." then EmptyString
      else String "." (String.rev extRev)
  end.

(** POSIX paths; [path.join] on paths without [.] and [..] segments and
    without slashes at the joint; texts whose UTF-8 bytes are read as code
    units (ASCII); dates given by their ISO form, all valid, so that
    [String(date)] is not called; numbers below 10^21. *)
Definition runtime : Runtime := {|
  encodeURIComponent := encodeWith (fun c => isAlnum c || oneOf "-_.!~*'()" c) "%20";
  path_join := fun a b => a +:+ "/" +:+ b;
  path_dirname := dirname;
  path_extname := extname;
  cwd := "/srv";
  urlSearchParams :=
    fun pairs => join "&" (map (fun kv => formEncode (fst kv) +:+ "=" +:+ formEncode (snd kv)) pairs);
  decodeUtf8 := fun bytes => bytes;
  numberToString := fun _ => "1e+21";
  Date := string;
  toISOString := fun d => Some d;
  dateToString := fun d => d
|}.

Definition env : EnvConfig := {|
  EPISODE_SHOWNOTES := ModeFull;
  EPISODE_INLINE_ATTACHMENTS := InlineAll;
  EPISODE_INLINE_TEXT_MAX_CHARS := Fin 8000;
  REMOTE_COVER_ENABLED := true;
  REMOTE_COVER_PROVIDER := ProviderItunes;
  REMOTE_COVER_COUNTRY := "cn";
  REMOTE_COVER_TTL_DAYS := Fin 30;
  REMOTE_COVER_TIMEOUT_MS := Fin 8000
|}.

Definition podcastConfig (cover term : option string) : PodcastConfig := {|
  title := "Show";
  description := "A show";
  author := "Ann";
  email := "ann@example.org";
  language := "en";
  category := "Education";
  explicit := false;
  websiteUrl := None;
  coverImageUrl := cover;
  coverSearchTerm := term
|}.

Definition episode1 : @Episode runtime :=
  @Build_Episode runtime "Episode 1" "ep1.mp3" "/audio/show/ep1.mp3"
    "2024-01-02T03:04:05.000Z".

Definition source (cover term : option string) : @PodcastSource runtime := {|
  dirName := "show";
  dirPath := "/audio/show";
  config := podcastConfig cover term;
  episodes := [episode1];
  coverPath := None;
  coverUrl := None
|}.

Definition options : ProcessOptions := {|
  baseUrl := "http://localhost:3000";
  defaultCover := "http://localhost:3000/default.jpg"
|}.

Definition imageResponse : response :=
  {| ok := true; arrayBuffer := Some "PNGDATA"; jsonBody := None |}.

Definition jsonResponse (j : json) : response :=
  {| ok := true; arrayBuffer := None; jsonBody := Some j |}.

(** Every call succeeds; a fetch for JSON gets [search], any other fetch
    gets an image. *)
Definition oracleWith (search : option response) (removeFails : string -> bool) : oracle := {|
  now := 1000000;
  written_mtime := 1000000;
  stat_fails := fun _ => false;
  fetch_result := fun _ accept =>
    match accept with Some _ => search | None => Some imageResponse end;
  ensureDir_fails := fun _ => false;
  ensureDir_made := fun _ _ => false;
  writeFile_fails := fun _ => false;
  writeFile_written := fun _ => None;
  remove_fails := removeFails;
  remove_done := fun _ _ => false;
  open_fails := fun _ => false;
  read_result := fun _ len => Some len;
  close_fails := fun _ => false
|}.

Definition textFile (mtime : Q) (text : string) : file :=
  {| mtimeMs := mtime; isFile := true; content := text |}.

Definition worldOf (files : list (string * file)) : world :=
  {| fs := list_to_map files; log := [] |}.

End Demo.

(** ** Auxiliary definitions for the proofs *)

(** The entity of a code unit that [escapeHtml] rewrites. *)
Definition entityOf (c : ascii) : string :=
  if Ascii.eqb c "&" then "&amp;"
  else if Ascii.eqb c "<" then "&lt;"
  else if Ascii.eqb c ">" then "&gt;"
  else if Ascii.eqb c dquote then "&quot;"
  else if Ascii.eqb c "'" then "&#39;"
  else String c EmptyString.

(** A text in which exactly the code units of [escaped] are written as
    entities: the state of the text between two passes. *)
Definition escapedBy (escaped : list ascii) (c : ascii) : string :=
  if existsb (Ascii.eqb c) escaped then entityOf c else String c EmptyString.

Fixpoint expand (f : ascii -> string) (s : string) : string :=
  match s with
  | EmptyString => EmptyString
  | String c s' => f c +:+ expand f s'
  end.

(** The world after further calls were logged. *)
Definition logged (w : world) (evs : list event) : world :=
  {| fs := fs w; log := log w ++ evs |}.

(** The cache probe, declaratively. *)

Section ProbeView.
Context {rt : Runtime} (O : oracle).

(** A fresh cache hit at [p]: the file exists, [stat] succeeds, and the
    age of the file passes [freshAge]. *)
Definition freshHit (ttlDays : number) (files : gmap string file) (p : string) : bool :=
  match files !! p with
  | Some f => negb (stat_fails O p) && freshAge ttlDays (now O - mtimeMs f)
  | None => false
  end.

(** The calls of the probe over [exts]: [pathExists] on each candidate,
    [stat] on those that exist, nothing after a fresh hit. *)
Fixpoint probeTrace (ttlDays : number) (files : gmap string file) (baseNoExt : string)
    (exts : list string) : list event :=
  match exts with
  | [] => []
  | ext :: rest =>
      let p := baseNoExt +:+ ext in
      EvPathExists p
        :: match files !! p with Some _ => [EvStat p] | None => [] end
        ++ (if freshHit ttlDays files p then []
            else probeTrace ttlDays files baseNoExt rest)
  end.

Definition hitResult (baseNoExt baseName ext : string) : coverResult :=
  {| res_coverUrl := Some (toCoverRoute (baseName +:+ ext));
     res_coverCachePath := Some (baseNoExt +:+ ext) |}.

(** The path an event is about, the URL for a fetch. *)
Definition eventTarget (e : event) : string :=
  match e with
  | EvPathExists p | EvStat p | EvEnsureDir p | EvWriteFile p | EvRemove p
  | EvOpen p | EvRead p _ | EvClose p => p
  | EvFetch url _ => url
  end.

Definition isFetchEvent (e : event) : bool :=
  match e with EvFetch _ _ => true | _ => false end.

(** The download of [url] to [path] goes through: the fetch answers with
    a 2xx status and a readable body, the directory and the file can be
    written. *)
Definition downloadSucceeds (url path : string) : Prop :=
  exists res buf,
    fetch_result O url None = Some res
    /\ ok res = true
    /\ arrayBuffer res = Some buf
    /\ ensureDir_fails O (path_dirname path) = false
    /\ writeFile_fails O path = false.

(** The probe of the cache of [source] finds no fresh hit in [w]. *)
Definition noFreshHit (env : EnvConfig) (source : PodcastSource) (w : world) : Prop :=
  forall e, In e coverExts ->
    freshHit (REMOTE_COVER_TTL_DAYS env) (fs w)
      (path_join coversDir (dirName source) +:+ e) = false.

(** The URL [itunesSearchArtwork] fetches for a term. *)
Definition searchUrl (term country : string) : string :=
  "https://itunes.apple.com/search?"
    +:+ urlSearchParams [("term", term); ("entity", "podcast"); ("limit", "3"); ("country", country)].

(** The file [writeFile] leaves. *)
Definition writtenFile (buf : string) : file :=
  {| mtimeMs := written_mtime O; isFile := true; content := buf |}.

(** The last part of [resolveCoverForSource]: what it does with the
    artwork URL once it has one. *)
Definition storeArtwork (env : EnvConfig) (source : PodcastSource) (artworkUrl : json)
    : M coverResult :=
  let baseName := dirName source in
  let baseNoExt := path_join coversDir baseName in
  if negb (jsTruthy artworkUrl) then ret emptyResult
  else
    ext <- guessExtOf artworkUrl ;;
    let cachePath := baseNoExt +:+ ext in
    try_catch
      (downloadToFile O (urlOf artworkUrl) cachePath (REMOTE_COVER_TIMEOUT_MS env) ;;;
       cleanupOldVariants O baseNoExt ext ;;;
       ret {| res_coverUrl := Some (toCoverRoute (baseName +:+ ext));
              res_coverCachePath := Some cachePath |})
      (ret emptyResult).

End ProbeView.

(** The extra sections of the full mode, declaratively. *)

(** What one text attachment contributes to the Notes section. *)
Definition noteBlock (t : attachment) : list string :=
  let body := trim (opt_or_else (att_inlineText t) EmptyString) in
  if truthy body
  then [noteLink t; "<pre>" +:+ escapeHtml body +:+ "</pre>"]
  else [noteLink t].

Definition imagesSection (inlineAttachments : inlineMode) (attachments : list attachment)
    : list string :=
  match inlineAttachments, List.filter isImage attachments with
  | InlineNone, _ | _, [] => []
  | _, images => imagesHeading :: map imageBlock images
  end.

Definition notesSection (inlineAttachments : inlineMode) (attachments : list attachment)
    : list string :=
  match inlineAttachments, List.filter isText attachments with
  | InlineAll, (_ :: _) as texts => notesHeading :: flat_map noteBlock texts
  | _, _ => []
  end.

(** An attachment as the locator builds it for one of [exts]: named after
    the stem, of the kind of its extension, found on disk, with an inline
    text of at most [maxChars] code units when it is a text and none
    otherwise. *)
Section SidecarView.
Context {rt : Runtime}.

Definition attachmentOk (files : gmap string file) (dirPath' stem : string) (maxChars : nat)
    (exts : list string) (a : attachment) : Prop :=
  exists ext,
    In ext exts
    /\ att_fileName a = stem +:+ "." +:+ ext
    /\ att_kind a = kindOfExt ext
    /\ is_Some (files !! path_join dirPath' (stem +:+ "." +:+ ext))
    /\ match att_kind a with
       | KText => exists t, att_inlineText a = Some t /\ (String.length t <= maxChars)%nat
       | _ => att_inlineText a = None
       end.

End SidecarView.

(** The second code unit of a string: it tells the parts of the HTML
    apart from the section headings. *)
Definition secondUnit (x : string) : option ascii :=
  match x with
  | String _ (String c _) => Some c
  | _ => None
  end.


(** Every code unit of a string passes a test. *)
Fixpoint allUnits (ok : ascii -> bool) (s : string) : bool :=
  match s with
  | EmptyString => true
  | String c s' => ok c && allUnits ok s'
  end.

(** The code units that may stand in an extension for [stemOf]: any but
    the dot and the slash. *)
Definition extUnit (c : ascii) : bool := negb (Ascii.eqb c "." || Ascii.eqb c "/").

Definition isNot (x c : ascii) : bool := negb (Ascii.eqb c x).

(** The code units [escapeHtml] leaves as they are. *)
Definition plainUnit (c : ascii) : bool :=
  negb (Ascii.eqb c "&" || Ascii.eqb c "<" || Ascii.eqb c ">"
        || Ascii.eqb c dquote || Ascii.eqb c "'").

(** A call that changes the file system. *)
Definition isMutation (ev : event) : bool :=
  match ev with
  | EvEnsureDir _ | EvWriteFile _ | EvRemove _ => true
  | _ => false
  end.

(** [p] is [base] with one of the three cover extensions. *)
Definition isVariant (base p : string) : bool :=
  existsb (fun e => String.eqb p (base +:+ e)) coverExts.

Section CallView.
Context {rt : Runtime} (O : oracle).

(** A call the resolver may make for the cache at [base]: a fetch; a
    probe, a stat, a write or a removal of a variant; the making of the
    directory of a variant.  It opens and reads nothing. *)
Definition cacheCall (base : string) (ev : event) : bool :=
  match ev with
  | EvFetch _ _ => true
  | EvPathExists p | EvStat p | EvWriteFile p | EvRemove p => isVariant base p
  | EvEnsureDir d => existsb (fun e => String.eqb d (path_dirname (base +:+ e))) coverExts
  | EvOpen _ | EvRead _ _ | EvClose _ => false
  end.

(** The request for [url] gives nothing to store: it is rejected, the
    status is not ok, or the body cannot be read. *)
Definition requestFails (url : string) : Prop :=
  match fetch_result O url None with
  | None => True
  | Some res => ok res = false \/ arrayBuffer res = None
  end.

(** A call of the cleanup that keeps [keep]: a probe or a removal of
    another variant. *)
Definition cleanupCall (base keep : string) (ev : event) : Prop :=
  exists e, In e coverExts /\ e <> keep
            /\ (ev = EvPathExists (base +:+ e) \/ ev = EvRemove (base +:+ e)).

End CallView.

Section TextView.
Context {rt : Runtime} (O : oracle).

(** The text [readTextTruncated] makes of the file [f] when the read
    returns [bytesRead] bytes: the bytes that were read, decoded, cut at
    [maxChars] code units. *)
Definition inlineTextOf (maxChars bytesRead : nat) (f : file) : string :=
  let len := Nat.min (Nat.max 1024 (maxChars * 4)) (size f) in
  let s := decodeUtf8 (take (Nat.min bytesRead len) (content f)) in
  if (maxChars <? String.length s)%nat then take maxChars s else s.

(** What [readTextTruncated] returns for [p] on the files [files]. *)
Definition textSeen (files : gmap string file) (p : string) (maxChars : nat) : string :=
  if stat_fails O p then EmptyString
  else
    match files !! p with
    | None => EmptyString
    | Some f =>
        if negb (isFile f) then EmptyString
        else if open_fails O p then EmptyString
        else
          match read_result O p (Nat.min (Nat.max 1024 (maxChars * 4)) (size f)) with
          | None => EmptyString
          | Some bytesRead =>
              if close_fails O p then EmptyString else inlineTextOf maxChars bytesRead f
          end
    end.

End TextView.

Section SidecarOrder.
Context {rt : Runtime}.

(** The candidate extensions whose file exists next to the audio file, in
    the order of the probe. *)
Definition presentExts (files : gmap string file) (dirPath' stem : string)
    (exts : list string) : list string :=
  List.filter
    (fun ext => match files !! path_join dirPath' (stem +:+ "." +:+ ext) with
                | Some _ => true
                | None => false
                end)
    exts.

(** Name, URL and kind of the attachment for an extension. *)
Definition attachmentFace (baseUrl' dirName' stem ext : string)
    : string * string * attachmentKind :=
  (stem +:+ "." +:+ ext,
   baseUrl' +:+ "/audio/" +:+ encodeURIComponent dirName' +:+ "/"
     +:+ encodeURIComponent (stem +:+ "." +:+ ext),
   kindOfExt ext).

End SidecarOrder.

Definition faceOf (a : attachment) : string * string * attachmentKind :=
  (att_fileName a, att_url a, att_kind a).

Section SizeView.
Context {rt : Runtime} (O : oracle).

(** What [getFileSize] answers for [p] on the files [files]. *)
Definition sizeSeen (files : gmap string file) (p : string) : number :=
  if stat_fails O p then Fin 0
  else match files !! p with
       | Some f => Fin (inject_Z (Z.of_nat (size f)))
       | None => Fin 0
       end.

(** The URL of an episode's audio file. *)
Definition episodeUrlOf (source : PodcastSource) (options : ProcessOptions)
    (episode : Episode) : string :=
  baseUrl options +:+ "/audio/" +:+ encodeURIComponent (dirName source)
    +:+ "/" +:+ encodeURIComponent (ep_fileName episode).

End SizeView.

(** ** The head of the feed *)

Section FeedHead.
Context {rt : Runtime}.

(** [path.basename] *)
Variable path_basename : string -> string.

(** [new Date()] at the time of the call *)
Variable today : Date.

(** The image of the feed: the resolved cover URL, made absolute; else
    the [cover.jpg] of the folder; else the default cover. *)
Definition feedImage (source : PodcastSource) (options : ProcessOptions) : string :=
  let rawCover := opt_or_else (coverUrl source) EmptyString in
  if truthy rawCover
  then
    if startsWith "http://" rawCover || startsWith "https://" rawCover
    then rawCover
    else baseUrl options +:+ rawCover
  else
    if truthy (opt_or_else (coverPath source) EmptyString)
    then baseUrl options +:+ "/audio/" +:+ encodeURIComponent (path_basename (dirPath source))
           +:+ "/cover.jpg"
    else defaultCover options.

(** [episodes[episodes.length - 1]], then its date or today's. *)
Definition updateDate (source : PodcastSource) : Date :=
  match nth_error (episodes source) (length (episodes source) - 1) with
  | Some latestEpisode => ep_pubDate latestEpisode
  | None => today
  end.

End FeedHead.

(** ** The configuration of the environment (env.ts) *)

Module Env.

(** [EnvConfig] as [getEnvConfig] fills it: the fields TypeScript casts
    to a union of literals hold whatever string the variable has. *)
Record EnvConfig : Type := {
  AUDIO_DIR : string;
  PORT : number;
  TITLE_FORMAT : string;
  BASE_URL : string;
  EPISODE_SHOWNOTES : string;
  EPISODE_INLINE_ATTACHMENTS : string;
  EPISODE_INLINE_TEXT_MAX_CHARS : number;
  REMOTE_COVER_ENABLED : bool;
  REMOTE_COVER_PROVIDER : string;
  REMOTE_COVER_COUNTRY : string;
  REMOTE_COVER_TTL_DAYS : number;
  REMOTE_COVER_TIMEOUT_MS : number
}.

Section GetEnvConfig.
Context {rt : Runtime}.

(** [parseInt(s, 10)] and the string of a number in a template literal *)
Variable parseInt : string -> number.
Variable numberString : number -> string.

(** [process.env.KEY || fallback] *)
Definition envOr (env : gmap string string) (key fallback : string) : string :=
  opt_or_else (env !! key) fallback.

Definition getEnvConfig (env : gmap string string) : EnvConfig :=
  let defaultAudioDir := path_join cwd "audio" in
  let port := parseInt (envOr env "PORT" "3000") in
  let defaultBaseUrl := "http://localhost:" +:+ numberString port in
  {| AUDIO_DIR := envOr env "AUDIO_DIR" defaultAudioDir;
     PORT := port;
     TITLE_FORMAT := envOr env "TITLE_FORMAT" "full";
     BASE_URL := envOr env "BASE_URL" defaultBaseUrl;
     EPISODE_SHOWNOTES := envOr env "EPISODE_SHOWNOTES" "full";
     EPISODE_INLINE_ATTACHMENTS := envOr env "EPISODE_INLINE_ATTACHMENTS" "all";
     EPISODE_INLINE_TEXT_MAX_CHARS := parseInt (envOr env "EPISODE_INLINE_TEXT_MAX_CHARS" "8000");
     REMOTE_COVER_ENABLED :=
       String.eqb (toLowerCase (envOr env "REMOTE_COVER_ENABLED" "true")) "true";
     REMOTE_COVER_PROVIDER := envOr env "REMOTE_COVER_PROVIDER" "itunes";
     REMOTE_COVER_COUNTRY := envOr env "REMOTE_COVER_COUNTRY" "cn";
     REMOTE_COVER_TTL_DAYS := parseInt (envOr env "REMOTE_COVER_TTL_DAYS" "30");
     REMOTE_COVER_TIMEOUT_MS := parseInt (envOr env "REMOTE_COVER_TIMEOUT_MS" "8000") |}.

End GetEnvConfig.

End Env.

(** The entry that opens the list of attachments in the show notes. *)
Definition attachmentsOpening : string := "<li><strong>Attachments</strong>:<ul>".

(** ** Further concrete cases, for running the model *)

Module Cases.

(** The configuration of [Demo.env] with another shownotes mode, switch
    and time to live. *)
Definition envWith (mode : shownotesMode) (enabled : bool) (ttlDays : number) : EnvConfig := {|
  EPISODE_SHOWNOTES := mode;
  EPISODE_INLINE_ATTACHMENTS := InlineAll;
  EPISODE_INLINE_TEXT_MAX_CHARS := Fin 8000;
  REMOTE_COVER_ENABLED := enabled;
  REMOTE_COVER_PROVIDER := ProviderItunes;
  REMOTE_COVER_COUNTRY := "cn";
  REMOTE_COVER_TTL_DAYS := ttlDays;
  REMOTE_COVER_TIMEOUT_MS := Fin 8000
|}.

(** No network: every fetch is rejected; the file system works. *)
Definition offline : oracle := {|
  now := 1000000;
  written_mtime := 1000000;
  stat_fails := fun _ => false;
  fetch_result := fun _ _ => None;
  ensureDir_fails := fun _ => false;
  ensureDir_made := fun _ _ => false;
  writeFile_fails := fun _ => false;
  writeFile_written := fun _ => None;
  remove_fails := fun _ => false;
  remove_done := fun _ _ => false;
  open_fails := fun _ => false;
  read_result := fun _ len => Some len;
  close_fails := fun _ => false
|}.

(** A later run: every call succeeds, the clock reads [clock]. *)
Definition laterRun (clock : Q) : oracle := {|
  now := clock;
  written_mtime := clock;
  stat_fails := fun _ => false;
  fetch_result := fun _ _ => Some Demo.imageResponse;
  ensureDir_fails := fun _ => false;
  ensureDir_made := fun _ _ => false;
  writeFile_fails := fun _ => false;
  writeFile_written := fun _ => None;
  remove_fails := fun _ => false;
  remove_done := fun _ _ => false;
  open_fails := fun _ => false;
  read_result := fun _ len => Some len;
  close_fails := fun _ => false
|}.

(** The disk is full: the image is fetched, the cache file is opened and
    truncated, and the write fails after three bytes. *)
Definition diskFull : oracle := {|
  now := 1000000;
  written_mtime := 1000000;
  stat_fails := fun _ => false;
  fetch_result := fun _ _ => Some Demo.imageResponse;
  ensureDir_fails := fun _ => false;
  ensureDir_made := fun _ _ => false;
  writeFile_fails := fun _ => true;
  writeFile_written := fun _ => Some 3%nat;
  remove_fails := fun _ => false;
  remove_done := fun _ _ => false;
  open_fails := fun _ => false;
  read_result := fun _ len => Some len;
  close_fails := fun _ => false
|}.

(** A search answer of two results; the first has an empty
    [artworkUrl600] and an [artworkUrl100]. *)
Definition searchBody : json :=
  JObj [("resultCount", JNum 2);
        ("results",
         JArr [JObj [("artworkUrl600", JStr EmptyString);
                     ("artworkUrl100", JStr "http://h/100.jpg")];
               JObj [("artworkUrl600", JStr "http://h/other600.png")]])].

(** The source of [Demo] with a resolved cover. *)
Definition sourceWithCover (cover : option string) : @PodcastSource Demo.runtime := {|
  dirName := "show";
  dirPath := "/audio/show";
  config := Demo.podcastConfig None None;
  episodes := [Demo.episode1];
  coverPath := None;
  coverUrl := cover
|}.

Definition staleCover : string * file :=
  ("/srv/.covers/show.jpg", Demo.textFile (-5000000000) "OLD").

Definition audioFile : string * file :=
  ("/audio/show/ep1.mp3", Demo.textFile 5000 "MP3").

End Cases.

(** * Properties *)

(** ** [escapeHtml] *)

Section EscapeHtml.

Lemma expand_id (s : string) : expand (escapedBy []) s = s.
Proof. induction s as [|c s IH]; simpl; [reflexivity | now rewrite IH]. Qed.

Lemma replaceAll_expand (pat rep : string) (f g : ascii -> string) :
  (forall c rest,
      replaceAll_from pat rep 0 (f c +:+ rest) = g c +:+ replaceAll_from pat rep 0 rest) ->
  forall s, replaceAll pat rep (expand f s) = expand g s.
Proof.
  intros Hlocal s. unfold replaceAll.
  induction s as [|c s IH]; simpl; [reflexivity|].
  now rewrite Hlocal, IH.
Qed.

(** Case analysis on whether a code unit is one of the five that are
    escaped; the last case carries the five disequalities as boolean
    equations, in both orientations. *)
Ltac special_cases c :=
  destruct (Ascii.eqb_spec c "&") as [->|?];
  [|destruct (Ascii.eqb_spec c "<") as [->|?];
    [|destruct (Ascii.eqb_spec c ">") as [->|?];
      [|destruct (Ascii.eqb_spec c dquote) as [->|?];
        [|destruct (Ascii.eqb_spec c "'") as [->|?]]]]].

Ltac ordinary c :=
  repeat match goal with
    | H : c <> ?x |- _ =>
        let E1 := fresh "E" in let E2 := fresh "E" in
        assert (E1 : Ascii.eqb c x = false) by (now apply Ascii.eqb_neq);
        assert (E2 : Ascii.eqb x c = false) by (apply Ascii.eqb_neq; congruence);
        clear H
    end.

#[local] Arguments Ascii.eqb : simpl never.

Ltac step_pass :=
  simpl;
  repeat match goal with
    | E : Ascii.eqb _ _ = false |- _ => rewrite E
    end.

Ltac pass_local c :=
  special_cases c; try reflexivity;
  ordinary c; unfold escapedBy, entityOf;
  do 8 step_pass; reflexivity.

Lemma escape_pass_amp s :
  replaceAll "&" "&amp;" (expand (escapedBy []) s) = expand (escapedBy ["&"%char]) s.
Proof. apply replaceAll_expand. intros c rest. pass_local c. Qed.

Lemma escape_pass_lt s :
  replaceAll "<" "&lt;" (expand (escapedBy ["&"%char]) s)
  = expand (escapedBy ["<"; "&"]%char) s.
Proof. apply replaceAll_expand. intros c rest. pass_local c. Qed.

Lemma escape_pass_gt s :
  replaceAll ">" "&gt;" (expand (escapedBy ["<"; "&"]%char) s)
  = expand (escapedBy [">"; "<"; "&"]%char) s.
Proof. apply replaceAll_expand. intros c rest. pass_local c. Qed.

Lemma escape_pass_quot s :
  replaceAll dq "&quot;" (expand (escapedBy [">"; "<"; "&"]%char) s)
  = expand (escapedBy [dquote; ">"; "<"; "&"]%char) s.
Proof. apply replaceAll_expand. intros c rest. pass_local c. Qed.

Lemma escape_pass_apos s :
  replaceAll "'" "&#39;" (expand (escapedBy [dquote; ">"; "<"; "&"]%char) s)
  = expand (escapedBy ["'"; dquote; ">"; "<"; "&"]%char) s.
Proof. apply replaceAll_expand. intros c rest. pass_local c. Qed.

(** The five passes amount to one pass that writes each code unit as
    its entity. *)
Lemma escapeHtml_expand s :
  escapeHtml s = expand (escapedBy ["'"; dquote; ">"; "<"; "&"]%char) s.
Proof.
  unfold escapeHtml.
  rewrite <- (expand_id s) at 1.
  now rewrite escape_pass_amp, escape_pass_lt, escape_pass_gt,
    escape_pass_quot, escape_pass_apos.
Qed.

Lemma unescape_pass_lt s :
  replaceAll "&lt;" "<" (expand (escapedBy ["'"; dquote; ">"; "<"; "&"]%char) s)
  = expand (escapedBy ["'"; dquote; ">"; "&"]%char) s.
Proof. apply replaceAll_expand. intros c rest. pass_local c. Qed.

Lemma unescape_pass_gt s :
  replaceAll "&gt;" ">" (expand (escapedBy ["'"; dquote; ">"; "&"]%char) s)
  = expand (escapedBy ["'"; dquote; "&"]%char) s.
Proof. apply replaceAll_expand. intros c rest. pass_local c. Qed.

Lemma unescape_pass_quot s :
  replaceAll "&quot;" dq (expand (escapedBy ["'"; dquote; "&"]%char) s)
  = expand (escapedBy ["'"; "&"]%char) s.
Proof. apply replaceAll_expand. intros c rest. pass_local c. Qed.

Lemma unescape_pass_apos s :
  replaceAll "&#39;" "'" (expand (escapedBy ["'"; "&"]%char) s)
  = expand (escapedBy ["&"%char]) s.
Proof. apply replaceAll_expand. intros c rest. pass_local c. Qed.

Lemma unescape_pass_amp s :
  replaceAll "&amp;" "&" (expand (escapedBy ["&"%char]) s)
  = expand (escapedBy []) s.
Proof. apply replaceAll_expand. intros c rest. pass_local c. Qed.

Lemma In_append (c : ascii) (a b : string) :
  In c (list_ascii_of_string (a +:+ b))
  -> In c (list_ascii_of_string a) \/ In c (list_ascii_of_string b).
Proof.
  induction a as [|x a IH]; simpl; [now right|].
  intros [->|H]; [now left; left|].
  destruct (IH H); [left; now right | now right].
Qed.

(** No code unit of an entity, and no code unit that is left alone, is
    one of the four that must not appear raw. *)
Lemma escaped_unit_safe (c x : ascii) :
  In x (list_ascii_of_string (escapedBy ["'"; dquote; ">"; "<"; "&"]%char c))
  -> x <> "<"%char /\ x <> ">"%char /\ x <> dquote /\ x <> "'"%char.
Proof.
  special_cases c;
    try (simpl; intros H;
         repeat (destruct H as [<-|H]; [repeat split; discriminate|]); contradiction).
  intros H. ordinary c. revert H. unfold escapedBy, entityOf. do 3 step_pass.
  intros [<-|[]].
  repeat split; intros ->; discriminate.
Qed.

Lemma expand_safe (s : string) (x : ascii) :
  In x (list_ascii_of_string (expand (escapedBy ["'"; dquote; ">"; "<"; "&"]%char) s))
  -> x <> "<"%char /\ x <> ">"%char /\ x <> dquote /\ x <> "'"%char.
Proof.
  induction s as [|c s IH]; [intros []|].
  cbn [expand]. intros H. apply In_append in H as [H|H].
  - exact (escaped_unit_safe c x H).
  - exact (IH H).
Qed.

(** C9. For every string [s], [escapeHtml s] holds no raw [<], [>],
    double quote or apostrophe, and replacing the entities [&lt;],
    [&gt;], [&quot;], [&#39;] and then [&amp;] back in it gives [s]
    again. *)
Theorem escapeHtml_safe_and_invertible (s : string) :
  (forall x, In x (list_ascii_of_string (escapeHtml s))
             -> x <> "<"%char /\ x <> ">"%char /\ x <> dquote /\ x <> "'"%char)
  /\ unescapeHtml (escapeHtml s) = s.
Proof.
  split.
  - intros x. rewrite escapeHtml_expand. apply expand_safe.
  - unfold unescapeHtml. rewrite escapeHtml_expand.
    rewrite unescape_pass_lt, unescape_pass_gt, unescape_pass_quot,
      unescape_pass_apos, unescape_pass_amp.
    apply expand_id.
Qed.

End EscapeHtml.

(** ** [formatBytes] *)

Section FormatBytesFacts.
Context {rt : Runtime}.

Lemma Qle_bool_false (x y : Q) : Qle_bool x y = false -> (y < x)%Q.
Proof.
  intros E. apply Qnot_le_lt. intros H.
  apply Qle_bool_iff in H. congruence.
Qed.

Lemma length_take (n : nat) (s : string) :
  String.length (take n s) = Nat.min n (String.length s).
Proof.
  revert s; induction n as [|n IH]; intros [|c s]; simpl; auto.
Qed.

Lemma length_drop (n : nat) (s : string) :
  String.length (drop n s) = (String.length s - n)%nat.
Proof.
  revert s; induction n as [|n IH]; intros [|c s]; simpl; auto.
Qed.

Lemma length_append (a b : string) :
  String.length (a +:+ b) = (String.length a + String.length b)%nat.
Proof. induction a as [|c a IH]; simpl; auto. Qed.

Lemma length_zeros (k : nat) : String.length (zeros k) = k.
Proof. induction k; simpl; auto. Qed.

(** Below 10^21, [toFixed x f] with [f > 0] ends in a point followed by
    exactly [f] digits. *)
Lemma toFixed_places (x : Q) (f : nat) :
  Qle_bool (inject_Z (10 ^ 21)) (Qabs x) = false -> (0 < f)%nat ->
  exists a b, toFixed x f = a +:+ "." +:+ b /\ String.length b = f.
Proof.
  intros Hsmall Hf. unfold toFixed. rewrite Hsmall.
  destruct f as [|f]; [lia|].
  set (m := digitsOf _).
  set (m' := zeros (S f + 1 - String.length m) +:+ m).
  exists ((if Qle_bool 0 x then EmptyString else "-") +:+ take (String.length m' - S f) m'),
    (drop (String.length m' - S f) m').
  split.
  - destruct (Qle_bool 0 x); simpl; [reflexivity|].
    reflexivity.
  - rewrite length_drop.
    assert (S f + 1 <= String.length m')%nat; [|lia].
    unfold m'. rewrite length_append, length_zeros. lia.
Qed.

(** What the loop of [formatBytes] computes from a positive [q]: [i]
    divisions, each made on a value of at least 1024, stopping at the
    last unit or below 1024. *)
Lemma div1024 (q : Q) : (q / 1024 == q * (1 # 1024))%Q.
Proof. reflexivity. Qed.

Lemma pow1024_values :
  inject_Z (1024 ^ Z.of_nat 0) = 1%Q
  /\ inject_Z (1024 ^ Z.of_nat 1) = 1024%Q
  /\ inject_Z (1024 ^ Z.of_nat 2) = 1048576%Q
  /\ inject_Z (1024 ^ Z.of_nat 3) = 1073741824%Q
  /\ inject_Z (1024 ^ Z.of_nat 4) = 1099511627776%Q.
Proof. repeat split. Qed.

(** Closes the arithmetic side conditions of [scale_units] once the
    number of divisions is known. *)
Ltac scale_arith :=
  destruct pow1024_values as (P0 & P1 & P2 & P3 & P4);
  repeat match goal with
    | H : context [(_ / 1024)%Q] |- _ => rewrite !div1024 in H
    end;
  repeat split;
  try lia;
  try (rewrite ?div1024, ?P0, ?P1, ?P2, ?P3, ?P4; lra);
  try (right; rewrite ?div1024; lra);
  try (intros j Hj;
       repeat (destruct j as [|j]; [rewrite ?P1, ?P2, ?P3, ?P4; lra|]); lia).

(** What the loop of [formatBytes] computes from [q]: [i] divisions,
    each made on a value of at least 1024, stopping at the last unit or
    below 1024. *)
Lemma scale_units (q : Q) :
  exists n i,
    scale (length units) q 0 = (n, i)
    /\ (i <= 4)%nat
    /\ (n * inject_Z (1024 ^ Z.of_nat i) == q)%Q
    /\ (forall j, (j < i)%nat -> (inject_Z (1024 ^ Z.of_nat (S j)) <= q)%Q)
    /\ (i = 4%nat \/ (n < 1024)%Q).
Proof.
  cbn [length units scale Nat.ltb Nat.leb Nat.sub andb].
  destruct (Qle_bool 1024 q) eqn:E0; cbn [andb];
    [apply Qle_bool_iff in E0 | apply Qle_bool_false in E0].
  2:{ exists q, 0%nat. scale_arith. }
  destruct (Qle_bool 1024 (q / 1024)) eqn:E1; cbn [andb];
    [apply Qle_bool_iff in E1 | apply Qle_bool_false in E1].
  2:{ exists (q / 1024)%Q, 1%nat. scale_arith. }
  destruct (Qle_bool 1024 (q / 1024 / 1024)) eqn:E2; cbn [andb];
    [apply Qle_bool_iff in E2 | apply Qle_bool_false in E2].
  2:{ exists (q / 1024 / 1024)%Q, 2%nat. scale_arith. }
  destruct (Qle_bool 1024 (q / 1024 / 1024 / 1024)) eqn:E3; cbn [andb];
    [apply Qle_bool_iff in E3 | apply Qle_bool_false in E3].
  2:{ exists (q / 1024 / 1024 / 1024)%Q, 3%nat. scale_arith. }
  rewrite andb_false_r.
  exists (q / 1024 / 1024 / 1024 / 1024)%Q, 4%nat. scale_arith.
Qed.

(** C7, the digit rule as the specification words it fails: the code
    gives 1024 bytes two decimal places at the KB scale, the wording
    ("1 decimal place below 10 of a unit") one. *)
Lemma formatBytes_wording_fails :
  fixedDigits 1 1 = 2%nat
  /\ fixedDigits_as_worded 1 1 = 1%nat
  /\ @formatBytes Demo.runtime (Fin 1024) = "1.00 KB"
  /\ @formatBytes_as_worded Demo.runtime (Fin 1024) = "1.0 KB"
  /\ @formatBytes Demo.runtime (Fin 1024) <> @formatBytes_as_worded Demo.runtime (Fin 1024).
Proof. repeat split; try reflexivity. vm_compute. discriminate. Qed.

(** C7, amended.  [formatBytes] renders every non-finite or non-positive
    input as "0 B".  A positive input [q] is divided by 1024 while the
    value is at least 1024 and a larger unit remains (B, KB, MB, GB, TB),
    say [i] times, leaving [n]; the result is [n.toFixed(d)], a space and
    the unit, where [d] is 0 at the B scale, 1 when [n >= 10] and 2 when
    [n < 10]; below 10^21 a positive [d] is the number of digits after
    the point.  In particular [formatBytes(0) = "0 B"],
    [formatBytes(1024) = "1.00 KB"], [formatBytes(1536) = "1.50 KB"],
    [formatBytes(10*1024) = "10.0 KB"]. *)
Theorem formatBytes_rule :
  (forall b, isFinite b = false \/ nonPositive b = true -> formatBytes b = "0 B")
  /\ (forall q, (0 < q)%Q ->
        exists n i,
          formatBytes (Fin q) = toFixed n (fixedDigits n i) +:+ " " +:+ unitAt i
          /\ (i <= 4)%nat
          /\ (n * inject_Z (1024 ^ Z.of_nat i) == q)%Q
          /\ (forall j, (j < i)%nat -> (inject_Z (1024 ^ Z.of_nat (S j)) <= q)%Q)
          /\ (i = 4%nat \/ (n < 1024)%Q)
          /\ (i = 0%nat -> fixedDigits n i = 0%nat)
          /\ ((0 < i)%nat -> (10 <= n)%Q -> fixedDigits n i = 1%nat)
          /\ ((0 < i)%nat -> (n < 10)%Q -> fixedDigits n i = 2%nat)
          /\ ((n < inject_Z (10 ^ 21))%Q -> (0 < fixedDigits n i)%nat ->
              exists a b, toFixed n (fixedDigits n i) = a +:+ "." +:+ b
                          /\ String.length b = fixedDigits n i))
  /\ formatBytes (Fin 0) = "0 B"
  /\ formatBytes (Fin 1024) = "1.00 KB"
  /\ formatBytes (Fin 1536) = "1.50 KB"
  /\ formatBytes (Fin (10 * 1024)) = "10.0 KB".
Proof.
  split; [|split; [|repeat split; vm_compute; reflexivity]].
  - intros b [Hb|Hb]; unfold formatBytes; rewrite Hb; [reflexivity|].
    now rewrite orb_true_r.
  - intros q Hq.
    destruct (scale_units q) as (n & i & Hscale & Hi & Hn & Hsteps & Hstop).
    exists n, i.
    assert (Hnpos : (0 < n)%Q).
    { destruct (Qlt_le_dec 0 n) as [|Hle]; [assumption|exfalso].
      assert (0 < inject_Z (1024 ^ Z.of_nat i))%Q.
      { change 0%Q with (inject_Z 0). rewrite <- Zlt_Qlt. apply Z.pow_pos_nonneg; lia. }
      assert (n * inject_Z (1024 ^ Z.of_nat i) <= 0)%Q; [|lra].
      rewrite <- (Qmult_0_l (inject_Z (1024 ^ Z.of_nat i))).
      apply Qmult_le_compat_r; [assumption|]. now apply Qlt_le_weak. }
    repeat split; try assumption.
    + unfold formatBytes. cbn [isFinite negb orb nonPositive].
      destruct (Qle_bool q 0) eqn:E.
      * apply Qle_bool_iff in E. lra.
      * now rewrite Hscale.
    + intros ->. reflexivity.
    + intros Hipos Hten. unfold fixedDigits.
      destruct i; [lia|]. cbn [Nat.eqb].
      apply Qle_bool_iff in Hten. now rewrite Hten.
    + intros Hipos Hten. unfold fixedDigits.
      destruct i; [lia|]. cbn [Nat.eqb].
      destruct (Qle_bool 10 n) eqn:E; [|reflexivity].
      apply Qle_bool_iff in E. lra.
    + intros Hsmall Hd. apply toFixed_places; [|assumption].
      destruct (Qle_bool (inject_Z (10 ^ 21)) (Qabs n)) eqn:E; [|reflexivity].
      apply Qle_bool_iff in E. rewrite Qabs_pos in E by now apply Qlt_le_weak.
      lra.
Qed.

End FormatBytesFacts.

Lemma formatBytes_rule_witness :
  (0 < 1536)%Q
  /\ exists n i,
       @formatBytes Demo.runtime (Fin 1536)
         = @toFixed Demo.runtime n (fixedDigits n i) +:+ " " +:+ unitAt i
       /\ (i <= 4)%nat
       /\ (n * inject_Z (1024 ^ Z.of_nat i) == 1536)%Q.
Proof.
  split; [reflexivity|].
  destruct (proj1 (proj2 (@formatBytes_rule Demo.runtime)) 1536%Q eq_refl)
    as (n & i & H1 & H2 & H3 & _).
  exists n, i. repeat split; assumption.
Defined.


(** ** The cover resolver *)

Section CoverFacts.
Context {rt : Runtime} (O : oracle) (env : EnvConfig).

Local Abbreviation ttl := (REMOTE_COVER_TTL_DAYS env).

#[local] Arguments mkdirs : simpl never.
#[local] Arguments ancestors : simpl never.
#[local] Arguments prune : simpl never.

Lemma logged_nil w : logged w [] = w.
Proof. destruct w; unfold logged; simpl. now rewrite app_nil_r. Qed.

(** Lookups after [prune] and [mkdirs]. *)
Lemma lookup_prune gone (files : gmap string file) q :
  prune gone files !! q = if gone q then None else files !! q.
Proof.
  unfold prune. rewrite map_lookup_imap.
  destruct (files !! q) as [f|]; cbn; destruct (gone q); reflexivity.
Qed.

Lemma lookup_mkdirs_Some dirs (files : gmap string file) q f :
  files !! q = Some f -> mkdirs O dirs files !! q = Some f.
Proof.
  intros Hq. induction dirs as [|d dirs IH]; [exact Hq|].
  change (mkdirs O (d :: dirs) files) with (mkdir O d (mkdirs O dirs files)). unfold mkdir.
  destruct (mkdirs O dirs files !! d) eqn:Hd; [exact IH|].
  rewrite lookup_insert_ne; [exact IH|]. intros <-. congruence.
Qed.

Lemma lookup_mkdirs_is_Some dirs (files : gmap string file) q :
  is_Some (files !! q) -> is_Some (mkdirs O dirs files !! q).
Proof. intros (f & Hf). exists f. now apply lookup_mkdirs_Some. Qed.

(** A cache variant does not lie below another one: an extension holds
    no slash. *)
Lemma startsWith_slash_free (x y : string) :
  allUnits (isNot "/") y = true -> startsWith (x +:+ "/") y = false.
Proof.
  revert y. induction x as [|c x IH]; intros [|d y] Hy; try reflexivity.
  - change (EmptyString +:+ "/") with "/". cbn [startsWith].
    cbn [allUnits] in Hy. apply andb_true_iff in Hy as [Hd _].
    unfold isNot in Hd. apply negb_true_iff in Hd. now rewrite Ascii.eqb_sym, Hd.
  - change (String c x +:+ "/") with (String c (x +:+ "/")). cbn [startsWith].
    cbn [allUnits] in Hy. apply andb_true_iff in Hy as [_ Hy].
    rewrite (IH y Hy). apply andb_false_r.
Qed.

Lemma below_variant (base x y : string) :
  allUnits (isNot "/") y = true -> below (base +:+ x) (base +:+ y) = false.
Proof.
  intros Hy. unfold below. induction base as [|c base IH].
  - change (EmptyString +:+ x) with x. change (EmptyString +:+ y) with y.
    now apply startsWith_slash_free.
  - change ((String c base +:+ x) +:+ "/") with (String c ((base +:+ x) +:+ "/")).
    change (String c base +:+ y) with (String c (base +:+ y)).
    cbn [startsWith]. rewrite Ascii.eqb_refl. exact IH.
Qed.

Lemma coverExts_slash_free e : In e coverExts -> allUnits (isNot "/") e = true.
Proof. intros He. repeat (destruct He as [<-|He]; [reflexivity|]). destruct He. Qed.

Lemma logged_logged w a b : logged (logged w a) b = logged w (a ++ b).
Proof. unfold logged; simpl. now rewrite app_assoc. Qed.

Lemma pathExists_run p w :
  pathExists p w
  = (Ok (match fs w !! p with Some _ => true | None => false end), logged w [EvPathExists p]).
Proof. reflexivity. Qed.

Lemma isFresh_run p w :
  isFresh O p ttl w = (Ok (freshHit O ttl (fs w) p), logged w [EvStat p]).
Proof.
  cbv [isFresh try_catch bind stat emit freshHit ret logged fs log].
  destruct w as [files evs].
  destruct (stat_fails O p); simpl; now destruct (files !! p).
Qed.

Lemma probeCache_run baseNoExt baseName exts w :
  probeCache O env baseNoExt baseName exts w
  = (Ok (option_map (hitResult baseNoExt baseName)
           (find (fun ext => freshHit O ttl (fs w) (baseNoExt +:+ ext)) exts)),
     logged w (probeTrace O ttl (fs w) baseNoExt exts)).
Proof.
  revert w. induction exts as [|ext rest IH]; intros w.
  - simpl. unfold ret. now rewrite logged_nil.
  - cbn [probeCache find probeTrace].
    unfold bind at 1. rewrite pathExists_run.
    destruct (fs w !! (baseNoExt +:+ ext)) as [f|] eqn:Hf.
    + unfold bind at 1. rewrite isFresh_run. cbn [fs logged].
      destruct (freshHit O ttl (fs w) (baseNoExt +:+ ext)) eqn:Hfresh.
      * unfold ret. rewrite logged_logged. reflexivity.
      * rewrite IH. cbn [fs logged]. rewrite !logged_logged. reflexivity.
    + unfold bind at 1, ret at 1.
      assert (Hfresh : freshHit O ttl (fs w) (baseNoExt +:+ ext) = false)
        by (unfold freshHit; now rewrite Hf).
      rewrite Hfresh, IH. cbn [fs logged]. rewrite !logged_logged. reflexivity.
Qed.

Lemma freshAge_interval (T a : Q) :
  freshAge (Fin T) a = true <-> (0 <= a /\ a < T * 86400000)%Q.
Proof.
  unfold freshAge, mulConst, ltNumber, Qlt_bool.
  rewrite andb_true_iff, negb_true_iff, Qle_bool_iff.
  split; intros [H0 H1]; split; try assumption.
  - apply Qle_bool_false in H1. lra.
  - destruct (Qle_bool (T * 24 * 60 * 60 * 1000) a) eqn:E; [|reflexivity].
    apply Qle_bool_iff in E. lra.
Qed.

Lemma freshHit_iff (ttlDays : number) (files : gmap string file) (p : string) :
  freshHit O ttlDays files p = true
  <-> exists f, files !! p = Some f
                /\ stat_fails O p = false
                /\ freshAge ttlDays (now O - mtimeMs f) = true.
Proof.
  unfold freshHit. destruct (files !! p) as [f|].
  - rewrite andb_true_iff, negb_true_iff. split.
    + intros [? ?]. now exists f.
    + intros (f' & [= <-] & ? & ?). now split.
  - split; [discriminate|]. now intros (f & [=] & _).
Qed.

Lemma probeTrace_targets ttlDays files baseNoExt exts ev :
  In ev (probeTrace O ttlDays files baseNoExt exts) ->
  exists e, In e exts /\ eventTarget ev = baseNoExt +:+ e.
Proof.
  induction exts as [|ext rest IH]; [intros []|].
  cbn [probeTrace]. intros [<-|H]; [exists ext; split; [now left|reflexivity]|].
  apply in_app_or in H as [H|H].
  - exists ext. split; [now left|].
    destruct (files !! (baseNoExt +:+ ext)); [|destruct H].
    destruct H as [<-|[]]. reflexivity.
  - destruct (freshHit O ttlDays files (baseNoExt +:+ ext)); [destruct H|].
    destruct (IH H) as (e & He & Ht). exists e. split; [now right|assumption].
Qed.

Lemma find_first_hit {A} (f : A -> bool) (before : list A) (x : A) (after : list A) :
  (forall y, In y before -> f y = false) -> f x = true ->
  find f (before ++ x :: after) = Some x.
Proof.
  intros Hb Hx. induction before as [|b before IH]; simpl.
  - now rewrite Hx.
  - rewrite (Hb b) by now left. apply IH. intros y Hy. apply Hb. now right.
Qed.

Lemma probeTrace_first_hit ttlDays files baseNoExt before ext after :
  (forall e, In e before -> freshHit O ttlDays files (baseNoExt +:+ e) = false) ->
  freshHit O ttlDays files (baseNoExt +:+ ext) = true ->
  probeTrace O ttlDays files baseNoExt (before ++ ext :: after)
  = probeTrace O ttlDays files baseNoExt (before ++ [ext]).
Proof.
  intros Hb Hx. induction before as [|b before IH]; cbn [app probeTrace].
  - now rewrite Hx.
  - rewrite (Hb b) by now left. do 2 f_equal. apply IH.
    intros e He. apply Hb. now right.
Qed.

Lemma coverExts_NoDup : NoDup coverExts.
Proof. apply (bool_decide_unpack _). vm_compute. exact I. Qed.

Lemma resolve_enabled source w :
  REMOTE_COVER_ENABLED env = true ->
  REMOTE_COVER_PROVIDER env = ProviderItunes ->
  resolveCoverForSource O env source w
  = (hit <- probeCache O env (path_join coversDir (dirName source)) (dirName source) coverExts ;;
     match hit with
     | Some r => ret r
     | None => artworkUrl <- findArtworkUrl O env source ;; storeArtwork O env source artworkUrl
     end) w.
Proof. intros He Hp. unfold resolveCoverForSource. now rewrite He, Hp. Qed.

(** C2. For every TTL [T] (days) and age [a] (milliseconds) the age is
    fresh iff [0 <= a < T * 86400000] (with a TTL that is not a number,
    never); [isFresh] answers with that test on [now - mtime] of the file,
    and with false when the file cannot be statted; and the probe of an enabled resolver tries [.jpg], [.png],
    [.webp] in this order and returns the route and path of the first
    fresh hit, without a call about the extensions after it. *)
Theorem cache_freshness_and_probe_order
    (T a : Q) (p : string) (source : PodcastSource) (w : world)
    (before : list string) (ext : string) (after : list string) :
  let base := path_join coversDir (dirName source) in
  (freshAge (Fin T) a = true <-> (0 <= a /\ a < T * 86400000)%Q)
  /\ freshAge NaN a = false
  /\ isFresh O p ttl w = (Ok (freshHit O ttl (fs w) p), logged w [EvStat p])
  /\ (freshHit O ttl (fs w) p = true
      <-> exists f, fs w !! p = Some f /\ stat_fails O p = false
                    /\ freshAge ttl (now O - mtimeMs f) = true)
  /\ coverExts = [".jpg"; ".png"; ".webp"]
  /\ (REMOTE_COVER_ENABLED env = true ->
      REMOTE_COVER_PROVIDER env = ProviderItunes ->
      coverExts = (before ++ ext :: after)%list ->
      (forall e, In e before -> freshHit O ttl (fs w) (base +:+ e) = false) ->
      freshHit O ttl (fs w) (base +:+ ext) = true ->
      resolveCoverForSource O env source w
      = (Ok {| res_coverUrl := Some (toCoverRoute (dirName source +:+ ext));
               res_coverCachePath := Some (base +:+ ext) |},
         logged w (probeTrace O ttl (fs w) base (before ++ [ext])))
      /\ forall e ev, In e after ->
                      In ev (probeTrace O ttl (fs w) base (before ++ [ext])) ->
                      eventTarget ev <> base +:+ e).
Proof.
  cbv zeta. split; [apply freshAge_interval|].
  split; [apply andb_false_r|].
  split; [apply isFresh_run|]. split; [apply freshHit_iff|]. split; [reflexivity|].
  intros Hen Hprov Hexts Hbefore Hext. split.
  - rewrite resolve_enabled by assumption.
    unfold bind at 1. rewrite probeCache_run, Hexts.
    rewrite (find_first_hit _ before ext after Hbefore Hext).
    rewrite (probeTrace_first_hit _ _ _ before ext after Hbefore Hext).
    reflexivity.
  - intros e ev He Hev Heq.
    apply probeTrace_targets in Hev as (e' & He' & Ht).
    rewrite Ht in Heq. apply (inj (String.app _)) in Heq. subst e'.
    pose proof coverExts_NoDup as Hnd. rewrite Hexts in Hnd.
    change (before ++ ext :: after)%list with (before ++ [ext] ++ after)%list in Hnd.
    rewrite app_assoc in Hnd. apply NoDup_app in Hnd as (_ & Hdisj & _).
    apply (Hdisj e); now apply list_elem_of_In.
Qed.

Lemma find_no_hit {A} (f : A -> bool) (l : list A) :
  (forall y, In y l -> f y = false) -> find f l = None.
Proof.
  intros H. induction l as [|x l IH]; simpl; [reflexivity|].
  rewrite (H x) by now left. apply IH. intros y Hy. apply H. now right.
Qed.

Lemma fetch_run url accept w :
  fetch O url accept w
  = (match fetch_result O url accept with Some res => Ok res | None => Throw end,
     logged w [EvFetch url accept]).
Proof. cbv [fetch bind emit ret throw logged]. now destruct (fetch_result O url accept). Qed.

(** [itunesSearchArtwork] makes one call, the search, and never throws. *)
Lemma itunesSearchArtwork_run term country timeoutMs :
  exists v, forall w,
    itunesSearchArtwork O term country timeoutMs w
    = (Ok v, logged w [EvFetch (searchUrl term country) (Some "application/json")]).
Proof.
  unfold itunesSearchArtwork, searchUrl.
  set (url := "https://itunes.apple.com/search?" +:+ _).
  destruct (fetch_result O url (Some "application/json")) as [res|] eqn:Hres.
  2:{ exists JNull. intros w. unfold try_catch, bind at 1. rewrite fetch_run, Hres. reflexivity. }
  destruct (ok res) eqn:Hok.
  2:{ exists JNull. intros w. unfold try_catch, bind at 1. rewrite fetch_run, Hres, Hok. reflexivity. }
  destruct (jsonBody res) as [j|] eqn:Hj.
  2:{ exists JNull. intros w. unfold try_catch, bind at 1. rewrite fetch_run, Hres, Hok, Hj. reflexivity. }
  destruct (match getProp j "results" with JArr items => items | _ => [] end) as [|r0 r] eqn:Hr.
  { exists JNull. intros w. unfold try_catch, bind at 1. rewrite fetch_run, Hres, Hok, Hj.
    cbn [negb]. rewrite Hr. reflexivity. }
  eexists. intros w. unfold try_catch, bind at 1. rewrite fetch_run, Hres, Hok, Hj.
  cbn [negb]. rewrite Hr. reflexivity.
Qed.

(** [findArtworkUrl] never throws and leaves the files alone; what it
    returns and the calls it makes do not depend on the world. *)
Lemma findArtworkUrl_run source :
  exists v evs, forall w, findArtworkUrl O env source w = (Ok v, logged w evs).
Proof.
  unfold findArtworkUrl.
  destruct (truthy (directUrlOf source)).
  { exists (JStr (directUrlOf source)), []. intros w. now rewrite logged_nil. }
  destruct (truthy (searchTermOf source)).
  - destruct (itunesSearchArtwork_run (searchTermOf source) (REMOTE_COVER_COUNTRY env)
                (REMOTE_COVER_TIMEOUT_MS env)) as (v & Hv).
    exists v. eexists. exact Hv.
  - exists JNull, []. intros w. now rewrite logged_nil.
Qed.

Lemma downloadToFile_ok url path timeoutMs res buf w :
  fetch_result O url None = Some res -> ok res = true -> arrayBuffer res = Some buf ->
  ensureDir_fails O (path_dirname path) = false -> writeFile_fails O path = false ->
  downloadToFile O url path timeoutMs w
  = (Ok tt, {| fs := <[ path := writtenFile O buf ]>
                       (mkdirs O (ancestors (S (String.length (path_dirname path)))
                                    (path_dirname path)) (fs w));
               log := log w ++ [EvFetch url None; EvEnsureDir (path_dirname path);
                                EvWriteFile path] |}).
Proof.
  intros Hres Hok Hbuf Hdir Hwr.
  unfold downloadToFile, bind at 1. rewrite fetch_run, Hres, Hok, Hbuf.
  cbv [negb bind ensureDir writeFile emit ret logged fs log].
  rewrite Hdir, Hwr. cbv [ret fs log writtenFile].
  now rewrite <- !app_assoc.
Qed.

(** Whatever happens, [downloadToFile] fetches [url] first and fetches
    nothing else; and it takes no entry away: what was there at another
    path is there afterwards, as it was. *)
Lemma downloadToFile_effect url path timeoutMs w r w' :
  downloadToFile O url path timeoutMs w = (r, w') ->
  (exists evs, log w' = log w ++ EvFetch url None :: evs
               /\ Forall (fun ev => isFetchEvent ev = false) evs)
  /\ (forall q f, q <> path -> fs w !! q = Some f -> fs w' !! q = Some f).
Proof.
  unfold downloadToFile, bind at 1. rewrite fetch_run.
  destruct (fetch_result O url None) as [res|].
  2:{ intros [= <- <-]. split; [exists []; split; [reflexivity|constructor]|auto]. }
  destruct (ok res); cbn [negb].
  2:{ intros [= <- <-]. split; [exists []; split; [reflexivity|constructor]|auto]. }
  destruct (arrayBuffer res) as [buf|].
  2:{ intros [= <- <-]. split; [exists []; split; [reflexivity|constructor]|auto]. }
  cbv [bind ensureDir writeFile emit ret throw logged fs log].
  destruct (ensureDir_fails O (path_dirname path)).
  { intros [= <- <-]. cbv [fs log]. split.
    - exists [EvEnsureDir (path_dirname path)]. rewrite <- app_assoc.
      split; [reflexivity|]. repeat constructor.
    - intros q f _ Hq. now apply lookup_mkdirs_Some. }
  destruct (writeFile_fails O path).
  { intros [= <- <-]. cbv [fs log]. split.
    - exists [EvEnsureDir (path_dirname path); EvWriteFile path]. rewrite <- !app_assoc.
      split; [reflexivity|]. repeat constructor.
    - intros q f Hne Hq. destruct (writeFile_written O path).
      + rewrite lookup_insert_ne by congruence. now apply lookup_mkdirs_Some.
      + now apply lookup_mkdirs_Some. }
  intros [= <- <-]. cbv [fs log]. split.
  - exists [EvEnsureDir (path_dirname path); EvWriteFile path]. rewrite <- !app_assoc.
    split; [reflexivity|]. repeat constructor.
  - intros q f Hne Hq. rewrite lookup_insert_ne by congruence. now apply lookup_mkdirs_Some.
Qed.

Lemma remove_step p w :
  remove O p w
  = if remove_fails O p
    then (Throw, {| fs := prune (fun q => below p q && remove_done O p q) (fs w);
                    log := log w ++ [EvRemove p] |})
    else (Ok tt, {| fs := prune (fun q => String.eqb q p || below p q) (fs w);
                    log := log w ++ [EvRemove p] |}).
Proof. cbv [remove bind emit throw logged fs log]. now destruct (remove_fails O p). Qed.

(** One round of the cleanup loop on an extension other than the kept
    one. *)
Lemma cleanupVariants_step base keep ext rest w :
  String.eqb ext keep = false ->
  cleanupVariants O base keep (ext :: rest) w
  = match fs w !! (base +:+ ext) with
    | None => cleanupVariants O base keep rest (logged w [EvPathExists (base +:+ ext)])
    | Some _ =>
        if remove_fails O (base +:+ ext)
        then (Throw,
              {| fs := prune (fun q => below (base +:+ ext) q
                                       && remove_done O (base +:+ ext) q) (fs w);
                 log := log w ++ [EvPathExists (base +:+ ext); EvRemove (base +:+ ext)] |})
        else cleanupVariants O base keep rest
               {| fs := prune (fun q => String.eqb q (base +:+ ext) || below (base +:+ ext) q)
                          (fs w);
                  log := log w ++ [EvPathExists (base +:+ ext); EvRemove (base +:+ ext)] |}
    end.
Proof.
  intros Hne. cbn [cleanupVariants]. rewrite Hne.
  unfold bind at 1. rewrite pathExists_run.
  destruct (fs w !! (base +:+ ext)) as [f|].
  - unfold bind at 1. rewrite remove_step.
    destruct (remove_fails O (base +:+ ext)); cbv [logged fs log]; now rewrite <- app_assoc.
  - reflexivity.
Qed.

(** The cleanup only deletes, never the kept file, and fetches nothing. *)
Lemma cleanupVariants_effect base keep exts w r w' :
  allUnits (isNot "/") keep = true ->
  cleanupVariants O base keep exts w = (r, w') ->
  (forall p, fs w !! p = None -> fs w' !! p = None)
  /\ fs w' !! (base +:+ keep) = fs w !! (base +:+ keep)
  /\ exists evs, log w' = log w ++ evs /\ Forall (fun ev => isFetchEvent ev = false) evs.
Proof.
  intros Hslash. revert w. induction exts as [|ext rest IH]; intros w.
  - intros Hrun. apply pair_equal_spec in Hrun as [<- <-].
    repeat split; [auto|]. exists []. now rewrite app_nil_r.
  - destruct (String.eqb ext keep) eqn:Hk.
    { cbn [cleanupVariants]. rewrite Hk. apply IH. }
    rewrite cleanupVariants_step by assumption.
    assert (Hpath : String.eqb (base +:+ keep) (base +:+ ext) = false).
    { apply String.eqb_neq. intros Heq. apply (inj (String.app base)) in Heq. subst.
      now rewrite String.eqb_refl in Hk. }
    assert (Hbelow : below (base +:+ ext) (base +:+ keep) = false)
      by now apply below_variant.
    destruct (fs w !! (base +:+ ext)) as [f|] eqn:Hf.
    + destruct (remove_fails O (base +:+ ext)).
      * intros Hrun. apply pair_equal_spec in Hrun as [<- <-]. cbn [fs log].
        split; [|split].
        -- intros p Hp. rewrite lookup_prune, Hp. now destruct (_ && _).
        -- rewrite lookup_prune, Hbelow. reflexivity.
        -- eexists. split; [reflexivity|]. repeat constructor.
      * intros Hrun. apply IH in Hrun as (Hmono & Hkeep & evs & Hlog & Hev).
        cbn [fs log] in *. split; [|split].
        -- intros p Hp. apply Hmono. rewrite lookup_prune, Hp. now destruct (_ || _).
        -- rewrite Hkeep, lookup_prune, Hpath, Hbelow. reflexivity.
        -- exists ([EvPathExists (base +:+ ext); EvRemove (base +:+ ext)] ++ evs).
           rewrite Hlog, <- app_assoc. split; [reflexivity|]. repeat constructor. exact Hev.
    + intros Hrun. apply IH in Hrun as (Hmono & Hkeep & evs & Hlog & Hev).
      cbn [fs log logged] in *. repeat split; [assumption..|].
      exists (EvPathExists (base +:+ ext) :: evs).
      rewrite Hlog, <- app_assoc. split; [reflexivity|]. constructor; [reflexivity|exact Hev].
Qed.

(** A removal never brings an entry back. *)
Lemma cleanupVariants_mono base keep exts w r w' :
  cleanupVariants O base keep exts w = (r, w') ->
  forall p, fs w !! p = None -> fs w' !! p = None.
Proof.
  revert w. induction exts as [|ext rest IH]; intros w.
  - intros Hrun. apply pair_equal_spec in Hrun as [<- <-]. auto.
  - destruct (String.eqb ext keep) eqn:Hk.
    { cbn [cleanupVariants]. rewrite Hk. apply IH. }
    rewrite cleanupVariants_step by assumption.
    destruct (fs w !! (base +:+ ext)) as [f|] eqn:Hf.
    + destruct (remove_fails O (base +:+ ext)).
      * intros Hrun. apply pair_equal_spec in Hrun as [<- <-]. cbn [fs].
        intros p Hp. rewrite lookup_prune, Hp. now destruct (_ && _).
      * intros Hrun p Hp. apply (IH _ Hrun). cbn [fs].
        rewrite lookup_prune, Hp. now destruct (_ || _).
    + intros Hrun p Hp. apply (IH _ Hrun). exact Hp.
Qed.

(** A cleanup that completes leaves no file at another extension. *)
Lemma cleanupVariants_ok base keep exts w w' :
  cleanupVariants O base keep exts w = (Ok tt, w') ->
  forall e, In e exts -> e <> keep -> fs w' !! (base +:+ e) = None.
Proof.
  revert w. induction exts as [|ext rest IH]; intros w Hrun e; [intros []|].
  destruct (String.eqb ext keep) eqn:Hk.
  { cbn [cleanupVariants] in Hrun. rewrite Hk in Hrun.
    apply String.eqb_eq in Hk. subst ext.
    intros [<-|He] Hne; [congruence|]. now apply (IH w Hrun). }
  rewrite cleanupVariants_step in Hrun by assumption.
  destruct (fs w !! (base +:+ ext)) as [f|] eqn:Hf.
  - destruct (remove_fails O (base +:+ ext)); [discriminate|].
    intros [<-|He] Hne; [|now apply (IH _ Hrun)].
    apply (cleanupVariants_mono _ _ _ _ _ _ Hrun). cbn [fs].
    now rewrite lookup_prune, String.eqb_refl.
  - intros [<-|He] Hne; [|now apply (IH _ Hrun)].
    apply (cleanupVariants_mono _ _ _ _ _ _ Hrun). exact Hf.
Qed.

(** A cleanup that meets a stale file it cannot delete throws, and at
    least one stale file that cannot be deleted is still there. *)
Lemma cleanupVariants_throws base keep exts w :
  NoDup exts ->
  (forall e, In e exts -> allUnits (isNot "/") e = true) ->
  (exists e, In e exts /\ e <> keep /\ is_Some (fs w !! (base +:+ e))
             /\ remove_fails O (base +:+ e) = true) ->
  exists w',
    cleanupVariants O base keep exts w = (Throw, w')
    /\ exists e, In e exts /\ e <> keep /\ is_Some (fs w' !! (base +:+ e))
                 /\ remove_fails O (base +:+ e) = true.
Proof.
  revert w. induction exts as [|ext rest IH];
    intros w Hnd Hslash (e & He & Hne & Hsome & Hfail); [destruct He|].
  apply NoDup_cons in Hnd as [Hnotin Hnd].
  assert (Hslash' : forall e, In e rest -> allUnits (isNot "/") e = true)
    by (intros e0 He0; apply Hslash; now right).
  destruct (String.eqb ext keep) eqn:Hk.
  { cbn [cleanupVariants]. rewrite Hk. apply String.eqb_eq in Hk. subst ext.
    destruct He as [<-|He]; [congruence|].
    destruct (IH w Hnd Hslash') as (w' & Hrun & e' & He' & ?); [now exists e|].
    exists w'. split; [assumption|]. exists e'. split; [now right|assumption]. }
  rewrite cleanupVariants_step by assumption.
  assert (Hextne : ext <> keep) by (intros ->; now rewrite String.eqb_refl in Hk).
  destruct (fs w !! (base +:+ ext)) as [f|] eqn:Hf.
  - destruct (remove_fails O (base +:+ ext)) eqn:Hrf.
    + eexists. split; [reflexivity|]. exists ext. cbn [fs].
      repeat split; [now left|assumption| |assumption].
      rewrite lookup_prune, (below_variant base ext ext) by (apply Hslash; now left).
      cbn [andb]. now rewrite Hf.
    + destruct He as [<-|He]; [congruence|].
      assert (Hpath : String.eqb (base +:+ e) (base +:+ ext) = false).
      { apply String.eqb_neq. intros Heq. apply (inj (String.app base)) in Heq. subst.
        apply Hnotin. now apply list_elem_of_In. }
      destruct (IH {| fs := prune (fun q => String.eqb q (base +:+ ext)
                                            || below (base +:+ ext) q) (fs w);
                      log := log w ++ [EvPathExists (base +:+ ext); EvRemove (base +:+ ext)] |}
                  Hnd Hslash') as (w' & Hrun & e' & He' & ?).
      { exists e. cbn [fs].
        rewrite lookup_prune, Hpath, (below_variant base ext e) by (apply Hslash; now right).
        now repeat split. }
      exists w'. split; [assumption|]. exists e'. split; [now right|assumption].
  - destruct He as [<-|He]; [rewrite Hf in Hsome; now destruct Hsome|].
    destruct (IH (logged w [EvPathExists (base +:+ ext)]) Hnd Hslash')
      as (w' & Hrun & e' & He' & ?).
    { exists e. now repeat split. }
    exists w'. split; [assumption|]. exists e'. split; [now right|assumption].
Qed.

Local Abbreviation baseOf source := (path_join coversDir (dirName source)).

(** Without a fresh hit, an enabled resolver probes the three
    extensions, looks for an artwork URL and stores what it finds. *)
Lemma resolve_no_hit source w v evs :
  REMOTE_COVER_ENABLED env = true ->
  REMOTE_COVER_PROVIDER env = ProviderItunes ->
  noFreshHit O env source w ->
  (forall w0, findArtworkUrl O env source w0 = (Ok v, logged w0 evs)) ->
  resolveCoverForSource O env source w
  = storeArtwork O env source v
      (logged w (probeTrace O ttl (fs w) (baseOf source) coverExts ++ evs)).
Proof.
  intros Hen Hprov Hno Hv.
  rewrite resolve_enabled by assumption.
  unfold bind at 1. rewrite probeCache_run.
  rewrite find_no_hit by exact Hno. cbn [option_map].
  unfold bind at 1. rewrite Hv, logged_logged. reflexivity.
Qed.

(** What [storeArtwork] does with a non-empty URL string, case by case on
    the download. *)
Lemma storeArtwork_string source url w :
  truthy url = true ->
  storeArtwork O env source (JStr url) w
  = let ext := guessExtFromUrl url in
    match downloadToFile O url (baseOf source +:+ ext) (REMOTE_COVER_TIMEOUT_MS env) w with
    | (Throw, w1) => (Ok emptyResult, w1)
    | (Ok _, w1) =>
        match cleanupOldVariants O (baseOf source) ext w1 with
        | (Throw, w2) => (Ok emptyResult, w2)
        | (Ok _, w2) => (Ok (hitResult (baseOf source) (dirName source) ext), w2)
        end
    end.
Proof.
  intros Hurl. unfold storeArtwork. cbn [jsTruthy negb guessExtOf urlOf]. rewrite Hurl.
  cbn [negb]. unfold bind at 1, ret at 1. cbv zeta.
  unfold try_catch, bind at 1.
  destruct (downloadToFile O url _ _ w) as [[[]|] w1]; [|reflexivity].
  unfold bind at 1.
  destruct (cleanupOldVariants O _ _ w1) as [[[]|] w2]; reflexivity.
Qed.

Lemma guessExtFromUrl_cover url : In (guessExtFromUrl url) coverExts.
Proof.
  unfold guessExtFromUrl, coverExts.
  repeat match goal with |- context [if ?b then _ else _] => destruct b end;
    simpl; auto.
Qed.

Lemma downloadToFile_written url path timeoutMs w w' :
  downloadToFile O url path timeoutMs w = (Ok tt, w') ->
  exists buf,
    fs w' = <[ path := writtenFile O buf ]>
              (mkdirs O (ancestors (S (String.length (path_dirname path))) (path_dirname path))
                 (fs w)).
Proof.
  unfold downloadToFile, bind at 1. rewrite fetch_run.
  destruct (fetch_result O url None) as [res|]; [|discriminate].
  destruct (ok res); cbn [negb]; [|discriminate].
  destruct (arrayBuffer res) as [buf|]; [|discriminate].
  cbv [bind ensureDir writeFile emit ret throw logged fs log].
  destruct (ensureDir_fails O (path_dirname path)); [discriminate|].
  destruct (writeFile_fails O path); [discriminate|].
  intros Hrun. apply (f_equal snd) in Hrun. cbn [snd] in Hrun. subst w'.
  now exists buf.
Qed.

(** C1, amended.  When a resolution goes through the download (no fresh
    cache hit) and returns a cover, the file it wrote is in the cache and
    no file of the same source is left at another of the three
    extensions.  (A run whose download and write succeed and whose cleanup
    fails returns the empty result and is not such a run.) *)
Theorem at_most_one_cached_cover (source : PodcastSource) (w w' : world) (r : coverResult) :
  noFreshHit O env source w ->
  resolveCoverForSource O env source w = (Ok r, w') ->
  r <> emptyResult ->
  exists ext,
    In ext coverExts
    /\ r = {| res_coverUrl := Some (toCoverRoute (dirName source +:+ ext));
              res_coverCachePath := Some (path_join coversDir (dirName source) +:+ ext) |}
    /\ is_Some (fs w' !! (path_join coversDir (dirName source) +:+ ext))
    /\ forall e, In e coverExts ->
                 is_Some (fs w' !! (path_join coversDir (dirName source) +:+ e)) ->
                 e = ext.
Proof.
  intros Hno Hrun Hr.
  destruct (REMOTE_COVER_ENABLED env) eqn:Hen.
  2:{ unfold resolveCoverForSource in Hrun. rewrite Hen in Hrun.
      injection Hrun as <- _. congruence. }
  destruct (REMOTE_COVER_PROVIDER env) eqn:Hprov.
  { unfold resolveCoverForSource in Hrun. rewrite Hen, Hprov in Hrun.
    injection Hrun as <- _. congruence. }
  destruct (findArtworkUrl_run source) as (v & evs & Hv).
  rewrite (resolve_no_hit source w v evs Hen Hprov Hno Hv) in Hrun.
  destruct (jsTruthy v) eqn:Htruthy.
  2:{ unfold storeArtwork in Hrun. rewrite Htruthy in Hrun.
      injection Hrun as <- _. congruence. }
  destruct v as [| b | q | url | items | fields];
    try (unfold storeArtwork in Hrun; rewrite Htruthy in Hrun; discriminate Hrun).
  rewrite storeArtwork_string in Hrun by exact Htruthy. cbv zeta in Hrun.
  set (ext := guessExtFromUrl url) in *.
  destruct (downloadToFile O url _ _ _) as [[[]|] w1] eqn:Hdl;
    [|injection Hrun as <- _; congruence].
  destruct (cleanupOldVariants O _ _ w1) as [[[]|] w2] eqn:Hcl;
    [|injection Hrun as <- _; congruence].
  injection Hrun as <- <-.
  apply downloadToFile_written in Hdl as (buf & Hfs).
  assert (Hslash : allUnits (isNot "/") ext = true)
    by apply coverExts_slash_free, guessExtFromUrl_cover.
  pose proof (cleanupVariants_effect _ _ _ _ _ _ Hslash Hcl) as (_ & Hkeep & _).
  exists ext. split; [apply guessExtFromUrl_cover|]. split; [reflexivity|]. split.
  - rewrite Hkeep, Hfs. rewrite lookup_insert_eq. now eexists.
  - intros e He Hsome. destruct (decide (e = ext)) as [|Hne]; [assumption|].
    rewrite (cleanupVariants_ok _ _ _ _ _ Hcl e He Hne) in Hsome. now destruct Hsome.
Qed.

(** A cleanup that can delete every stale file it meets completes. *)
Lemma cleanupVariants_completes base keep exts w :
  (forall e, In e exts -> e <> keep -> remove_fails O (base +:+ e) = false) ->
  exists w', cleanupVariants O base keep exts w = (Ok tt, w').
Proof.
  revert w. induction exts as [|ext rest IH]; intros w Hrm; [now eexists|].
  destruct (String.eqb ext keep) eqn:Hk.
  { cbn [cleanupVariants]. rewrite Hk. apply IH. intros e He. apply Hrm. now right. }
  rewrite cleanupVariants_step by assumption.
  assert (Hne : ext <> keep) by (intros ->; now rewrite String.eqb_refl in Hk).
  rewrite (Hrm ext) by (assumption || now left).
  destruct (fs w !! (base +:+ ext)); apply IH; intros e He; apply Hrm; now right.
Qed.

(** The regular case of the download path: the download and the write
    succeed, the stale variants can be deleted, and the resolver returns
    the route and the path of the new file. *)
Lemma resolve_stores_cover (source : PodcastSource) (w : world) (url : string) :
  REMOTE_COVER_ENABLED env = true ->
  REMOTE_COVER_PROVIDER env = ProviderItunes ->
  noFreshHit O env source w ->
  fst (findArtworkUrl O env source w) = Ok (JStr url) ->
  truthy url = true ->
  downloadSucceeds O url (path_join coversDir (dirName source) +:+ guessExtFromUrl url) ->
  (forall e, In e coverExts -> e <> guessExtFromUrl url ->
             remove_fails O (path_join coversDir (dirName source) +:+ e) = false) ->
  exists w',
    resolveCoverForSource O env source w
    = (Ok (hitResult (path_join coversDir (dirName source)) (dirName source)
             (guessExtFromUrl url)), w').
Proof.
  intros Hen Hprov Hno Hart Hurl (res & buf & Hres & Hok & Hbuf & Hdir & Hwr) Hrm.
  destruct (findArtworkUrl_run source) as (v & evs & Hv).
  rewrite Hv in Hart. cbn [fst] in Hart. injection Hart as ->.
  rewrite (resolve_no_hit source w _ evs Hen Hprov Hno Hv).
  rewrite storeArtwork_string by exact Hurl. cbv zeta.
  rewrite (downloadToFile_ok _ _ _ res buf) by assumption.
  unfold cleanupOldVariants.
  match goal with
  | |- context [cleanupVariants O ?base ?keep coverExts ?w1] =>
      destruct (cleanupVariants_completes base keep coverExts w1 Hrm) as (w2 & ->)
  end.
  now exists w2.
Qed.

(** C3, amended.  When the download and the cache write succeed and a
    stale variant that exists cannot be deleted, the failure ends the
    cleanup and is caught in [resolveCoverForSource]: the result is the
    empty one, nothing is thrown to the caller, and the new file and a
    stale variant are both in the cache. *)
Theorem failed_delete_is_absorbed (source : PodcastSource) (w : world)
    (url stale : string) :
  REMOTE_COVER_ENABLED env = true ->
  REMOTE_COVER_PROVIDER env = ProviderItunes ->
  noFreshHit O env source w ->
  fst (findArtworkUrl O env source w) = Ok (JStr url) ->
  truthy url = true ->
  downloadSucceeds O url (path_join coversDir (dirName source) +:+ guessExtFromUrl url) ->
  In stale coverExts ->
  stale <> guessExtFromUrl url ->
  is_Some (fs w !! (path_join coversDir (dirName source) +:+ stale)) ->
  remove_fails O (path_join coversDir (dirName source) +:+ stale) = true ->
  exists w',
    resolveCoverForSource O env source w = (Ok emptyResult, w')
    /\ is_Some (fs w' !! (path_join coversDir (dirName source) +:+ guessExtFromUrl url))
    /\ exists e, In e coverExts /\ e <> guessExtFromUrl url
                 /\ is_Some (fs w' !! (path_join coversDir (dirName source) +:+ e)).
Proof.
  intros Hen Hprov Hno Hart Hurl (res & buf & Hres & Hok & Hbuf & Hdir & Hwr)
    Hstale Hne Hsome Hfail.
  destruct (findArtworkUrl_run source) as (v & evs & Hv).
  rewrite Hv in Hart. cbn [fst] in Hart. injection Hart as ->.
  rewrite (resolve_no_hit source w _ evs Hen Hprov Hno Hv).
  rewrite storeArtwork_string by exact Hurl. cbv zeta.
  rewrite (downloadToFile_ok _ _ _ res buf) by assumption.
  set (base := path_join coversDir (dirName source)) in *.
  set (ext := guessExtFromUrl url) in *.
  set (w1 := {| fs := <[ base +:+ ext := writtenFile O buf ]> _; log := _ |}).
  assert (Hpath : base +:+ ext <> base +:+ stale).
  { intros Heq. apply (inj (String.app base)) in Heq. congruence. }
  destruct (cleanupVariants_throws base ext coverExts w1 coverExts_NoDup coverExts_slash_free)
    as (w2 & Hcl & e & He & Hene & Hesome & _).
  { exists stale. repeat split; try assumption.
    unfold w1. cbn [fs logged]. rewrite lookup_insert_ne by assumption.
    now apply lookup_mkdirs_is_Some. }
  unfold cleanupOldVariants. rewrite Hcl.
  exists w2. split; [reflexivity|].
  assert (Hslash : allUnits (isNot "/") ext = true)
    by apply coverExts_slash_free, guessExtFromUrl_cover.
  pose proof (cleanupVariants_effect _ _ _ _ _ _ Hslash Hcl) as (_ & Hkeep & _).
  split.
  - rewrite Hkeep. unfold w1. cbn [fs]. rewrite lookup_insert_eq. now eexists.
  - exists e. now repeat split.
Qed.

(** Outside the one case of a truthy artwork value that is not a string,
    [resolveCoverForSource] returns: no failure of a collaborator makes it
    throw. *)
Lemma resolve_returns_on_string_artwork (source : PodcastSource) (w : world) :
  (forall v, fst (findArtworkUrl O env source w) = Ok v -> jsTruthy v = true ->
             exists url, v = JStr url) ->
  exists r w', resolveCoverForSource O env source w = (Ok r, w').
Proof.
  intros Hstr.
  destruct (REMOTE_COVER_ENABLED env) eqn:Hen.
  2:{ unfold resolveCoverForSource. rewrite Hen. now eexists _, _. }
  destruct (REMOTE_COVER_PROVIDER env) eqn:Hprov.
  { unfold resolveCoverForSource. rewrite Hen, Hprov. now eexists _, _. }
  rewrite resolve_enabled by assumption.
  unfold bind at 1. rewrite probeCache_run.
  destruct (find _ coverExts) as [ext|]; cbn [option_map]; [now eexists _, _|].
  destruct (findArtworkUrl_run source) as (v & evs & Hv).
  unfold bind at 1. rewrite Hv.
  destruct (jsTruthy v) eqn:Htruthy.
  2:{ unfold storeArtwork. rewrite Htruthy. now eexists _, _. }
  destruct (Hstr v) as (url & ->); [now rewrite Hv|assumption|].
  rewrite storeArtwork_string by exact Htruthy. cbv zeta.
  destruct (downloadToFile O url _ _ _) as [[[]|] w1]; [|now eexists _, _].
  destruct (cleanupOldVariants O _ _ w1) as [[[]|] w2]; now eexists _, _.
Qed.

Lemma probeTrace_no_fetch ttlDays files baseNoExt exts :
  Forall (fun ev => isFetchEvent ev = false) (probeTrace O ttlDays files baseNoExt exts).
Proof.
  induction exts as [|ext rest IH]; cbn [probeTrace]; [constructor|].
  constructor; [reflexivity|]. apply Forall_app. split.
  - destruct (files !! (baseNoExt +:+ ext)); repeat constructor.
  - destruct (freshHit O ttlDays files (baseNoExt +:+ ext)); [constructor|exact IH].
Qed.

(** Storing a non-empty URL string never throws; it fetches that URL, and
    nothing else. *)
Lemma storeArtwork_string_log source url w :
  truthy url = true ->
  exists r w' evs,
    storeArtwork O env source (JStr url) w = (Ok r, w')
    /\ log w' = log w ++ EvFetch url None :: evs
    /\ Forall (fun ev => isFetchEvent ev = false) evs.
Proof.
  intros Hurl. rewrite storeArtwork_string by exact Hurl. cbv zeta.
  destruct (downloadToFile O url _ _ w) as [[[]|] w1] eqn:Hdl;
    apply downloadToFile_effect in Hdl as ((evs & Hlog & Hev) & _).
  2:{ now exists emptyResult, w1, evs. }
  destruct (cleanupOldVariants O _ _ w1) as [[[]|] w2] eqn:Hcl;
    apply cleanupVariants_effect in Hcl as (_ & _ & evs' & Hlog' & Hev');
    try apply coverExts_slash_free, guessExtFromUrl_cover.
  - eexists _, w2, (evs ++ evs'). split; [reflexivity|].
    rewrite Hlog', Hlog, <- app_assoc. split; [reflexivity|]. now apply Forall_app.
  - eexists _, w2, (evs ++ evs'). split; [reflexivity|].
    rewrite Hlog', Hlog, <- app_assoc. split; [reflexivity|]. now apply Forall_app.
Qed.

Lemma storeArtwork_log source v w r w' :
  storeArtwork O env source v w = (r, w') -> exists evs, log w' = log w ++ evs.
Proof.
  destruct (jsTruthy v) eqn:Htruthy.
  2:{ unfold storeArtwork. rewrite Htruthy. intros [= <- <-]. exists []. now rewrite app_nil_r. }
  destruct v as [| b | q | url | items | fields];
    try (unfold storeArtwork; rewrite Htruthy; intros [= <- <-]; exists [];
         now rewrite app_nil_r).
  destruct (storeArtwork_string_log source url w Htruthy) as (r0 & w0 & evs & Hrun & Hlog & _).
  rewrite Hrun. intros [= <- <-]. eexists. exact Hlog.
Qed.

(** C5, amended.  With a configured [coverImageUrl] that is non-empty
    after trimming and no fresh cache hit, the resolver returns without
    throwing, and the one fetch it makes is that of the trimmed URL: no
    search call is made. *)
Theorem direct_url_is_fetched_trimmed (source : PodcastSource) (w : world) :
  REMOTE_COVER_ENABLED env = true ->
  REMOTE_COVER_PROVIDER env = ProviderItunes ->
  noFreshHit O env source w ->
  truthy (trim (opt_or_else (coverImageUrl (config source)) EmptyString)) = true ->
  exists r w' evs,
    resolveCoverForSource O env source w = (Ok r, w')
    /\ log w' = log w
                ++ probeTrace O ttl (fs w) (path_join coversDir (dirName source)) coverExts
                ++ EvFetch (trim (opt_or_else (coverImageUrl (config source)) EmptyString)) None
                   :: evs
    /\ Forall (fun ev => isFetchEvent ev = false)
         (probeTrace O ttl (fs w) (path_join coversDir (dirName source)) coverExts ++ evs).
Proof.
  intros Hen Hprov Hno Hurl.
  assert (Hv : forall w0, findArtworkUrl O env source w0
                          = (Ok (JStr (directUrlOf source)), logged w0 [])).
  { intros w0. unfold findArtworkUrl. unfold directUrlOf at 1. rewrite Hurl.
    now rewrite logged_nil. }
  rewrite (resolve_no_hit source w _ [] Hen Hprov Hno Hv). rewrite app_nil_r.
  destruct (storeArtwork_string_log source (directUrlOf source)
              (logged w (probeTrace O ttl (fs w) (baseOf source) coverExts)) Hurl)
    as (r & w' & evs & Hrun & Hlog & Hev).
  exists r, w', evs. split; [exact Hrun|]. split.
  - rewrite Hlog. cbn [log logged]. now rewrite <- app_assoc.
  - apply Forall_app. split; [apply probeTrace_no_fetch|exact Hev].
Qed.

(** C4, amended.  Without a fresh cache hit and without a direct URL,
    the search term is the first of the configured search term, the
    podcast title and the folder name that is a non-empty string as it
    stands, and it is trimmed afterwards.  When the trimmed term is not
    empty it is the term of the search call, the first fetch of the run;
    when it is empty no search is made and the result is the empty one. *)
Theorem search_term_choice (source : PodcastSource) (w : world) :
  REMOTE_COVER_ENABLED env = true ->
  REMOTE_COVER_PROVIDER env = ProviderItunes ->
  noFreshHit O env source w ->
  truthy (directUrlOf source) = false ->
  (forall s, coverSearchTerm (config source) = Some s -> truthy s = true ->
             searchTermOf source = trim s)
  /\ (coverSearchTerm (config source) = None
      \/ coverSearchTerm (config source) = Some EmptyString ->
      truthy (title (config source)) = true ->
      searchTermOf source = trim (title (config source)))
  /\ (coverSearchTerm (config source) = None
      \/ coverSearchTerm (config source) = Some EmptyString ->
      truthy (title (config source)) = false ->
      searchTermOf source = trim (dirName source))
  /\ (truthy (searchTermOf source) = true ->
      exists r w' evs,
        resolveCoverForSource O env source w = (r, w')
        /\ log w' = log w
                    ++ probeTrace O ttl (fs w) (path_join coversDir (dirName source)) coverExts
                    ++ EvFetch (searchUrl (searchTermOf source) (REMOTE_COVER_COUNTRY env))
                         (Some "application/json")
                       :: evs)
  /\ (truthy (searchTermOf source) = false ->
      resolveCoverForSource O env source w
      = (Ok emptyResult,
         logged w (probeTrace O ttl (fs w) (path_join coversDir (dirName source)) coverExts))).
Proof.
  intros Hen Hprov Hno Hdirect. repeat split.
  - intros s Hs Ht. unfold searchTermOf. rewrite Hs. cbn [opt_or_else].
    unfold or_else. now rewrite Ht.
  - intros Hs Ht. unfold searchTermOf.
    destruct Hs as [-> | ->]; cbn [opt_or_else or_else truthy]; unfold or_else; now rewrite Ht.
  - intros Hs Ht. unfold searchTermOf.
    destruct Hs as [-> | ->]; cbn [opt_or_else or_else truthy]; unfold or_else; now rewrite Ht.
  - intros Hterm.
    destruct (itunesSearchArtwork_run (searchTermOf source) (REMOTE_COVER_COUNTRY env)
                (REMOTE_COVER_TIMEOUT_MS env)) as (v & Hsearch).
    assert (Hv : forall w0, findArtworkUrl O env source w0
              = (Ok v, logged w0 [EvFetch (searchUrl (searchTermOf source)
                                             (REMOTE_COVER_COUNTRY env))
                                    (Some "application/json")])).
    { intros w0. unfold findArtworkUrl. rewrite Hdirect, Hterm. apply Hsearch. }
    rewrite (resolve_no_hit source w _ _ Hen Hprov Hno Hv).
    destruct (storeArtwork O env source v _) as [r w'] eqn:Hrun.
    apply storeArtwork_log in Hrun as (evs & Hlog).
    exists r, w', evs. split; [reflexivity|].
    rewrite Hlog. cbn [log logged]. now rewrite <- !app_assoc.
  - intros Hterm.
    assert (Hv : forall w0, findArtworkUrl O env source w0 = (Ok JNull, logged w0 [])).
    { intros w0. unfold findArtworkUrl. rewrite Hdirect, Hterm. now rewrite logged_nil. }
    rewrite (resolve_no_hit source w _ _ Hen Hprov Hno Hv). rewrite app_nil_r.
    reflexivity.
Qed.

End CoverFacts.

Lemma cache_freshness_and_probe_order_witness :
  let O := Demo.oracleWith None (fun _ => false) in
  let w := Demo.worldOf [("/srv/.covers/show.png", Demo.textFile 5000 "PNG")] in
  freshHit O (Fin 30) (fs w) "/srv/.covers/show.jpg" = false
  /\ freshHit O (Fin 30) (fs w) "/srv/.covers/show.png" = true
  /\ @resolveCoverForSource Demo.runtime O Demo.env (Demo.source None None) w
     = (Ok {| res_coverUrl := Some "/covers/show.png";
              res_coverCachePath := Some "/srv/.covers/show.png" |},
        logged w [EvPathExists "/srv/.covers/show.jpg";
                  EvPathExists "/srv/.covers/show.png";
                  EvStat "/srv/.covers/show.png"]).
Proof.
  intros O w.
  split; [vm_compute; reflexivity|]. split; [vm_compute; reflexivity|].
  refine (proj1 (proj2 (proj2 (proj2 (proj2 (proj2
    (@cache_freshness_and_probe_order Demo.runtime O Demo.env 30 5
       "/srv/.covers/show.png" (Demo.source None None) w [".jpg"] ".png" [".webp"])))))
    eq_refl eq_refl eq_refl _ _)).
  - intros e [<-|[]]. vm_compute. reflexivity.
  - vm_compute. reflexivity.
Defined.

(** ** Sidecar attachments and shownotes *)

Section FeedFacts.
Context {rt : Runtime} (O : oracle).

Lemma append_empty_r (s : string) : s +:+ EmptyString = s.
Proof.
  induction s as [|c s IH]; [reflexivity|].
  change (String c (s +:+ EmptyString) = String c s). now rewrite IH.
Qed.

Lemma append_assoc (a b c : string) : (a +:+ b) +:+ c = a +:+ b +:+ c.
Proof.
  induction a as [|x a IH]; [reflexivity|].
  change (String x ((a +:+ b) +:+ c) = String x (a +:+ b +:+ c)). now rewrite IH.
Qed.

Lemma join_empty_app (a b : list string) :
  join EmptyString (a ++ b) = join EmptyString a +:+ join EmptyString b.
Proof.
  induction a as [|x a IH]; [reflexivity|].
  destruct a as [|y a].
  - destruct b as [|z b]; cbn [app join]; [now rewrite append_empty_r|reflexivity].
  - change ((x :: y :: a) ++ b) with (x :: (y :: a) ++ b).
    change (join EmptyString (x :: (y :: a) ++ b))
      with (x +:+ join EmptyString ((y :: a) ++ b)).
    change (join EmptyString (x :: y :: a)) with (x +:+ join EmptyString (y :: a)).
    now rewrite IH, append_assoc.
Qed.

(** A part is a substring of the joined text. *)
Lemma join_contains (parts : list string) (x : string) :
  In x parts -> exists pre post, join EmptyString parts = pre +:+ x +:+ post.
Proof.
  intros H. apply in_split in H as (l1 & l2 & ->).
  change (x :: l2) with ([x] ++ l2). rewrite !join_empty_app.
  now exists (join EmptyString l1), (join EmptyString l2).
Qed.

Lemma fold_push {A} (f : A -> string) (l : list A) (parts : list string) :
  fold_left (fun acc x => push acc (f x)) l parts = parts ++ map f l.
Proof.
  revert parts. induction l as [|x l IH]; intros parts; simpl.
  - now rewrite app_nil_r.
  - rewrite IH. unfold push. now rewrite <- app_assoc.
Qed.

Lemma fold_pushNote (texts : list attachment) (parts : list string) :
  fold_left pushNote texts parts = parts ++ flat_map noteBlock texts.
Proof.
  revert parts. induction texts as [|t texts IH]; intros parts; simpl.
  - now rewrite app_nil_r.
  - rewrite IH. unfold pushNote, noteBlock, push. cbv zeta.
    destruct (truthy (trim (opt_or_else (att_inlineText t) EmptyString)));
      cbn [negb]; now rewrite <- !app_assoc.
Qed.

Lemma filter_nil_length {A} (f : A -> bool) (l : list A) :
  List.filter f l = [] -> forall x, In x l -> f x = false.
Proof.
  induction l as [|y l IH]; [intros _ x []|]. simpl.
  destruct (f y) eqn:Hy; [discriminate|].
  intros H x [<-|Hx]; [assumption|now apply IH].
Qed.

(** The inline block appends the Images section and then the Notes
    section, and touches nothing that is there. *)
Lemma nonempty_length {A} (l : list A) :
  negb (Nat.eqb (length l) 0) = match l with [] => false | _ :: _ => true end.
Proof. now destruct l. Qed.

Ltac list_norm :=
  repeat first [rewrite <- app_assoc | rewrite app_nil_r | progress cbn [app]].

Lemma inlineSections_view inlineAttachments attachments parts :
  inlineSections inlineAttachments attachments parts
  = parts ++ imagesSection inlineAttachments attachments
          ++ notesSection inlineAttachments attachments.
Proof.
  unfold inlineSections, imagesSection, notesSection.
  rewrite !nonempty_length.
  destruct attachments as [|a0 rest].
  { destruct inlineAttachments; cbn; now rewrite app_nil_r. }
  generalize (a0 :: rest) as atts. intros atts.
  destruct inlineAttachments; cbn [andb];
    destruct (List.filter isImage atts) as [|i0 images];
    destruct (List.filter isText atts) as [|t0 texts];
    cbn [andb]; rewrite ?fold_pushNote, ?fold_push; unfold push;
    list_norm; reflexivity.
Qed.

Lemma In_push (parts : list string) (x y : string) :
  In y (push parts x) <-> In y parts \/ y = x.
Proof.
  unfold push. rewrite in_app_iff. simpl. intuition congruence.
Qed.

(** No part of the base list is a section heading: each of them starts
    with a tag other than [<hr/>]. *)
Lemma base_parts_second source episode episodeUrl fileSizeBytes attachments x :
  In x (fullHtmlParts source episode episodeUrl fileSizeBytes InlineNone attachments) ->
  secondUnit x <> Some "h"%char.
Proof.
  unfold fullHtmlParts. rewrite inlineSections_view.
  unfold imagesSection, notesSection. cbn [app]. rewrite app_nil_r.
  rewrite In_push. intros [H | ->]; [|discriminate].
  destruct attachments as [|a0 rest]; cbn [length Nat.eqb negb] in H.
  - repeat (apply In_push in H as [H | ->]; [|discriminate]). destruct H.
  - apply In_push in H as [H | ->]; [|discriminate].
    rewrite fold_push in H. apply in_app_iff in H as [H|H].
    + repeat (apply In_push in H as [H | ->]; [|discriminate]). destruct H.
    + apply in_map_iff in H as (a & <- & _). discriminate.
Qed.

Lemma images_section_not_notes inlineAttachments attachments :
  ~ In notesHeading (imagesSection inlineAttachments attachments).
Proof.
  unfold imagesSection.
  destruct inlineAttachments; [intros []| |];
    (destruct (List.filter isImage attachments) as [|i0 images]; [intros []|];
     intros [H|H]; [discriminate H|];
     apply in_map_iff in H as (a & H & _); discriminate H).
Qed.

Lemma note_blocks_not_notes (texts : list attachment) :
  ~ In notesHeading (flat_map noteBlock texts).
Proof.
  intros H. apply in_flat_map in H as (t & _ & H).
  unfold noteBlock in H.
  destruct (truthy (trim (opt_or_else (att_inlineText t) EmptyString)));
    repeat (destruct H as [H|H]; [discriminate H|]); destruct H.
Qed.

Lemma filter_text_nonempty (attachments : list attachment) :
  List.filter isText attachments <> []
  <-> exists a, In a attachments /\ att_kind a = KText.
Proof.
  split.
  - destruct (List.filter isText attachments) as [|t texts] eqn:Hf; [congruence|].
    intros _. exists t.
    assert (Ht : In t (List.filter isText attachments)) by (rewrite Hf; now left).
    apply filter_In in Ht as [Hin Hk]. split; [assumption|].
    unfold isText in Hk. now destruct (att_kind t).
  - intros (a & Hin & Hk) Hnil.
    assert (Ht : In a (List.filter isText attachments)).
    { apply filter_In. split; [assumption|]. unfold isText. now rewrite Hk. }
    rewrite Hnil in Ht. destruct Ht.
Qed.

(** The parts of the full mode: the base list, then the Images section,
    then the Notes section. *)
Lemma fullHtmlParts_sections source episode episodeUrl fileSizeBytes inlineAttachments
    attachments :
  fullHtmlParts source episode episodeUrl fileSizeBytes inlineAttachments attachments
  = fullHtmlParts source episode episodeUrl fileSizeBytes InlineNone attachments
      ++ imagesSection inlineAttachments attachments
      ++ notesSection inlineAttachments attachments.
Proof.
  unfold fullHtmlParts. rewrite !inlineSections_view.
  unfold imagesSection at 2, notesSection at 2. cbn [app]. now rewrite app_nil_r.
Qed.

Lemma notes_heading_iff source episode episodeUrl fileSizeBytes inlineAttachments attachments :
  In notesHeading
    (fullHtmlParts source episode episodeUrl fileSizeBytes inlineAttachments attachments)
  <-> inlineAttachments = InlineAll /\ exists a, In a attachments /\ att_kind a = KText.
Proof.
  rewrite fullHtmlParts_sections, !in_app_iff. split.
  - intros [H|[H|H]].
    + apply base_parts_second in H. now contradiction H.
    + now apply images_section_not_notes in H.
    + unfold notesSection in H.
      destruct inlineAttachments; try (destruct (List.filter isText attachments); now destruct H).
      split; [reflexivity|]. apply filter_text_nonempty.
      intros Hnil. rewrite Hnil in H. destruct H.
  - intros [-> Htext]. right. right. unfold notesSection.
    apply filter_text_nonempty in Htext.
    destruct (List.filter isText attachments); [congruence|now left].
Qed.

Lemma truncated_length (maxChars : nat) (s : string) :
  (String.length (if (maxChars <? String.length s)%nat then take maxChars s else s)
   <= maxChars)%nat.
Proof.
  destruct (Nat.ltb_spec maxChars (String.length s)); [|assumption].
  rewrite length_take. lia.
Qed.

(** [readTextTruncated] never throws, leaves the files alone and returns
    at most [maxChars] code units. *)
Lemma readTextTruncated_run fullPath maxChars w :
  exists t w',
    readTextTruncated O fullPath maxChars w = (Ok t, w')
    /\ fs w' = fs w
    /\ (String.length t <= maxChars)%nat.
Proof.
  unfold readTextTruncated.
  cbv [try_catch try_finally bind stat openFile readFile closeFile emit ret throw].
  destruct w as [files evs]. cbn [fs log].
  destruct (stat_fails O fullPath); [eexists _, _; repeat split; simpl; lia|].
  destruct (files !! fullPath) as [st|] eqn:Hst; [|eexists _, _; repeat split; simpl; lia].
  destruct (isFile st); cbn [negb]; [|eexists _, _; repeat split; simpl; lia].
  destruct (open_fails O fullPath); [eexists _, _; repeat split; simpl; lia|].
  cbn [fs log]. rewrite Hst.
  destruct (read_result O fullPath _) as [bytesRead|];
    destruct (close_fails O fullPath);
    eexists _, _; (split; [reflexivity|]); (split; [reflexivity|]);
    try (simpl; lia).
  apply truncated_length.
Qed.

(** The loop over the candidate extensions never throws and leaves the
    files alone; it pushes one attachment for each candidate that exists,
    and only for those. *)
Lemma sidecarLoop_run dirPath' baseUrl' dirName' stem maxChars exts results w :
  exists atts w',
    sidecarLoop O dirPath' baseUrl' dirName' stem maxChars exts results w
    = (Ok (results ++ atts), w')
    /\ fs w' = fs w
    /\ (forall a, In a atts -> attachmentOk (fs w) dirPath' stem maxChars exts a)
    /\ (forall ext, In ext exts ->
          is_Some (fs w !! path_join dirPath' (stem +:+ "." +:+ ext)) ->
          exists a, In a atts /\ att_fileName a = stem +:+ "." +:+ ext
                    /\ att_kind a = kindOfExt ext).
Proof.
  revert results w. induction exts as [|ext rest IH]; intros results w.
  - exists [], w. cbn [sidecarLoop]. unfold ret. rewrite app_nil_r.
    repeat split; [intros a []|intros ext []].
  - cbn [sidecarLoop]. unfold bind at 1. rewrite pathExists_run.
    set (candidate := stem +:+ "." +:+ ext).
    destruct (fs w !! path_join dirPath' candidate) as [f|] eqn:Hf.
    + set (url := baseUrl' +:+ _).
      assert (Hinline : exists inline w1,
                 (match kindOfExt ext with
                  | KText => t <- readTextTruncated O (path_join dirPath' candidate) maxChars ;;
                             ret (Some t)
                  | _ => ret None
                  end) (logged w [EvPathExists (path_join dirPath' candidate)])
                 = (Ok inline, w1)
                 /\ fs w1 = fs w
                 /\ match kindOfExt ext with
                    | KText => exists t, inline = Some t /\ (String.length t <= maxChars)%nat
                    | _ => inline = None
                    end).
      { destruct (kindOfExt ext); try (eexists _, _; repeat split; reflexivity).
        destruct (readTextTruncated_run (path_join dirPath' candidate) maxChars
                    (logged w [EvPathExists (path_join dirPath' candidate)]))
          as (t & w1 & Hrun & Hfs & Hlen).
        exists (Some t), w1. unfold bind. rewrite Hrun. repeat split; [exact Hfs|].
        now exists t. }
      destruct Hinline as (inline & w1 & Hrun & Hfs & Hkind).
      unfold bind at 1. rewrite Hrun.
      set (item := {| att_fileName := candidate; att_url := url;
                      att_kind := kindOfExt ext; att_inlineText := inline |}).
      destruct (IH (results ++ [item]) w1) as (atts & w' & Hloop & Hfs' & Hok & Hall).
      exists (item :: atts), w'. rewrite Hloop, <- app_assoc.
      split; [reflexivity|]. split; [congruence|]. split.
      * intros a [<-|Ha].
        -- exists ext. cbn [att_fileName att_kind att_inlineText item].
           repeat split; [now left|unfold candidate in Hf; rewrite Hf; now eexists|].
           exact Hkind.
        -- destruct (Hok a Ha) as (e & He & Hn & Hk & Hs & Ht).
           exists e. rewrite Hfs in Hs. repeat split; try assumption. now right.
      * intros e [<-|He] Hs.
        -- exists item. repeat split. now left.
        -- rewrite <- Hfs in Hs. destruct (Hall e He Hs) as (a & Ha & ?).
           exists a. split; [now right|assumption].
    + destruct (IH results (logged w [EvPathExists (path_join dirPath' candidate)]))
        as (atts & w' & Hloop & Hfs' & Hok & Hall).
      exists atts, w'. split; [exact Hloop|]. split; [exact Hfs'|]. split.
      * intros a Ha. destruct (Hok a Ha) as (e & He & Hn & Hk & Hs & Ht).
        exists e. repeat split; try assumption. now right.
      * intros e [<-|He] Hs.
        -- fold candidate in Hs. rewrite Hf in Hs. now destruct Hs.
        -- now apply Hall.
Qed.

Lemma findSidecarAttachments_run dirPath' audioFileName baseUrl' dirName' maxChars w :
  exists atts w',
    findSidecarAttachments O dirPath' audioFileName baseUrl' dirName' maxChars w = (Ok atts, w')
    /\ fs w' = fs w
    /\ (forall a, In a atts ->
          attachmentOk (fs w) dirPath' (stemOf audioFileName) maxChars sidecarExts a)
    /\ (forall ext, In ext sidecarExts ->
          is_Some (fs w !! path_join dirPath' (stemOf audioFileName +:+ "." +:+ ext)) ->
          exists a, In a atts /\ att_fileName a = stemOf audioFileName +:+ "." +:+ ext
                    /\ att_kind a = kindOfExt ext).
Proof.
  unfold findSidecarAttachments.
  destruct (sidecarLoop_run dirPath' baseUrl' dirName' (stemOf audioFileName) maxChars
              sidecarExts [] w) as (atts & w' & Hrun & H).
  exists atts, w'. split; [exact Hrun|exact H].
Qed.

Lemma or_else_truthy (a b : string) : truthy a = true -> or_else a b = a.
Proof. unfold or_else. now intros ->. Qed.

(** The full mode never throws: its HTML is the join of the parts built
    from the attachments the locator returns. *)
Lemma buildEpisodeShownotes_full source episode episodeUrl fileSizeBytes baseUrl'
    inlineAttachments inlineTextMaxChars w :
  exists atts w',
    findSidecarAttachments O (dirPath source) (ep_fileName episode) baseUrl' (dirName source)
      inlineTextMaxChars w = (Ok atts, w')
    /\ buildEpisodeShownotes O source episode episodeUrl fileSizeBytes baseUrl' ModeFull
         inlineAttachments inlineTextMaxChars w
       = (Ok {| plain := join (String (ascii_of_nat 10) EmptyString)
                           (fullLines source episode episodeUrl fileSizeBytes atts);
                html := join EmptyString
                          (fullHtmlParts source episode episodeUrl fileSizeBytes
                             inlineAttachments atts) |}, w').
Proof.
  destruct (findSidecarAttachments_run (dirPath source) (ep_fileName episode) baseUrl'
              (dirName source) inlineTextMaxChars w) as (atts & w' & Hrun & _).
  exists atts, w'. split; [exact Hrun|].
  cbn [buildEpisodeShownotes]. unfold bind. now rewrite Hrun.
Qed.

(** The parts of the full mode start with the title paragraph and the
    opening of the list. *)
Lemma fullHtmlParts_head source episode episodeUrl fileSizeBytes inlineAttachments attachments :
  exists rest,
    fullHtmlParts source episode episodeUrl fileSizeBytes inlineAttachments attachments
    = ("<p><strong>" +:+ escapeHtml (ep_title episode) +:+ "</strong></p>") :: "<ul>" :: rest.
Proof.
  unfold fullHtmlParts. rewrite inlineSections_view, fold_push. unfold push.
  destruct (negb (length attachments =? 0)%nat); list_norm; eexists; reflexivity.
Qed.

(** What [readTextTruncated] returns is read off the file. *)
Lemma readTextTruncated_text fullPath maxChars w :
  exists w',
    readTextTruncated O fullPath maxChars w = (Ok (textSeen O (fs w) fullPath maxChars), w')
    /\ fs w' = fs w.
Proof.
  unfold readTextTruncated, textSeen, inlineTextOf.
  cbv [try_catch try_finally bind stat openFile readFile closeFile emit ret throw].
  destruct w as [files evs]. cbn [fs log].
  destruct (stat_fails O fullPath); [eexists; split; reflexivity|].
  destruct (files !! fullPath) as [st|] eqn:Hst; [|eexists; split; reflexivity].
  destruct (isFile st); cbn [negb]; [|eexists; split; reflexivity].
  destruct (open_fails O fullPath); [eexists; split; reflexivity|].
  cbn [fs log]. rewrite Hst.
  destruct (read_result O fullPath _) as [bytesRead|];
    destruct (close_fails O fullPath); eexists; split; reflexivity.
Qed.

(** The inline text of a text attachment is what [readTextTruncated]
    returns for its file. *)
Lemma sidecarLoop_texts dirPath' baseUrl' dirName' stem maxChars exts results w :
  exists atts w',
    sidecarLoop O dirPath' baseUrl' dirName' stem maxChars exts results w
    = (Ok (results ++ atts), w')
    /\ (forall a, In a atts -> att_kind a = KText ->
          att_inlineText a
          = Some (textSeen O (fs w) (path_join dirPath' (att_fileName a)) maxChars)).
Proof.
  revert results w. induction exts as [|ext rest IH]; intros results w.
  - exists [], w. cbn [sidecarLoop]. unfold ret. rewrite app_nil_r. split; [reflexivity|].
    intros a [].
  - cbn [sidecarLoop]. unfold bind at 1. rewrite pathExists_run.
    set (candidate := stem +:+ "." +:+ ext).
    destruct (fs w !! path_join dirPath' candidate) as [f|] eqn:Hf.
    + set (url := baseUrl' +:+ _).
      assert (Hinline : exists inline w1,
                 (match kindOfExt ext with
                  | KText => t <- readTextTruncated O (path_join dirPath' candidate) maxChars ;;
                             ret (Some t)
                  | _ => ret None
                  end) (logged w [EvPathExists (path_join dirPath' candidate)])
                 = (Ok inline, w1)
                 /\ fs w1 = fs w
                 /\ (kindOfExt ext = KText ->
                     inline = Some (textSeen O (fs w) (path_join dirPath' candidate) maxChars))).
      { destruct (kindOfExt ext);
          try (eexists _, _; split; [reflexivity|]; split; [reflexivity|discriminate]).
        destruct (readTextTruncated_text (path_join dirPath' candidate) maxChars
                    (logged w [EvPathExists (path_join dirPath' candidate)]))
          as (w1 & Hrun & Hfs).
        eexists _, w1. unfold bind. rewrite Hrun. split; [reflexivity|].
        split; [exact Hfs|]. intros _. reflexivity. }
      destruct Hinline as (inline & w1 & Hrun & Hfs & Hkind).
      unfold bind at 1. rewrite Hrun.
      set (item := {| att_fileName := candidate; att_url := url;
                      att_kind := kindOfExt ext; att_inlineText := inline |}).
      destruct (IH (results ++ [item]) w1) as (atts & w' & Hloop & Htexts).
      exists (item :: atts), w'. rewrite Hloop, <- app_assoc.
      split; [reflexivity|].
      intros a [<-|Ha] Hk.
      * cbn [att_kind att_inlineText att_fileName item] in *. exact (Hkind Hk).
      * rewrite <- Hfs. exact (Htexts a Ha Hk).
    + destruct (IH results (logged w [EvPathExists (path_join dirPath' candidate)]))
        as (atts & w' & Hloop & Htexts).
      exists atts, w'. split; [exact Hloop|exact Htexts].
Qed.

(** C8, amended.  In full shownotes mode the HTML is the base list, then
    the Images section, then the Notes section, joined; every part is a
    substring of it.  The Notes section is
    there iff the setting is 'all' and a text-kind attachment exists; it
    is the heading followed, for each text attachment in order, by the
    link and a [<pre>] block of its HTML-escaped inline text with the
    white space at both ends removed, the link alone when nothing is
    left.  The inline text has at most [inlineTextMaxChars] code units,
    and it is read off the file of the attachment: when [stat], [open],
    the read and [close] go well on a regular file it is the decoded
    bytes that were read, cut at [inlineTextMaxChars] code units; when one
    of them fails it is empty.  With 'all', the link of every text
    attachment and, when the trimmed text is not empty, its [<pre>] block
    are substrings of the HTML.
    An episode with a sibling [.md] file has a text attachment: 'all'
    gives a Notes section, 'images' gives none. *)
Theorem notes_section_rule (source : PodcastSource) (episode : Episode) (episodeUrl : string)
    (fileSizeBytes : number) (baseUrl' : string) (inlineAttachments : inlineMode)
    (inlineTextMaxChars : nat) (w : world) :
  exists atts notes w',
    findSidecarAttachments O (dirPath source) (ep_fileName episode) baseUrl' (dirName source)
      inlineTextMaxChars w = (Ok atts, w')
    /\ buildEpisodeShownotes O source episode episodeUrl fileSizeBytes baseUrl' ModeFull
         inlineAttachments inlineTextMaxChars w = (Ok notes, w')
    /\ html notes
       = join EmptyString
           (fullHtmlParts source episode episodeUrl fileSizeBytes InlineNone atts
              ++ imagesSection inlineAttachments atts
              ++ notesSection inlineAttachments atts)
    /\ (forall x,
          In x (fullHtmlParts source episode episodeUrl fileSizeBytes inlineAttachments atts) ->
          exists pre post, html notes = pre +:+ x +:+ post)
    /\ (In notesHeading
          (fullHtmlParts source episode episodeUrl fileSizeBytes inlineAttachments atts)
        <-> inlineAttachments = InlineAll /\ exists a, In a atts /\ att_kind a = KText)
    /\ (inlineAttachments = InlineAll ->
        (exists a, In a atts /\ att_kind a = KText) ->
        notesSection inlineAttachments atts
        = notesHeading :: flat_map noteBlock (List.filter isText atts))
    /\ (forall t,
          noteBlock t
          = if truthy (trim (opt_or_else (att_inlineText t) EmptyString))
            then [noteLink t;
                  "<pre>" +:+ escapeHtml (trim (opt_or_else (att_inlineText t) EmptyString))
                    +:+ "</pre>"]
            else [noteLink t])
    /\ (forall a, In a atts -> att_kind a = KText ->
          exists t, att_inlineText a = Some t
                    /\ (String.length t <= inlineTextMaxChars)%nat)
    /\ (forall a, In a atts -> att_kind a = KText ->
          let p := path_join (dirPath source) (att_fileName a) in
          (forall f bytesRead,
             fs w !! p = Some f -> isFile f = true ->
             stat_fails O p = false -> open_fails O p = false ->
             read_result O p (Nat.min (Nat.max 1024 (inlineTextMaxChars * 4)) (size f))
             = Some bytesRead ->
             close_fails O p = false ->
             att_inlineText a = Some (inlineTextOf inlineTextMaxChars bytesRead f))
          /\ (stat_fails O p = true
              \/ (exists f, fs w !! p = Some f /\ isFile f = false)
              \/ open_fails O p = true
              \/ (exists f, fs w !! p = Some f
                            /\ read_result O p
                                 (Nat.min (Nat.max 1024 (inlineTextMaxChars * 4)) (size f))
                               = None)
              \/ close_fails O p = true ->
              att_inlineText a = Some EmptyString))
    /\ (inlineAttachments = InlineAll ->
        forall a, In a atts -> att_kind a = KText ->
          (exists pre post, html notes = pre +:+ noteLink a +:+ post)
          /\ (forall t, att_inlineText a = Some t -> truthy (trim t) = true ->
                exists pre post,
                  html notes
                  = pre +:+ ("<pre>" +:+ escapeHtml (trim t) +:+ "</pre>") +:+ post))
    /\ (is_Some (fs w !! path_join (dirPath source) (stemOf (ep_fileName episode) +:+ ".md")) ->
        (exists a, In a atts /\ att_fileName a = stemOf (ep_fileName episode) +:+ ".md"
                   /\ att_kind a = KText)
        /\ (inlineAttachments = InlineAll ->
            In notesHeading
              (fullHtmlParts source episode episodeUrl fileSizeBytes inlineAttachments atts))
        /\ (inlineAttachments = InlineImages ->
            ~ In notesHeading
                (fullHtmlParts source episode episodeUrl fileSizeBytes inlineAttachments atts))).
Proof.
  destruct (findSidecarAttachments_run (dirPath source) (ep_fileName episode) baseUrl'
              (dirName source) inlineTextMaxChars w) as (atts & w' & Hrun & _ & Hok & Hall).
  exists atts. eexists. exists w'. split; [exact Hrun|]. split.
  { cbn [buildEpisodeShownotes]. unfold bind. rewrite Hrun. reflexivity. }
  split; [cbn [html]; now rewrite fullHtmlParts_sections|].
  split; [intros x Hx; cbn [html]; now apply join_contains|].
  split; [apply notes_heading_iff|].
  split.
  { intros -> Htext. unfold notesSection.
    apply filter_text_nonempty in Htext.
    destruct (List.filter isText atts); [congruence|reflexivity]. }
  split; [reflexivity|].
  split.
  { intros a Ha Hk. destruct (Hok a Ha) as (e & _ & _ & _ & _ & Ht).
    rewrite Hk in Ht. exact Ht. }
  split.
  { destruct (sidecarLoop_texts (dirPath source) baseUrl' (dirName source)
                (stemOf (ep_fileName episode)) inlineTextMaxChars sidecarExts [] w)
      as (atts2 & w2 & Hloop & Htexts).
    unfold findSidecarAttachments in Hrun. rewrite Hloop in Hrun.
    apply pair_equal_spec in Hrun as [Hrun _]. injection Hrun as Hrun.
    cbn [app] in Hrun. subst atts2.
    intros a Ha Hk p. pose proof (Htexts a Ha Hk) as Htext. fold p in Htext.
    unfold textSeen in Htext. split.
    - intros f bytesRead Hf Hfile Hstat Hopen Hread Hclose.
      rewrite Hstat, Hf, Hfile, Hopen, Hread, Hclose in Htext. exact Htext.
    - intros Hfail. rewrite Htext. f_equal.
      destruct (stat_fails O p); [reflexivity|].
      destruct (fs w !! p) as [f|] eqn:Hf; [|reflexivity].
      destruct (isFile f) eqn:Hfile; cbn [negb]; [|reflexivity].
      destruct (open_fails O p); [reflexivity|].
      destruct (read_result O p _) as [bytesRead|] eqn:Hread; [|reflexivity].
      destruct (close_fails O p); [reflexivity|].
      destruct Hfail as [H|[(f' & Hf' & H)|[H|[(f' & Hf' & H)|H]]]]; try discriminate H.
      + injection Hf' as <-. congruence.
      + injection Hf' as <-. congruence. }
  split.
  { intros -> a Ha Hk.
    assert (Hblock : forall x, In x (noteBlock a) ->
                               exists pre post,
                                 join EmptyString
                                   (fullHtmlParts source episode episodeUrl fileSizeBytes
                                      InlineAll atts)
                                 = pre +:+ x +:+ post).
    { intros x Hx. apply join_contains. rewrite fullHtmlParts_sections.
      apply in_or_app. right. apply in_or_app. right.
      assert (Ha' : In a (List.filter isText atts)).
      { apply filter_In. split; [exact Ha|]. unfold isText. now rewrite Hk. }
      unfold notesSection.
      destruct (List.filter isText atts) as [|t0 texts] eqn:Hf; [destruct Ha'|].
      right. apply in_flat_map. exists a. split; [exact Ha'|exact Hx]. }
    cbn [html]. split.
    - apply Hblock. unfold noteBlock. destruct (truthy _); now left.
    - intros t Ht Htrim. apply Hblock. unfold noteBlock. rewrite Ht.
      cbn [opt_or_else]. unfold or_else.
      assert (Htt : truthy t = true).
      { destruct t; [discriminate Htrim|reflexivity]. }
      rewrite Htt, Htrim. right. now left. }
  intros Hmd.
  assert (Hatt : exists a, In a atts
                   /\ att_fileName a = stemOf (ep_fileName episode) +:+ ".md"
                   /\ att_kind a = KText).
  { destruct (Hall "md") as (a & Ha & Hn & Hk); [cbv; tauto|exact Hmd|].
    exists a. now repeat split. }
  split; [exact Hatt|]. split.
  - intros ->. apply notes_heading_iff. split; [reflexivity|].
    destruct Hatt as (a & Ha & _ & Hk). now exists a.
  - intros -> H. apply notes_heading_iff in H as [H _]. discriminate H.
Qed.

(** C10. In both modes [buildEpisodeShownotes] returns, and its HTML is
    not empty: the title mode gives the title in a [<p>] paragraph, the
    full mode starts with the title paragraph and the opening [<ul>]; so
    the content of the feed item is that HTML, never the fallback. *)
Theorem shownotes_html_never_empty (env : EnvConfig) (source : PodcastSource)
    (options : ProcessOptions) (episode : Episode) (episodeUrl : string)
    (fileSizeBytes : number) (baseUrl' : string) (defaultMode : shownotesMode)
    (inlineAttachments : inlineMode) (inlineTextMaxChars : nat) (w : world) :
  (exists notes w',
     buildEpisodeShownotes O source episode episodeUrl fileSizeBytes baseUrl' defaultMode
       inlineAttachments inlineTextMaxChars w = (Ok notes, w')
     /\ html notes <> EmptyString
     /\ match defaultMode with
        | ModeTitle => html notes = "<p>" +:+ escapeHtml (ep_title episode) +:+ "</p>"
        | ModeFull =>
            exists rest,
              html notes
              = ("<p><strong>" +:+ escapeHtml (ep_title episode) +:+ "</strong></p>")
                  +:+ "<ul>" +:+ rest
        end
     /\ forall fallback, or_else (html notes) fallback = html notes)
  /\ (exists item notes w1 w2,
        episodeItem O env source options episode w = (Ok item, w2)
        /\ buildEpisodeShownotes O source episode (item_id item) (enclosure_length item)
             (baseUrl options) (EPISODE_SHOWNOTES env) (EPISODE_INLINE_ATTACHMENTS env)
             (inlineTextMaxCharsOf env) w1 = (Ok notes, w2)
        /\ item_content item = html notes).
Proof.
  assert (Hbuild : forall url size' base mode inl maxc w0,
    exists notes w',
      buildEpisodeShownotes O source episode url size' base mode inl maxc w0 = (Ok notes, w')
      /\ truthy (html notes) = true
      /\ match mode with
         | ModeTitle => html notes = "<p>" +:+ escapeHtml (ep_title episode) +:+ "</p>"
         | ModeFull =>
             exists rest,
               html notes
               = ("<p><strong>" +:+ escapeHtml (ep_title episode) +:+ "</strong></p>")
                   +:+ "<ul>" +:+ rest
         end).
  { intros url size' base mode inl maxc w0. destruct mode.
    - eexists _, _. split; [reflexivity|]. split; reflexivity.
    - destruct (buildEpisodeShownotes_full source episode url size' base inl maxc w0)
        as (atts & w' & _ & Hrun).
      eexists _, w'. split; [exact Hrun|]. cbn [html].
      destruct (fullHtmlParts_head source episode url size' inl atts) as (rest & ->).
      change (?a :: "<ul>" :: rest) with ([a] ++ ["<ul>"] ++ rest).
      rewrite !join_empty_app. cbn [join]. split; [reflexivity|].
      now eexists. }
  split.
  - destruct (Hbuild episodeUrl fileSizeBytes baseUrl' defaultMode inlineAttachments
                inlineTextMaxChars w) as (notes & w' & Hrun & Htruthy & Hshape).
    exists notes, w'. split; [exact Hrun|]. split.
    { intros Hempty. rewrite Hempty in Htruthy. discriminate. }
    split; [exact Hshape|]. intros fallback. now apply or_else_truthy.
  - unfold episodeItem.
    assert (Hsize : exists n w1, getFileSize O (ep_filePath episode) w = (Ok n, w1)).
    { unfold getFileSize. cbv [try_catch bind stat emit ret].
      destruct (stat_fails O (ep_filePath episode)); [now eexists _, _|].
      cbn [fs]. destruct (fs w !! ep_filePath episode); now eexists _, _. }
    destruct Hsize as (n & w1 & Hsize).
    unfold bind at 1. rewrite Hsize.
    match goal with
    | |- context [buildEpisodeShownotes O source episode ?url n ?base ?mode ?inl ?maxc] =>
        destruct (Hbuild url n base mode inl maxc w1) as (notes & w2 & Hrun & Htruthy & _)
    end.
    unfold bind at 1. rewrite Hrun. unfold ret.
    eexists _, notes, w1, w2. split; [reflexivity|].
    cbn [item_id enclosure_length item_content]. split; [exact Hrun|].
    now apply or_else_truthy.
Qed.

End FeedFacts.

(** Runs of the resolver on the concrete platform. *)

Lemma at_most_one_cached_cover_witness :
  let O := Demo.oracleWith None (fun _ => false) in
  let source := Demo.source (Some "http://h/c.png") None in
  let w := Demo.worldOf [("/srv/.covers/show.jpg", Demo.textFile (-5000000000) "OLD")] in
  let run := @resolveCoverForSource Demo.runtime O Demo.env source w in
  fst run = Ok {| res_coverUrl := Some "/covers/show.png";
                  res_coverCachePath := Some "/srv/.covers/show.png" |}
  /\ exists ext,
       In ext coverExts
       /\ is_Some (fs (snd run) !! ("/srv/.covers/show" +:+ ext))
       /\ forall e, In e coverExts ->
                    is_Some (fs (snd run) !! ("/srv/.covers/show" +:+ e)) -> e = ext.
Proof.
  intros O source w run. split; [vm_compute; reflexivity|].
  destruct (@at_most_one_cached_cover Demo.runtime O Demo.env source w (snd run)
              {| res_coverUrl := Some "/covers/show.png";
                 res_coverCachePath := Some "/srv/.covers/show.png" |})
    as (ext & Hin & _ & Hsome & Honly).
  - intros e He. repeat (destruct He as [<-|He]; [vm_compute; reflexivity|]). destruct He.
  - vm_compute. reflexivity.
  - discriminate.
  - exists ext. repeat split; assumption.
Defined.

(** C1, the claim fails: the download and the cache write succeed, the
    stale variants cannot be deleted, and three cached files are left for
    the one source. *)
Lemma successful_write_can_leave_several_covers :
  let O := Demo.oracleWith None (fun _ => true) in
  let source := Demo.source (Some "http://h/c.png") None in
  let w := Demo.worldOf [("/srv/.covers/show.jpg", Demo.textFile (-5000000000) "OLD");
                         ("/srv/.covers/show.webp", Demo.textFile (-5000000000) "W")] in
  let run := @resolveCoverForSource Demo.runtime O Demo.env source w in
  @downloadSucceeds Demo.runtime O "http://h/c.png" "/srv/.covers/show.png"
  /\ fs (snd run) !! "/srv/.covers/show.png" = Some (writtenFile O "PNGDATA")
  /\ is_Some (fs (snd run) !! "/srv/.covers/show.jpg")
  /\ is_Some (fs (snd run) !! "/srv/.covers/show.webp")
  /\ fst run = Ok emptyResult
  /\ ~ (exists ext, forall e, In e coverExts ->
                      is_Some (fs (snd run) !! ("/srv/.covers/show" +:+ e)) -> e = ext).
Proof.
  intros O source w run. split.
  { exists Demo.imageResponse, "PNGDATA". repeat split; reflexivity. }
  split; [vm_compute; reflexivity|].
  split; [vm_compute; eexists; reflexivity|].
  split; [vm_compute; eexists; reflexivity|].
  split; [vm_compute; reflexivity|].
  intros (ext & Honly).
  assert (Hjpg : ".jpg" = ext).
  { apply Honly; [vm_compute; tauto|vm_compute; eexists; reflexivity]. }
  assert (Hpng : ".png" = ext).
  { apply Honly; [vm_compute; tauto|vm_compute; eexists; reflexivity]. }
  congruence.
Qed.

(** C3, the claim fails: the download and the write succeed, the stale
    [show.jpg] cannot be deleted, and the resolver returns the empty
    result, not the route and path of the cover it has just stored. *)
Lemma failed_delete_returns_empty :
  let O := Demo.oracleWith None (fun _ => true) in
  let source := Demo.source (Some "http://h/c.png") None in
  let w := Demo.worldOf [("/srv/.covers/show.jpg", Demo.textFile (-5000000000) "OLD")] in
  let run := @resolveCoverForSource Demo.runtime O Demo.env source w in
  @downloadSucceeds Demo.runtime O "http://h/c.png" "/srv/.covers/show.png"
  /\ fs (snd run) !! "/srv/.covers/show.png" = Some (writtenFile O "PNGDATA")
  /\ is_Some (fs (snd run) !! "/srv/.covers/show.jpg")
  /\ In (EvRemove "/srv/.covers/show.jpg") (log (snd run))
  /\ fst run = Ok emptyResult
  /\ fst run <> Ok {| res_coverUrl := Some "/covers/show.png";
                      res_coverCachePath := Some "/srv/.covers/show.png" |}.
Proof.
  intros O source w run. split.
  { exists Demo.imageResponse, "PNGDATA". repeat split; reflexivity. }
  split; [vm_compute; reflexivity|].
  split; [vm_compute; eexists; reflexivity|].
  split; [vm_compute; tauto|].
  split; [vm_compute; reflexivity|].
  vm_compute. discriminate.
Qed.

Lemma failed_delete_is_absorbed_witness :
  let O := Demo.oracleWith None (fun _ => true) in
  let source := Demo.source (Some "http://h/c.png") None in
  let w := Demo.worldOf [("/srv/.covers/show.jpg", Demo.textFile (-5000000000) "OLD")] in
  exists w',
    @resolveCoverForSource Demo.runtime O Demo.env source w = (Ok emptyResult, w')
    /\ is_Some (fs w' !! "/srv/.covers/show.png")
    /\ exists e, In e coverExts /\ e <> ".png"
                 /\ is_Some (fs w' !! ("/srv/.covers/show" +:+ e)).
Proof.
  intros O source w.
  apply (@failed_delete_is_absorbed Demo.runtime O Demo.env source w "http://h/c.png" ".jpg").
  - reflexivity.
  - reflexivity.
  - intros e He. repeat (destruct He as [<-|He]; [vm_compute; reflexivity|]). destruct He.
  - vm_compute. reflexivity.
  - reflexivity.
  - exists Demo.imageResponse, "PNGDATA". repeat split; reflexivity.
  - vm_compute. tauto.
  - vm_compute. discriminate.
  - vm_compute. eexists. reflexivity.
  - reflexivity.
Defined.

(** C6, the code at the failing input: the search answers with a result
    whose artwork field is the number 600; the value is truthy, it reaches
    [guessExtFromUrl] outside of any [try], and the resolver throws. *)
Lemma resolve_throws_on_non_string_artwork :
  let O := Demo.oracleWith
             (Some (Demo.jsonResponse
                      (JObj [("results", JArr [JObj [("artworkUrl600", JNum 600)]])])))
             (fun _ => false) in
  let run := @resolveCoverForSource Demo.runtime O Demo.env (Demo.source None None)
               (Demo.worldOf []) in
  fst run = Throw
  /\ log (snd run)
     = [EvPathExists "/srv/.covers/show.jpg";
        EvPathExists "/srv/.covers/show.png";
        EvPathExists "/srv/.covers/show.webp";
        EvFetch "https://itunes.apple.com/search?term=Show&entity=podcast&limit=3&country=cn"
          (Some "application/json")].
Proof. intros O run. split; vm_compute; reflexivity. Qed.

(** C5, the claim fails: a configured URL with a leading blank is not
    fetched as it stands but trimmed, and a configured URL of blanks only
    leads to a search call. *)
Lemma direct_url_is_not_verbatim :
  let O := Demo.oracleWith None (fun _ => false) in
  let padded := @resolveCoverForSource Demo.runtime O Demo.env
                  (Demo.source (Some " http://h/c.png") None) (Demo.worldOf []) in
  let blank := @resolveCoverForSource Demo.runtime O Demo.env
                 (Demo.source (Some " ") None) (Demo.worldOf []) in
  List.filter isFetchEvent (log (snd padded)) = [EvFetch "http://h/c.png" None]
  /\ ~ In (EvFetch " http://h/c.png" None) (log (snd padded))
  /\ In (EvFetch (@searchUrl Demo.runtime "Show" "cn") (Some "application/json"))
       (log (snd blank)).
Proof.
  intros O padded blank. split; [vm_compute; reflexivity|]. split.
  - vm_compute. intros H.
    repeat (destruct H as [H|H]; [discriminate H|]). exact H.
  - vm_compute. tauto.
Qed.

Lemma direct_url_is_fetched_trimmed_witness :
  let O := Demo.oracleWith None (fun _ => false) in
  let source := Demo.source (Some " http://h/c.png") None in
  let w := Demo.worldOf [] in
  exists r w' evs,
    @resolveCoverForSource Demo.runtime O Demo.env source w = (Ok r, w')
    /\ log w' = log w
                ++ probeTrace O (Fin 30) (fs w) "/srv/.covers/show" coverExts
                ++ EvFetch "http://h/c.png" None :: evs
    /\ Forall (fun ev => isFetchEvent ev = false)
         (probeTrace O (Fin 30) (fs w) "/srv/.covers/show" coverExts ++ evs).
Proof.
  intros O source w.
  apply (@direct_url_is_fetched_trimmed Demo.runtime O Demo.env source w).
  - reflexivity.
  - reflexivity.
  - intros e He. repeat (destruct He as [<-|He]; [vm_compute; reflexivity|]). destruct He.
  - vm_compute. reflexivity.
Defined.

(** C4, the claim fails: with a configured search term of one blank and
    the title "Show", the wording picks "Show"; the code picks the blank,
    trims it to the empty string, makes no search and returns the empty
    result. *)
Lemma blank_search_term_stops_search :
  let O := Demo.oracleWith None (fun _ => false) in
  let source := Demo.source None (Some " ") in
  let run := @resolveCoverForSource Demo.runtime O Demo.env source (Demo.worldOf []) in
  searchTermOf source = EmptyString
  /\ searchTerm_as_worded source = "Show"
  /\ fst run = Ok emptyResult
  /\ List.filter isFetchEvent (log (snd run)) = [].
Proof. intros O source run. repeat split; vm_compute; reflexivity. Qed.

Lemma search_term_choice_witness :
  let O := Demo.oracleWith None (fun _ => false) in
  let source := Demo.source None (Some "  My Show ") in
  let w := Demo.worldOf [] in
  searchTermOf source = "My Show"
  /\ exists r w' evs,
       @resolveCoverForSource Demo.runtime O Demo.env source w = (r, w')
       /\ log w' = log w
                   ++ probeTrace O (Fin 30) (fs w) "/srv/.covers/show" coverExts
                   ++ EvFetch (@searchUrl Demo.runtime "My Show" "cn") (Some "application/json")
                      :: evs.
Proof.
  intros O source w.
  destruct (@search_term_choice Demo.runtime O Demo.env source w) as (Hs & _ & _ & Hrun & _).
  - reflexivity.
  - reflexivity.
  - intros e He. repeat (destruct He as [<-|He]; [vm_compute; reflexivity|]). destruct He.
  - vm_compute. reflexivity.
  - split.
    + exact (Hs "  My Show " eq_refl eq_refl).
    + exact (Hrun eq_refl).
Defined.

(** Runs of the shownotes builder on the concrete platform. *)

(** C8, the claim fails where the inline text has white space at its
    ends: a text of one blank is not empty, yet the code renders the link
    alone; a padded text is rendered without its padding. *)
Lemma blank_note_has_no_pre :
  let blank := {| att_fileName := "ep1.md"; att_url := "http://localhost:3000/audio/show/ep1.md";
                  att_kind := KText; att_inlineText := Some " " |} in
  let padded := {| att_fileName := "ep1.md"; att_url := "http://localhost:3000/audio/show/ep1.md";
                   att_kind := KText; att_inlineText := Some " a<b " |} in
  pushNote [] blank = [noteLink blank]
  /\ pushNote_as_worded [] blank = [noteLink blank; "<pre> </pre>"]
  /\ pushNote [] padded = [noteLink padded; "<pre>a&lt;b</pre>"]
  /\ pushNote_as_worded [] padded = [noteLink padded; "<pre> a&lt;b </pre>"]
  /\ pushNote [] blank <> pushNote_as_worded [] blank.
Proof.
  intros blank padded. repeat split; try (vm_compute; reflexivity).
  vm_compute. discriminate.
Qed.

Lemma notes_section_rule_witness :
  let O := Demo.oracleWith None (fun _ => false) in
  let w := Demo.worldOf [("/audio/show/ep1.mp3", Demo.textFile 5000 "MP3");
                         ("/audio/show/ep1.md", Demo.textFile 5000 " # Notes <1> ")] in
  let url := "http://localhost:3000/audio/show/ep1.mp3" in
  is_Some (fs w !! "/audio/show/ep1.md")
  /\ exists atts notes,
       fst (@findSidecarAttachments Demo.runtime O "/audio/show" "ep1.mp3"
              "http://localhost:3000" "show" 100 w) = Ok atts
       /\ fst (@buildEpisodeShownotes Demo.runtime O (Demo.source None None) Demo.episode1 url
                 (Fin 3) "http://localhost:3000" ModeFull InlineAll 100 w) = Ok notes
       /\ In notesHeading
            (@fullHtmlParts Demo.runtime (Demo.source None None) Demo.episode1 url (Fin 3)
               InlineAll atts)
       /\ ~ In notesHeading
              (@fullHtmlParts Demo.runtime (Demo.source None None) Demo.episode1 url (Fin 3)
                 InlineImages atts)
       /\ exists pre post, html notes = pre +:+ "<pre># Notes &lt;1&gt;</pre>" +:+ post.
Proof.
  intros O w url. split; [vm_compute; eexists; reflexivity|].
  destruct (@notes_section_rule Demo.runtime O (Demo.source None None) Demo.episode1 url
              (Fin 3) "http://localhost:3000" InlineAll 100 w)
    as (atts & notes & w' & Hfind & Hbuild & _ & _ & _ & _ & _ & _ & Htext & Hpre & Hall).
  destruct (@notes_section_rule Demo.runtime O (Demo.source None None) Demo.episode1 url
              (Fin 3) "http://localhost:3000" InlineImages 100 w)
    as (atts' & notes' & w'' & Hfind' & _ & _ & _ & _ & _ & _ & _ & _ & _ & Himg).
  assert (atts' = atts) as -> by congruence.
  assert (Hmd : is_Some (fs w !! "/audio/show/ep1.md")) by (vm_compute; eexists; reflexivity).
  exists atts, notes.
  split; [unfold Demo.source, dirPath, dirName, Demo.episode1, ep_fileName in Hfind;
          now rewrite Hfind|].
  split; [now rewrite Hbuild|].
  split; [apply Hall; [exact Hmd|reflexivity]|].
  split; [apply Himg; [exact Hmd|reflexivity]|].
  destruct (proj1 (Hall Hmd)) as (a & Ha & Hname & Hkind).
  destruct (Hpre eq_refl a Ha Hkind) as (_ & Hblock).
  change (exists pre post,
             html notes
             = pre +:+ ("<pre>"
                          +:+ escapeHtml
                                (trim (@inlineTextOf Demo.runtime 100 13
                                         (Demo.textFile 5000 " # Notes <1> ")))
                          +:+ "</pre>") +:+ post).
  apply Hblock; [|reflexivity].
  apply (proj1 (Htext a Ha Hkind)); try rewrite Hname; vm_compute; reflexivity.
Defined.

(** * Further properties *)

(** ** The cover resolver: what a run touches and what it returns *)

Section CoverRuns.
Context {rt : Runtime} (O : oracle) (env : EnvConfig).

Local Abbreviation ttl := (REMOTE_COVER_TTL_DAYS env).
Local Abbreviation baseOf source := (path_join coversDir (dirName source)).

(** The three ways a run of the resolver goes: switched off; a fresh hit
    at an extension; or no hit, an artwork lookup and what is made of it. *)
Lemma resolve_cases (source : PodcastSource) (w : world) :
  resolveCoverForSource O env source w = (Ok emptyResult, w)
  \/ (exists ext,
        In ext coverExts
        /\ freshHit O ttl (fs w) (baseOf source +:+ ext) = true
        /\ find (fun e => freshHit O ttl (fs w) (baseOf source +:+ e)) coverExts = Some ext
        /\ resolveCoverForSource O env source w
           = (Ok (hitResult (baseOf source) (dirName source) ext),
              logged w (probeTrace O ttl (fs w) (baseOf source) coverExts)))
  \/ (noFreshHit O env source w
      /\ exists v evs,
           (forall w0, findArtworkUrl O env source w0 = (Ok v, logged w0 evs))
           /\ resolveCoverForSource O env source w
              = storeArtwork O env source v
                  (logged w (probeTrace O ttl (fs w) (baseOf source) coverExts ++ evs))).
Proof.
  destruct (REMOTE_COVER_ENABLED env) eqn:Hen.
  2:{ left. unfold resolveCoverForSource. now rewrite Hen. }
  destruct (REMOTE_COVER_PROVIDER env) eqn:Hprov.
  { left. unfold resolveCoverForSource. now rewrite Hen, Hprov. }
  right.
  destruct (find (fun e => freshHit O ttl (fs w) (baseOf source +:+ e)) coverExts)
    as [ext|] eqn:Hfind.
  - left. exists ext. pose proof (find_some _ _ Hfind) as [Hin Hfresh].
    repeat split; try assumption.
    rewrite resolve_enabled by assumption.
    unfold bind at 1. rewrite probeCache_run, Hfind. reflexivity.
  - right. assert (Hno : noFreshHit O env source w).
    { intros e He. exact (find_none _ _ Hfind e He). }
    split; [exact Hno|].
    destruct (findArtworkUrl_run O env source) as (v & evs & Hv).
    exists v, evs. split; [exact Hv|].
    now apply resolve_no_hit.
Qed.

(** What storing makes of an artwork value. *)
Lemma storeArtwork_cases (source : PodcastSource) (v : json) (w : world) :
  (jsTruthy v = false /\ storeArtwork O env source v w = (Ok emptyResult, w))
  \/ (jsTruthy v = true /\ (forall url, v <> JStr url)
      /\ storeArtwork O env source v w = (Throw, w))
  \/ (exists url, v = JStr url /\ truthy url = true).
Proof.
  destruct (jsTruthy v) eqn:Htruthy.
  2:{ left. split; [reflexivity|]. unfold storeArtwork. now rewrite Htruthy. }
  right.
  destruct v as [| b | q | url | items | fields];
    try (left; split; [reflexivity|]; split; [discriminate|];
         unfold storeArtwork; rewrite Htruthy; reflexivity).
  right. now exists url.
Qed.

Lemma downloadToFile_succeeded url path timeoutMs w w' :
  downloadToFile O url path timeoutMs w = (Ok tt, w') -> downloadSucceeds O url path.
Proof.
  unfold downloadToFile, bind at 1. rewrite fetch_run.
  destruct (fetch_result O url None) as [res|] eqn:Hres; [|discriminate].
  destruct (ok res) eqn:Hok; cbn [negb]; [|discriminate].
  destruct (arrayBuffer res) as [buf|] eqn:Hbuf; [|discriminate].
  cbv [bind ensureDir writeFile emit ret throw logged fs log].
  destruct (ensureDir_fails O (path_dirname path)) eqn:Hdir; [discriminate|].
  destruct (writeFile_fails O path) eqn:Hwr; [discriminate|].
  intros _. exists res, buf. now repeat split.
Qed.

(** X2. A cover that the resolver returns is there: the path it names is
    the cache file of the source at one of the three extensions, the file
    exists when the run ends, and the route names the same file. *)
Theorem returned_cover_exists (source : PodcastSource) (w w' : world) (r : coverResult) :
  resolveCoverForSource O env source w = (Ok r, w') ->
  r = emptyResult
  \/ exists ext,
       In ext coverExts
       /\ res_coverCachePath r = Some (path_join coversDir (dirName source) +:+ ext)
       /\ res_coverUrl r = Some ("/covers/" +:+ encodeURIComponent (dirName source +:+ ext))
       /\ is_Some (fs w' !! (path_join coversDir (dirName source) +:+ ext)).
Proof.
  intros Hrun.
  destruct (resolve_cases source w) as [H|[(ext & Hin & Hfresh & _ & H)|(_ & v & evs & _ & H)]];
    rewrite H in Hrun.
  - injection Hrun as <- _. now left.
  - injection Hrun as <- <-. right. exists ext. repeat split; [assumption|].
    cbn [fs logged]. apply freshHit_iff in Hfresh as (f & Hf & _). rewrite Hf. now eexists.
  - match type of Hrun with storeArtwork _ _ _ _ ?w1 = _ => set (w0 := w1) in * end.
    destruct (storeArtwork_cases source v w0) as [[_ H']|[(_ & _ & H')|(url & -> & Hurl)]];
      try (rewrite H' in Hrun; injection Hrun as <- _; now left);
      try (rewrite H' in Hrun; discriminate Hrun).
    rewrite storeArtwork_string in Hrun by exact Hurl. cbv zeta in Hrun.
    destruct (downloadToFile O url _ _ w0) as [[[]|] w1] eqn:Hdl;
      [|injection Hrun as <- _; now left].
    destruct (cleanupOldVariants O _ _ w1) as [[[]|] w2] eqn:Hcl;
      [|injection Hrun as <- _; now left].
    injection Hrun as <- <-. right. exists (guessExtFromUrl url).
    repeat split; [apply guessExtFromUrl_cover|].
    apply downloadToFile_written in Hdl as (buf & Hfs).
    pose proof (cleanupVariants_effect _ _ _ _ _ _ _
                  (coverExts_slash_free _ (guessExtFromUrl_cover url)) Hcl) as (_ & Hkeep & _).
    rewrite Hkeep, Hfs, lookup_insert_eq. now eexists.
Qed.

Lemma find_unique {A} `{EqDecision A} (f : A -> bool) (l : list A) (x : A) :
  In x l -> f x = true -> (forall y, In y l -> y <> x -> f y = false) ->
  find f l = Some x.
Proof.
  induction l as [|a l IH]; [intros []|]. intros Hin Hx Hothers. cbn [find].
  destruct (f a) eqn:Ha.
  - f_equal. destruct Hin as [->|Hin]; [reflexivity|].
    destruct (decide (a = x)) as [->|Hne]; [reflexivity|].
    rewrite (Hothers a) in Ha by (assumption || now left). discriminate.
  - destruct Hin as [->|Hin]; [congruence|].
    apply IH; [assumption..|]. intros y Hy. apply Hothers. now right.
Qed.

Lemma logged_inj w a b : logged w a = logged w b -> a = b.
Proof. unfold logged. intros [= H]. now apply app_inv_head in H. Qed.

Lemma filter_no_fetch (evs : list event) :
  Forall (fun ev => isFetchEvent ev = false) evs -> List.filter isFetchEvent evs = [].
Proof.
  induction evs as [|ev evs IH]; [reflexivity|]. intros H.
  apply Forall_cons in H as [H1 H2]. cbn [List.filter]. rewrite H1. now apply IH.
Qed.

(** The artwork lookup makes no call, or the one search call. *)
Lemma findArtworkUrl_events (source : PodcastSource) :
  exists v evs,
    (forall w, findArtworkUrl O env source w = (Ok v, logged w evs))
    /\ (evs = []
        \/ evs = [EvFetch (searchUrl (searchTermOf source) (REMOTE_COVER_COUNTRY env))
                    (Some "application/json")]).
Proof.
  unfold findArtworkUrl.
  destruct (truthy (directUrlOf source)).
  { exists (JStr (directUrlOf source)), []. split; [|now left].
    intros w. now rewrite logged_nil. }
  destruct (truthy (searchTermOf source)).
  - destruct (itunesSearchArtwork_run O (searchTermOf source) (REMOTE_COVER_COUNTRY env)
                (REMOTE_COVER_TIMEOUT_MS env)) as (v & Hv).
    exists v. eexists. split; [exact Hv|now right].
  - exists JNull, []. split; [|now left]. intros w. now rewrite logged_nil.
Qed.

(** X5. No retries: in one run the resolver makes at most one search
    call, for the search term of the source, and then at most one
    download; these are all its fetches. *)
Theorem at_most_one_search_and_one_download (source : PodcastSource) (w w' : world)
    (r : outcome coverResult) :
  resolveCoverForSource O env source w = (r, w') ->
  let search := EvFetch (searchUrl (searchTermOf source) (REMOTE_COVER_COUNTRY env))
                  (Some "application/json") in
  exists evs,
    log w' = log w ++ evs
    /\ (List.filter isFetchEvent evs = []
        \/ List.filter isFetchEvent evs = [search]
        \/ (exists url, List.filter isFetchEvent evs = [EvFetch url None])
        \/ (exists url, List.filter isFetchEvent evs = [search; EvFetch url None])).
Proof.
  intros Hrun search.
  destruct (resolve_cases source w) as [H|[(ext & _ & _ & _ & H)|(_ & v & evs & Hv & H)]];
    rewrite H in Hrun.
  - injection Hrun as <- <-. exists []. rewrite app_nil_r. split; [reflexivity|now left].
  - exists (probeTrace O ttl (fs w) (baseOf source) coverExts).
    split; [|left; apply filter_no_fetch, probeTrace_no_fetch].
    apply (f_equal snd) in Hrun. cbn [snd] in Hrun. now subst w'.
  - destruct (findArtworkUrl_events source) as (v' & evs' & Hv' & Hevs).
    assert (evs = evs') as ->.
    { pose proof (Hv w) as E. rewrite Hv' in E.
      apply (f_equal snd) in E. cbn [snd] in E. symmetry. exact (logged_inj _ _ _ E). }
    clear Hv' v'.
    set (probe := probeTrace O ttl (fs w) (baseOf source) coverExts) in *.
    assert (Hprobe : List.filter isFetchEvent probe = [])
      by apply filter_no_fetch, probeTrace_no_fetch.
    assert (Hfirst : List.filter isFetchEvent (probe ++ evs') = []
                     \/ List.filter isFetchEvent (probe ++ evs') = [search]).
    { rewrite List.filter_app, Hprobe. destruct Hevs as [-> | ->]; [now left|now right]. }
    destruct (storeArtwork_cases source v (logged w (probe ++ evs')))
      as [[_ H']|[(_ & _ & H')|(url & -> & Hurl)]].
    + rewrite H' in Hrun. injection Hrun as <- <-. exists (probe ++ evs').
      split; [reflexivity|]. destruct Hfirst as [-> | ->]; tauto.
    + rewrite H' in Hrun. injection Hrun as <- <-. exists (probe ++ evs').
      split; [reflexivity|]. destruct Hfirst as [-> | ->]; tauto.
    + destruct (storeArtwork_string_log O env source url (logged w (probe ++ evs')) Hurl)
        as (r0 & w0 & more & Hstore & Hlog & Hmore).
      rewrite Hstore in Hrun. injection Hrun as <- <-.
      exists ((probe ++ evs') ++ EvFetch url None :: more).
      split; [rewrite Hlog; cbn [log logged]; now rewrite <- !app_assoc|].
      rewrite List.filter_app. cbn [List.filter isFetchEvent].
      rewrite (filter_no_fetch more Hmore).
      destruct Hfirst as [-> | ->]; cbn [app]; [right; right; left|right; right; right];
        now exists url.
Qed.

(** X6. A TTL that is zero, negative or not a number (an unparsable
    setting) switches the cache off: no file is ever fresh, and the probe
    of every world ends without a hit. *)
Theorem ttl_without_days_never_hits (source : PodcastSource) (w : world) :
  REMOTE_COVER_TTL_DAYS env = NaN
  \/ (exists T, REMOTE_COVER_TTL_DAYS env = Fin T /\ (T <= 0)%Q) ->
  (forall files p, freshHit O ttl files p = false)
  /\ fst (probeCache O env (path_join coversDir (dirName source)) (dirName source)
            coverExts w) = Ok None.
Proof.
  intros Httl.
  assert (Hnever : forall files p, freshHit O ttl files p = false).
  { intros files p. unfold freshHit. destruct (files !! p) as [f|]; [|reflexivity].
    apply andb_false_iff. right.
    destruct Httl as [-> | (T & -> & HT)]; [apply andb_false_r|].
    destruct (freshAge (Fin T) (now O - mtimeMs f)) eqn:E; [|reflexivity].
    apply freshAge_interval in E. lra. }
  split; [exact Hnever|].
  rewrite probeCache_run. cbn [fst]. now rewrite find_no_hit.
Qed.

(** *** The calls of a run *)

Lemma isVariant_ext (base e : string) : In e coverExts -> isVariant base (base +:+ e) = true.
Proof.
  intros He. unfold isVariant. apply existsb_exists.
  exists e. split; [exact He|apply String.eqb_refl].
Qed.

(** The probe looks at variants only, and changes nothing. *)
Lemma probeTrace_calls (O' : oracle) ttlDays files base exts :
  (forall e, In e exts -> In e coverExts) ->
  Forall (fun ev => cacheCall base ev = true /\ isMutation ev = false)
    (probeTrace O' ttlDays files base exts).
Proof.
  induction exts as [|ext rest IH]; intros Hsub; cbn [probeTrace]; [constructor|].
  assert (Hv : isVariant base (base +:+ ext) = true) by (apply isVariant_ext, Hsub; now left).
  constructor; [split; [exact Hv|reflexivity]|].
  apply Forall_app. split.
  - destruct (files !! (base +:+ ext)); [|constructor].
    constructor; [split; [exact Hv|reflexivity]|constructor].
  - destruct (freshHit O' ttlDays files (base +:+ ext)); [constructor|].
    apply IH. intros e He. apply Hsub. now right.
Qed.

(** The calls of [downloadToFile] in their order: the fetch; then, when
    the answer is ok and has a body, [ensureDir]; then, when that went
    well, [writeFile]. *)
Lemma downloadToFile_calls url path timeoutMs w r w' :
  downloadToFile O url path timeoutMs w = (r, w') ->
  exists tail,
    log w' = log w ++ EvFetch url None :: tail
    /\ (tail = [] \/ tail = [EvEnsureDir (path_dirname path)]
        \/ tail = [EvEnsureDir (path_dirname path); EvWriteFile path])
    /\ (requestFails O url -> r = Throw /\ tail = [] /\ fs w' = fs w)
    /\ (r = Ok tt ->
        tail = [EvEnsureDir (path_dirname path); EvWriteFile path]
        /\ exists res buf,
             fetch_result O url None = Some res /\ ok res = true
             /\ arrayBuffer res = Some buf
             /\ fs w' !! path = Some (writtenFile O buf))
    /\ (In (EvWriteFile path) tail -> ensureDir_fails O (path_dirname path) = false).
Proof.
  unfold downloadToFile, bind at 1, requestFails. rewrite fetch_run.
  destruct (fetch_result O url None) as [res|] eqn:Hres.
  2:{ intros Hrun. apply pair_equal_spec in Hrun as [<- <-]. exists [].
      split; [reflexivity|]. split; [now left|]. split; [now repeat split|].
      split; [discriminate|]. intros []. }
  destruct (ok res) eqn:Hok; cbn [negb].
  2:{ intros Hrun. apply pair_equal_spec in Hrun as [<- <-]. exists [].
      split; [reflexivity|]. split; [now left|]. split; [now repeat split|].
      split; [discriminate|]. intros []. }
  destruct (arrayBuffer res) as [buf|] eqn:Hbuf.
  2:{ intros Hrun. apply pair_equal_spec in Hrun as [<- <-]. exists [].
      split; [reflexivity|]. split; [now left|]. split; [now repeat split|].
      split; [discriminate|]. intros []. }
  cbv [bind ensureDir writeFile emit ret throw logged fs log].
  destruct (ensureDir_fails O (path_dirname path)) eqn:Hdir.
  { intros Hrun. apply pair_equal_spec in Hrun as [<- <-]. cbv [fs log].
    exists [EvEnsureDir (path_dirname path)]. rewrite <- app_assoc.
    split; [reflexivity|]. split; [right; now left|].
    split; [intros [H|H]; discriminate H|].
    split; [discriminate|]. intros [H|[]]. discriminate H. }
  destruct (writeFile_fails O path) eqn:Hwr.
  { intros Hrun. apply pair_equal_spec in Hrun as [<- <-]. cbv [fs log].
    exists [EvEnsureDir (path_dirname path); EvWriteFile path]. rewrite <- !app_assoc.
    split; [reflexivity|]. split; [right; now right|].
    split; [intros [H|H]; discriminate H|].
    split; [discriminate|]. reflexivity. }
  intros Hrun. apply pair_equal_spec in Hrun as [<- <-]. cbv [fs log].
  exists [EvEnsureDir (path_dirname path); EvWriteFile path]. rewrite <- !app_assoc.
  split; [reflexivity|]. split; [right; now right|].
  split; [intros [H|H]; discriminate H|].
  split; [|reflexivity].
  intros _. split; [reflexivity|]. exists res, buf.
  split; [reflexivity|]. split; [exact Hok|]. split; [exact Hbuf|].
  apply lookup_insert_eq.
Qed.

(** The cleanup probes and removes other variants only. *)
Lemma cleanupVariants_calls base keep exts w r w' :
  (forall e, In e exts -> In e coverExts) ->
  cleanupVariants O base keep exts w = (r, w') ->
  exists evs, log w' = log w ++ evs /\ Forall (cleanupCall base keep) evs.
Proof.
  revert w. induction exts as [|ext rest IH]; intros w Hsub.
  - intros Hrun. apply pair_equal_spec in Hrun as [<- <-].
    exists []. split; [now rewrite app_nil_r|constructor].
  - assert (Hsub' : forall e, In e rest -> In e coverExts)
      by (intros e He; apply Hsub; now right).
    destruct (String.eqb ext keep) eqn:Hk.
    { cbn [cleanupVariants]. rewrite Hk. now apply IH. }
    rewrite cleanupVariants_step by assumption.
    assert (Hne : ext <> keep) by (intros ->; rewrite String.eqb_refl in Hk; discriminate Hk).
    assert (Hprobe : cleanupCall base keep (EvPathExists (base +:+ ext))).
    { exists ext. split; [apply Hsub; now left|]. split; [exact Hne|now left]. }
    assert (Hremove : cleanupCall base keep (EvRemove (base +:+ ext))).
    { exists ext. split; [apply Hsub; now left|]. split; [exact Hne|now right]. }
    destruct (fs w !! (base +:+ ext)).
    + destruct (remove_fails O (base +:+ ext)).
      * intros Hrun. apply pair_equal_spec in Hrun as [<- <-]. cbn [log].
        eexists. split; [reflexivity|]. now repeat constructor.
      * intros Hrun. destruct (IH _ Hsub' Hrun) as (evs & Hlog & Hall). cbn [log] in Hlog.
        exists ([EvPathExists (base +:+ ext); EvRemove (base +:+ ext)] ++ evs).
        rewrite Hlog, <- app_assoc. split; [reflexivity|].
        constructor; [exact Hprobe|]. constructor; [exact Hremove|exact Hall].
    + intros Hrun. destruct (IH _ Hsub' Hrun) as (evs & Hlog & Hall). cbn [log logged] in Hlog.
      exists (EvPathExists (base +:+ ext) :: evs).
      rewrite Hlog, <- app_assoc. split; [reflexivity|].
      constructor; [exact Hprobe|exact Hall].
Qed.

Lemma cleanupCall_cacheCall base keep ev :
  cleanupCall base keep ev -> cacheCall base ev = true /\ forall p, ev <> EvWriteFile p.
Proof.
  intros (e & He & _ & [-> | ->]); (split; [now apply isVariant_ext|discriminate]).
Qed.

(** What [storeArtwork] calls: the download into the variant of the
    guessed extension, then the cleanup of the others. *)
Lemma storeArtwork_calls (source : PodcastSource) (v : json) (w : world) r w' :
  storeArtwork O env source v w = (r, w') ->
  exists evs,
    log w' = log w ++ evs
    /\ Forall (fun ev => cacheCall (baseOf source) ev = true) evs
    /\ (forall p, In (EvWriteFile p) evs -> ~ In (EvRemove p) evs).
Proof.
  intros Hrun.
  assert (Hnone : exists evs,
             log w = log w ++ evs
             /\ Forall (fun ev => cacheCall (baseOf source) ev = true) evs
             /\ (forall p, In (EvWriteFile p) evs -> ~ In (EvRemove p) evs)).
  { exists []. split; [now rewrite app_nil_r|]. split; [constructor|intros p []]. }
  destruct (storeArtwork_cases source v w) as [[_ H]|[(_ & _ & H)|(url & -> & Hurl)]];
    try (rewrite H in Hrun; apply pair_equal_spec in Hrun as [_ <-]; exact Hnone).
  clear Hnone. rewrite storeArtwork_string in Hrun by exact Hurl. cbv zeta in Hrun.
  set (ext := guessExtFromUrl url) in *.
  assert (Hext : In ext coverExts) by apply guessExtFromUrl_cover.
  destruct (downloadToFile O url _ _ w) as [rd w1] eqn:Hdl.
  destruct (downloadToFile_calls _ _ _ _ _ _ Hdl) as (tail & Hlog & Hshape & _).
  assert (Htail : Forall (fun ev => cacheCall (baseOf source) ev = true) tail
                  /\ (forall p, In (EvWriteFile p) tail -> p = baseOf source +:+ ext)
                  /\ (forall p, ~ In (EvRemove p) tail)).
  { assert (Hdir : cacheCall (baseOf source)
                     (EvEnsureDir (path_dirname (baseOf source +:+ ext))) = true).
    { cbn [cacheCall]. apply existsb_exists. exists ext.
      split; [exact Hext|apply String.eqb_refl]. }
    assert (Hwrite : cacheCall (baseOf source) (EvWriteFile (baseOf source +:+ ext)) = true)
      by now apply isVariant_ext.
    destruct Hshape as [-> | [-> | ->]].
    - split; [constructor|]. split; intros p [].
    - split; [now repeat constructor|].
      split; intros p [H|[]]; discriminate H.
    - split; [now repeat constructor|]. split.
      + intros p [H|[H|[]]]; [discriminate H|]. now injection H as <-.
      + intros p [H|[H|[]]]; discriminate H. }
  destruct Htail as (Hcalls & Hwrites & Hnoremove).
  destruct rd as [[]|].
  2:{ apply pair_equal_spec in Hrun as [_ <-]. exists (EvFetch url None :: tail).
      split; [exact Hlog|]. split; [now constructor|].
      intros p [H|H]; [discriminate H|]. intros [H'|H']; [discriminate H'|].
      exact (Hnoremove p H'). }
  destruct (cleanupOldVariants O _ _ w1) as [rc w2] eqn:Hcl.
  assert (Hw2 : w' = w2) by (destruct rc as [[]|]; now apply pair_equal_spec in Hrun as [_ <-]).
  subst w'. unfold cleanupOldVariants in Hcl.
  destruct (cleanupVariants_calls _ _ _ _ _ _ (fun e He => He) Hcl) as (evs2 & Hlog2 & Hall2).
  exists (EvFetch url None :: tail ++ evs2).
  split; [rewrite Hlog2, Hlog, <- app_assoc; reflexivity|]. split.
  - constructor; [reflexivity|]. apply Forall_app. split; [exact Hcalls|].
    eapply List.Forall_impl; [|exact Hall2]. intros ev Hev.
    exact (proj1 (cleanupCall_cacheCall _ _ _ Hev)).
  - intros p [H|H]; [discriminate H|]. intros [H'|H']; [discriminate H'|].
    apply in_app_or in H as [H|H].
    + pose proof (Hwrites p H) as ->.
      apply in_app_or in H' as [H'|H']; [exact (Hnoremove _ H')|].
      rewrite List.Forall_forall in Hall2.
      destruct (Hall2 _ H') as (e & _ & Hne & [He|He]); [discriminate He|].
      injection He as He. apply (inj (String.app (baseOf source))) in He. congruence.
    + rewrite List.Forall_forall in Hall2.
      destruct (Hall2 _ H) as (e & _ & _ & [He|He]); discriminate He.
Qed.

(** X1. Whatever the collaborators answer and however the run ends,
    every call the resolver makes is about the cache of the source: it
    fetches; it probes, stats, writes and removes only the three variants
    of the cover; it makes only the directory of a variant; it opens and
    reads no file.  And it never removes the variant it has written in the
    same run. *)
Theorem resolver_touches_only_cache_variants (source : PodcastSource) (w w' : world)
    (r : outcome coverResult) :
  resolveCoverForSource O env source w = (r, w') ->
  exists evs,
    log w' = log w ++ evs
    /\ Forall (fun ev => cacheCall (path_join coversDir (dirName source)) ev = true) evs
    /\ (forall p, In (EvWriteFile p) evs -> ~ In (EvRemove p) evs).
Proof.
  intros Hrun.
  pose proof (probeTrace_calls O ttl (fs w) (baseOf source) coverExts (fun e He => He))
    as Hprobe.
  assert (Hquiet : forall pre evs,
             Forall (fun ev => cacheCall (baseOf source) ev = true /\ isMutation ev = false) pre ->
             Forall (fun ev => cacheCall (baseOf source) ev = true) evs ->
             (forall p, In (EvWriteFile p) evs -> ~ In (EvRemove p) evs) ->
             Forall (fun ev => cacheCall (baseOf source) ev = true) (pre ++ evs)
             /\ (forall p, In (EvWriteFile p) (pre ++ evs) -> ~ In (EvRemove p) (pre ++ evs))).
  { intros pre evs Hpre Hevs Hwr. split.
    - apply Forall_app. split; [|exact Hevs].
      eapply List.Forall_impl; [|exact Hpre]. now intros ev [H _].
    - rewrite List.Forall_forall in Hpre. intros p Hin Hin'.
      apply in_app_or in Hin as [Hin|Hin]; [now destruct (Hpre _ Hin) as [_ H]|].
      apply in_app_or in Hin' as [Hin'|Hin']; [now destruct (Hpre _ Hin') as [_ H]|].
      exact (Hwr p Hin Hin'). }
  destruct (resolve_cases source w) as [H|[(ext & _ & _ & _ & H)|(_ & v & evs & Hv & H)]];
    rewrite H in Hrun.
  - apply pair_equal_spec in Hrun as [_ <-]. exists [].
    split; [now rewrite app_nil_r|]. split; [constructor|intros p []].
  - apply pair_equal_spec in Hrun as [_ <-]. eexists. split; [reflexivity|].
    rewrite <- (app_nil_r (probeTrace _ _ _ _ _)).
    apply Hquiet; [exact Hprobe|constructor|intros p []].
  - destruct (storeArtwork_calls source v _ r w' Hrun) as (evs' & Hlog & Hcalls & Hwr).
    cbn [log logged] in Hlog.
    exists ((probeTrace O ttl (fs w) (baseOf source) coverExts ++ evs) ++ evs').
    split; [rewrite Hlog, <- !app_assoc; reflexivity|].
    apply Hquiet; [|exact Hcalls|exact Hwr].
    apply Forall_app. split; [exact Hprobe|].
    destruct (findArtworkUrl_events source) as (v' & evs0 & Hv' & Hshape).
    assert (evs = evs0) as ->.
    { pose proof (Hv w) as E. rewrite Hv' in E.
      apply pair_equal_spec in E as [_ E]. symmetry. exact (logged_inj _ _ _ E). }
    destruct Hshape as [-> | ->]; repeat constructor.
Qed.

(** X4. A download that fails is absorbed, and no cleanup follows it.
    The resolver returns the empty result; after the fetch of the artwork
    it calls at most [ensureDir] and [writeFile], for the variant of the
    guessed extension, and it removes nothing.  When the request itself
    fails no file is touched at all; in every case what was in the cache
    at another path, a stale cover for one, is still there as it was. *)
Theorem failed_download_skips_cleanup (source : PodcastSource) (w : world) (url : string) :
  REMOTE_COVER_ENABLED env = true ->
  REMOTE_COVER_PROVIDER env = ProviderItunes ->
  noFreshHit O env source w ->
  fst (findArtworkUrl O env source w) = Ok (JStr url) ->
  truthy url = true ->
  ~ downloadSucceeds O url (path_join coversDir (dirName source) +:+ guessExtFromUrl url) ->
  let path := path_join coversDir (dirName source) +:+ guessExtFromUrl url in
  exists w' pre tail,
    resolveCoverForSource O env source w = (Ok emptyResult, w')
    /\ log w' = log w ++ pre ++ EvFetch url None :: tail
    /\ Forall (fun ev => isMutation ev = false) pre
    /\ (tail = [] \/ tail = [EvEnsureDir (path_dirname path)]
        \/ tail = [EvEnsureDir (path_dirname path); EvWriteFile path])
    /\ (requestFails O url -> tail = [] /\ fs w' = fs w)
    /\ (forall q f, q <> path -> fs w !! q = Some f -> fs w' !! q = Some f).
Proof.
  intros Hen Hprov Hno Hart Hurl Hfail path.
  destruct (findArtworkUrl_events source) as (v & evs & Hv & Hshape).
  rewrite Hv in Hart. cbn [fst] in Hart. injection Hart as ->.
  rewrite (resolve_no_hit O env source w _ evs Hen Hprov Hno Hv).
  rewrite storeArtwork_string by exact Hurl. cbv zeta.
  destruct (downloadToFile O url _ _ _) as [[[]|] w1] eqn:Hdl.
  { apply downloadToFile_succeeded in Hdl. contradiction. }
  destruct (downloadToFile_calls _ _ _ _ _ _ Hdl) as (tail & Hlog & Htail & Hreq & _).
  pose proof (downloadToFile_effect O _ _ _ _ _ _ Hdl) as (_ & Hstay).
  cbn [log logged fs] in Hlog, Hreq, Hstay.
  exists w1, (probeTrace O ttl (fs w) (baseOf source) coverExts ++ evs), tail.
  split; [reflexivity|]. split; [rewrite Hlog, <- !app_assoc; reflexivity|].
  split.
  { apply Forall_app. split.
    - eapply List.Forall_impl; [|exact (probeTrace_calls O ttl (fs w) (baseOf source) coverExts
                                     (fun e He => He))].
      now intros ev [_ H].
    - destruct Hshape as [-> | ->]; repeat constructor. }
  split; [exact Htail|]. split.
  - intros Hr. destruct (Hreq Hr) as (_ & Ht & Hfs). now split.
  - exact Hstay.
Qed.

End CoverRuns.

(** ** A later run *)

Section TwoRuns.
Context {rt : Runtime} (O1 O2 : oracle) (env : EnvConfig).

Local Abbreviation baseOf source := (path_join coversDir (dirName source)).

(** X3. A later run reuses a downloaded cover while it is fresh by its
    own clock.  Let a run download a cover (no fresh hit, a cover
    returned); the file carries the modification time the file system
    gave it.  In a later run, under other answers of the collaborators
    and another reading of the clock, the cover is served from the cache,
    without any fetch and without a change to the files, when [stat]
    works and the age of the file is at least zero and below the TTL.  When
    [stat] fails, the age is negative (the file is stamped ahead of the
    clock) or the TTL is over, the probe finds nothing fresh and the
    later run goes on to look for an artwork again. *)
Theorem downloaded_cover_is_reused_while_fresh (source : PodcastSource) (w w' : world)
    (r : coverResult) (T : Q) :
  resolveCoverForSource O1 env source w = (Ok r, w') ->
  r <> emptyResult ->
  noFreshHit O1 env source w ->
  REMOTE_COVER_TTL_DAYS env = Fin T ->
  exists ext,
    In ext coverExts
    /\ r = hitResult (baseOf source) (dirName source) ext
    /\ (stat_fails O2 (baseOf source +:+ ext) = false ->
        (0 <= now O2 - written_mtime O1)%Q ->
        (now O2 - written_mtime O1 < T * 86400000)%Q ->
        exists evs,
          resolveCoverForSource O2 env source w' = (Ok r, logged w' evs)
          /\ Forall (fun ev => isFetchEvent ev = false) evs)
    /\ (stat_fails O2 (baseOf source +:+ ext) = true
        \/ (now O2 - written_mtime O1 < 0)%Q
        \/ (T * 86400000 <= now O2 - written_mtime O1)%Q ->
        noFreshHit O2 env source w').
Proof.
  intros Hrun Hr Hno Httl.
  destruct (REMOTE_COVER_ENABLED env) eqn:Hen.
  2:{ unfold resolveCoverForSource in Hrun. rewrite Hen in Hrun.
      apply pair_equal_spec in Hrun as [Hrun _]. congruence. }
  destruct (REMOTE_COVER_PROVIDER env) eqn:Hprov.
  { unfold resolveCoverForSource in Hrun. rewrite Hen, Hprov in Hrun.
    apply pair_equal_spec in Hrun as [Hrun _]. congruence. }
  destruct (findArtworkUrl_run O1 env source) as (v & evs & Hv).
  rewrite (resolve_no_hit O1 env source w v evs Hen Hprov Hno Hv) in Hrun.
  match type of Hrun with storeArtwork _ _ _ _ ?w1 = _ => set (w0 := w1) in * end.
  destruct (storeArtwork_cases O1 env source v w0) as [[_ H']|[(_ & _ & H')|(url & -> & Hurl)]];
    try (rewrite H' in Hrun; apply pair_equal_spec in Hrun as [Hrun _]; congruence).
  rewrite storeArtwork_string in Hrun by exact Hurl. cbv zeta in Hrun.
  set (ext := guessExtFromUrl url) in *.
  assert (Hext : In ext coverExts) by apply guessExtFromUrl_cover.
  destruct (downloadToFile O1 url _ _ w0) as [[[]|] w1] eqn:Hdl;
    [|apply pair_equal_spec in Hrun as [Hrun _]; congruence].
  destruct (cleanupOldVariants O1 _ _ w1) as [[[]|] w2] eqn:Hcl;
    [|apply pair_equal_spec in Hrun as [Hrun _]; congruence].
  apply pair_equal_spec in Hrun as [Hrun <-]. injection Hrun as <-.
  apply downloadToFile_written in Hdl as (buf & Hfs).
  pose proof (cleanupVariants_effect O1 _ _ _ _ _ _ (coverExts_slash_free _ Hext) Hcl)
    as (_ & Hkeep & _).
  assert (Hfile : fs w2 !! (baseOf source +:+ ext) = Some (writtenFile O1 buf))
    by (rewrite Hkeep, Hfs; apply lookup_insert_eq).
  assert (Hothers : forall e, In e coverExts -> e <> ext ->
                              fs w2 !! (baseOf source +:+ e) = None)
    by exact (cleanupVariants_ok O1 _ _ _ _ _ Hcl).
  exists ext. split; [exact Hext|]. split; [reflexivity|]. split.
  - intros Hstat H0 H1.
    exists (probeTrace O2 (REMOTE_COVER_TTL_DAYS env) (fs w2) (baseOf source) coverExts).
    split; [|apply probeTrace_no_fetch].
    rewrite resolve_enabled by assumption.
    unfold bind at 1. rewrite probeCache_run.
    rewrite (find_unique _ coverExts ext Hext); [reflexivity| |].
    + apply freshHit_iff. exists (writtenFile O1 buf).
      split; [exact Hfile|]. split; [exact Hstat|].
      rewrite Httl. apply freshAge_interval. cbn [mtimeMs writtenFile]. split; assumption.
    + intros e He Hne. unfold freshHit. now rewrite (Hothers e He Hne).
  - intros Hstale e He. unfold freshHit.
    destruct (decide (e = ext)) as [->|Hne]; [|now rewrite (Hothers e He Hne)].
    rewrite Hfile. apply andb_false_iff.
    destruct Hstale as [Hstat|Hage]; [left; now rewrite Hstat|right].
    destruct (freshAge (REMOTE_COVER_TTL_DAYS env) (now O2 - mtimeMs (writtenFile O1 buf)))
      eqn:E; [|reflexivity].
    rewrite Httl in E. apply freshAge_interval in E. cbn [mtimeMs writtenFile] in E.
    destruct Hage; lra.
Qed.

End TwoRuns.

(** ** Strings *)

Section StringFacts.

Lemma rev_app_append (a b : string) : String.rev_app a b = String.rev a +:+ b.
Proof.
  revert b. induction a as [|c a IH]; intros b; [reflexivity|].
  unfold String.rev. cbn [String.rev_app]. rewrite (IH (String c b)), (IH (String c EmptyString)).
  now rewrite append_assoc.
Qed.

Lemma rev_cons (c : ascii) (a : string) :
  String.rev (String c a) = String.rev a +:+ String c EmptyString.
Proof. unfold String.rev at 1. cbn [String.rev_app]. apply rev_app_append. Qed.

Lemma rev_append (a b : string) : String.rev (a +:+ b) = String.rev b +:+ String.rev a.
Proof.
  induction a as [|c a IH].
  - change (EmptyString +:+ b) with b. change (String.rev EmptyString) with EmptyString.
    now rewrite append_empty_r.
  - change (String c a +:+ b) with (String c (a +:+ b)).
    now rewrite !rev_cons, IH, append_assoc.
Qed.

Lemma rev_involutive (a : string) : String.rev (String.rev a) = a.
Proof.
  induction a as [|c a IH]; [reflexivity|].
  rewrite rev_cons, rev_append, IH. reflexivity.
Qed.

Lemma allUnits_append ok (a b : string) :
  allUnits ok (a +:+ b) = allUnits ok a && allUnits ok b.
Proof.
  induction a as [|c a IH]; [reflexivity|].
  change (String c a +:+ b) with (String c (a +:+ b)). cbn [allUnits].
  now rewrite IH, andb_assoc.
Qed.

Lemma allUnits_rev ok (a : string) : allUnits ok (String.rev a) = allUnits ok a.
Proof.
  induction a as [|c a IH]; [reflexivity|].
  rewrite rev_cons, allUnits_append, IH. cbn [allUnits].
  rewrite andb_true_r. apply andb_comm.
Qed.

Lemma startsWith_append (p s : string) : startsWith p (p +:+ s) = true.
Proof.
  induction p as [|c p IH]; [reflexivity|].
  change (String c p +:+ s) with (String c (p +:+ s)). cbn [startsWith].
  now rewrite Ascii.eqb_refl, IH.
Qed.

Lemma endsWith_append (suf s : string) : endsWith suf (s +:+ suf) = true.
Proof. unfold endsWith. rewrite rev_append. apply startsWith_append. Qed.

Lemma toLowerCase_append (a b : string) :
  toLowerCase (a +:+ b) = toLowerCase a +:+ toLowerCase b.
Proof.
  induction a as [|c a IH]; [reflexivity|].
  change (String c a +:+ b) with (String c (a +:+ b)). cbn [toLowerCase].
  rewrite IH. reflexivity.
Qed.

Lemma beforeFirst_sep (sep : ascii) (a b : string) :
  beforeFirst sep (a +:+ String sep b) = beforeFirst sep a.
Proof.
  induction a as [|c a IH].
  - change (EmptyString +:+ String sep b) with (String sep b). cbn [beforeFirst].
    now rewrite Ascii.eqb_refl.
  - change (String c a +:+ String sep b) with (String c (a +:+ String sep b)).
    cbn [beforeFirst]. now rewrite IH.
Qed.

Lemma beforeFirst_none (sep : ascii) (a : string) :
  allUnits (isNot sep) a = true -> beforeFirst sep a = a.
Proof.
  induction a as [|c a IH]; [reflexivity|]. cbn [allUnits beforeFirst].
  intros H. apply andb_true_iff in H as [Hc Ha]. unfold isNot in Hc.
  apply negb_true_iff in Hc. now rewrite Hc, IH.
Qed.

Lemma lowerChar_question (c : ascii) : isNot "?" c = true -> isNot "?" (lowerChar c) = true.
Proof. destruct c as [[] [] [] [] [] [] [] []]; intros H; vm_compute in H |- *; congruence. Qed.

Lemma toLowerCase_question (a : string) :
  allUnits (isNot "?") a = true -> allUnits (isNot "?") (toLowerCase a) = true.
Proof.
  induction a as [|c a IH]; [reflexivity|]. cbn [allUnits toLowerCase].
  intros H. apply andb_true_iff in H as [Hc Ha].
  now rewrite lowerChar_question, IH.
Qed.

End StringFacts.

(** ** [guessExtFromUrl] *)

Section GuessExt.

(** The extension of a path without query, in lower case. *)
Lemma guessExt_of_lower (path : string) :
  guessExtFromUrl path
  = let lower := beforeFirst "?" (toLowerCase path) in
    if endsWith ".png" lower then ".png"
    else if endsWith ".webp" lower then ".webp"
    else ".jpg".
Proof.
  unfold guessExtFromUrl. cbv zeta.
  repeat match goal with |- context [if ?b then _ else _] => destruct b end; reflexivity.
Qed.

Lemma lower_path_with_suffix (stem suffix lowered : string) :
  allUnits (isNot "?") stem = true ->
  allUnits (isNot "?") lowered = true ->
  toLowerCase suffix = lowered ->
  beforeFirst "?" (toLowerCase (stem +:+ suffix)) = toLowerCase stem +:+ lowered.
Proof.
  intros Hstem Hlow Hsuf. rewrite toLowerCase_append, Hsuf.
  apply beforeFirst_none. rewrite allUnits_append, Hlow.
  now rewrite toLowerCase_question.
Qed.

(** X7. [guessExtFromUrl] always answers with one of [.jpg], [.png],
    [.webp]; it does not look at the query string; and on a path without
    a question mark it goes by the last code units whatever their case:
    [.png] gives [.png], [.webp] gives [.webp], [.jpg] and [.jpeg] give
    [.jpg]. *)
Theorem guessExt_by_path_suffix (url query stem suffix : string) :
  In (guessExtFromUrl url) coverExts
  /\ guessExtFromUrl (url +:+ "?" +:+ query) = guessExtFromUrl url
  /\ (allUnits (isNot "?") stem = true ->
      (toLowerCase suffix = ".png" -> guessExtFromUrl (stem +:+ suffix) = ".png")
      /\ (toLowerCase suffix = ".webp" -> guessExtFromUrl (stem +:+ suffix) = ".webp")
      /\ (toLowerCase suffix = ".jpg" -> guessExtFromUrl (stem +:+ suffix) = ".jpg")
      /\ (toLowerCase suffix = ".jpeg" -> guessExtFromUrl (stem +:+ suffix) = ".jpg")).
Proof.
  split; [apply guessExtFromUrl_cover|]. split.
  - unfold guessExtFromUrl. rewrite toLowerCase_append.
    change (toLowerCase ("?" +:+ query)) with (String "?" (toLowerCase query)).
    now rewrite beforeFirst_sep.
  - intros Hstem. repeat split; intros Hsuf; rewrite guessExt_of_lower; cbv zeta;
      rewrite (fun H => lower_path_with_suffix stem suffix _ Hstem H Hsuf) by reflexivity.
    + now rewrite endsWith_append.
    + unfold endsWith at 1. rewrite rev_append.
      change (startsWith (String.rev ".png") (String.rev ".webp" +:+ String.rev (toLowerCase stem)))
        with false. cbv iota. now rewrite endsWith_append.
    + unfold endsWith. rewrite !rev_append. reflexivity.
    + unfold endsWith. rewrite !rev_append. reflexivity.
Qed.

End GuessExt.

(** ** [stemOf], the audio file name without its extension *)

Section StemOf.

Lemma spanExt_ext (ext rest : string) (c : ascii) :
  allUnits extUnit ext = true -> extUnit c = false ->
  spanExt (ext +:+ String c rest) = (ext, String c rest).
Proof.
  intros Hext Hc. induction ext as [|x ext IH].
  - change (EmptyString +:+ String c rest) with (String c rest). cbn [spanExt].
    unfold extUnit in Hc. apply negb_false_iff in Hc. now rewrite Hc.
  - change (String x ext +:+ String c rest) with (String x (ext +:+ String c rest)).
    cbn [allUnits] in Hext. apply andb_true_iff in Hext as [Hx Hext].
    cbn [spanExt]. unfold extUnit in Hx. apply negb_true_iff in Hx. rewrite Hx.
    now rewrite (IH Hext).
Qed.

Lemma spanExt_all (s : string) :
  allUnits extUnit s = true -> spanExt s = (s, EmptyString).
Proof.
  induction s as [|x s IH]; [reflexivity|]. cbn [allUnits spanExt].
  intros H. apply andb_true_iff in H as [Hx Hs].
  unfold extUnit in Hx. apply negb_true_iff in Hx. now rewrite Hx, (IH Hs).
Qed.

(** What [spanExt] splits off: a run of extension units, before the end
    or before a dot or a slash. *)
Lemma spanExt_spec (s : string) :
  exists a b,
    spanExt s = (a, b) /\ s = a +:+ b /\ allUnits extUnit a = true
    /\ (b = EmptyString \/ exists c b', b = String c b' /\ extUnit c = false).
Proof.
  induction s as [|x s (a & b & Hspan & Hs & Ha & Hb)].
  - exists EmptyString, EmptyString. repeat split. now left.
  - cbn [spanExt]. destruct (Ascii.eqb x "." || Ascii.eqb x "/") eqn:Hx.
    + exists EmptyString, (String x s). repeat split. right. exists x, s.
      split; [reflexivity|]. unfold extUnit. now rewrite Hx.
    + rewrite Hspan. exists (String x a), b. repeat split.
      * now rewrite Hs.
      * cbn [allUnits]. unfold extUnit at 1. now rewrite Hx, Ha.
      * exact Hb.
Qed.

(** X8. [stemOf] takes the extension off and nothing else: a name
    [stem.ext], where [ext] is not empty and holds no dot and no slash,
    gives [stem]; and every name is its stem followed by nothing or by a
    dot and such an extension. *)
Theorem stemOf_strips_one_extension (name stem ext : string) :
  (ext <> EmptyString -> allUnits extUnit ext = true ->
   stemOf (stem +:+ "." +:+ ext) = stem)
  /\ (stemOf name = name
      \/ exists e, e <> EmptyString /\ allUnits extUnit e = true
                   /\ name = stemOf name +:+ "." +:+ e).
Proof.
  split.
  - intros Hne Hext. unfold stemOf.
    rewrite !rev_append. change (String.rev ".") with ".".
    rewrite append_assoc. change ("." +:+ String.rev stem) with (String "." (String.rev stem)).
    rewrite spanExt_ext; [|now rewrite allUnits_rev|reflexivity].
    destruct (String.rev ext) as [|c r] eqn:Hrev.
    + apply (f_equal String.rev) in Hrev. rewrite rev_involutive in Hrev. contradiction.
    + exact (rev_involutive stem).
  - unfold stemOf.
    destruct (spanExt_spec (String.rev name)) as (a & b & Hspan & Hs & Ha & Hb).
    rewrite Hspan.
    destruct a as [|x a]; [now left|].
    destruct b as [|c b]; [now left|].
    destruct (Ascii.eqb_spec c ".") as [->|_]; [|now left].
    right. exists (String.rev (String x a)). split; [|split].
    + intros H. apply (f_equal String.rev) in H. rewrite rev_involutive in H. discriminate H.
    + now rewrite allUnits_rev.
    + apply (f_equal String.rev) in Hs. rewrite rev_involutive in Hs.
      rewrite Hs, rev_append, rev_cons, append_assoc. reflexivity.
Qed.

End StemOf.

(** ** [formatDate] *)

Section FormatDate.
Context {rt : Runtime}.

Lemma replaceFirst_unit (c : ascii) (rep a b : string) :
  allUnits (isNot c) a = true ->
  replaceFirst (String c EmptyString) rep (a +:+ String c b) = a +:+ rep +:+ b.
Proof.
  intros Ha. induction a as [|x a IH].
  - change (EmptyString +:+ String c b) with (String c b). cbn [replaceFirst startsWith].
    rewrite Ascii.eqb_refl. reflexivity.
  - change (String x a +:+ String c b) with (String x (a +:+ String c b)).
    cbn [allUnits] in Ha. apply andb_true_iff in Ha as [Hx Ha].
    cbn [replaceFirst startsWith]. unfold isNot in Hx. apply negb_true_iff in Hx.
    rewrite Ascii.eqb_sym, Hx. cbn [andb]. now rewrite (IH Ha).
Qed.

(** X9. [formatDate] on an ISO instant [<day>T<time>Z] gives
    [<day> <time> UTC]; when [toISOString] throws (an invalid date) it
    falls back to the default string form of the date. *)
Theorem formatDate_iso (date : Date) (day time : string) :
  (toISOString date = None -> formatDate date = dateToString date)
  /\ (toISOString date = Some (day +:+ "T" +:+ time +:+ "Z") ->
      allUnits (isNot "T") day = true ->
      allUnits (isNot "Z") day = true ->
      allUnits (isNot "Z") time = true ->
      formatDate date = day +:+ " " +:+ time +:+ " UTC").
Proof.
  unfold formatDate. split; [now intros ->|].
  intros -> HT HZ HZt.
  change (day +:+ "T" +:+ time +:+ "Z") with (day +:+ String "T" (time +:+ "Z")).
  rewrite (replaceFirst_unit "T" " " day _ HT).
  rewrite <- !append_assoc.
  change (((day +:+ " ") +:+ time) +:+ "Z") with (((day +:+ " ") +:+ time) +:+ String "Z" EmptyString).
  rewrite (replaceFirst_unit "Z" " UTC").
  - now rewrite append_empty_r, !append_assoc.
  - rewrite !allUnits_append, HZ, HZt. reflexivity.
Qed.

End FormatDate.

(** ** [escapeHtml] as a map on strings *)

Section EscapeAlgebra.

#[local] Arguments Ascii.eqb : simpl never.

Local Abbreviation escaped := (escapedBy ["'"; dquote; ">"; "<"; "&"]%char).

Lemma expand_append (f : ascii -> string) (a b : string) :
  expand f (a +:+ b) = expand f a +:+ expand f b.
Proof.
  induction a as [|c a IH]; [reflexivity|].
  change (String c a +:+ b) with (String c (a +:+ b)). cbn [expand].
  now rewrite IH, append_assoc.
Qed.

Lemma unescape_escape (s : string) : unescapeHtml (escapeHtml s) = s.
Proof.
  unfold unescapeHtml. rewrite escapeHtml_expand.
  rewrite unescape_pass_lt, unescape_pass_gt, unescape_pass_quot,
    unescape_pass_apos, unescape_pass_amp.
  apply expand_id.
Qed.

Lemma escaped_plain (c : ascii) : plainUnit c = true -> escaped c = String c EmptyString.
Proof.
  unfold plainUnit, escapedBy. cbn [existsb]. intros H. apply negb_true_iff in H.
  repeat (apply orb_false_iff in H as [H ?]).
  repeat match goal with E : Ascii.eqb _ _ = false |- _ => rewrite E; clear E end.
  reflexivity.
Qed.

Lemma escaped_longer (c : ascii) :
  plainUnit c = false -> (2 <= String.length (escaped c))%nat.
Proof.
  unfold plainUnit, escapedBy, entityOf. cbn [existsb]. intros H. apply negb_false_iff in H.
  destruct (Ascii.eqb_spec c "&") as [E|?]; [subst c; vm_compute; lia|].
  destruct (Ascii.eqb_spec c "<") as [E|?]; [subst c; vm_compute; lia|].
  destruct (Ascii.eqb_spec c ">") as [E|?]; [subst c; vm_compute; lia|].
  destruct (Ascii.eqb_spec c dquote) as [E|?]; [subst c; vm_compute; lia|].
  destruct (Ascii.eqb_spec c "'") as [E|?]; [subst c; vm_compute; lia|].
  discriminate H.
Qed.

Lemma escaped_length (c : ascii) : (1 <= String.length (escaped c))%nat.
Proof.
  destruct (plainUnit c) eqn:H.
  - rewrite escaped_plain by assumption. cbn. lia.
  - pose proof (escaped_longer c H). lia.
Qed.

Lemma expand_length (s : string) :
  (String.length s <= String.length (expand escaped s))%nat
  /\ (allUnits plainUnit s = false ->
      (String.length s < String.length (expand escaped s))%nat).
Proof.
  induction s as [|c s [IHle IHlt]]; [split; [cbn; lia|discriminate]|].
  cbn [expand allUnits]. rewrite length_append. cbn [String.length].
  pose proof (escaped_length c) as Hone. split; [lia|].
  intros Hc. apply andb_false_iff in Hc as [Hc|Hc].
  - pose proof (escaped_longer c Hc). lia.
  - specialize (IHlt Hc). lia.
Qed.

Lemma expand_plain (s : string) : allUnits plainUnit s = true -> expand escaped s = s.
Proof.
  induction s as [|c s IH]; [reflexivity|]. cbn [allUnits expand].
  intros H. apply andb_true_iff in H as [Hc Hs].
  rewrite (escaped_plain c Hc), (IH Hs). reflexivity.
Qed.

(** X10. [escapeHtml] works code unit by code unit: the escape of a
    concatenation is the concatenation of the escapes, and two different
    strings never have the same escape. *)
Theorem escapeHtml_concat_injective (a b : string) :
  escapeHtml (a +:+ b) = escapeHtml a +:+ escapeHtml b
  /\ (escapeHtml a = escapeHtml b -> a = b).
Proof.
  split.
  - rewrite !escapeHtml_expand. apply expand_append.
  - intros H. apply (f_equal unescapeHtml) in H. now rewrite !unescape_escape in H.
Qed.

(** X11. [escapeHtml] never shortens a string, and it returns the string
    as it is exactly when the string holds none of [&], [<], [>], the
    double quote and the apostrophe. *)
Theorem escapeHtml_fixes_plain_strings (s : string) :
  (String.length s <= String.length (escapeHtml s))%nat
  /\ (escapeHtml s = s <-> allUnits plainUnit s = true).
Proof.
  rewrite escapeHtml_expand. split; [apply expand_length|]. split.
  - intros H. destruct (allUnits plainUnit s) eqn:Hs; [reflexivity|].
    pose proof (proj2 (expand_length s) Hs) as Hlt. rewrite H in Hlt. lia.
  - apply expand_plain.
Qed.

End EscapeAlgebra.

(** ** [formatBytes] on file sizes *)

Section FormatBytesSizes.
Context {rt : Runtime}.

Lemma Qfloor_half (n : Z) : Qfloor (inject_Z n * inject_Z 1 + (1 # 2)) = n.
Proof.
  unfold Qfloor, inject_Z, Qmult, Qplus. cbn [Qnum Qden].
  replace (n * 1 * Z.pos 2 + 1 * Z.pos (1 * 1))%Z with (1 + n * 2)%Z by lia.
  change (Z.pos (1 * 1 * 2)) with 2%Z.
  rewrite Z.div_add by lia. reflexivity.
Qed.

(** X12. A whole number of bytes from 1 to 1023 is printed as it is,
    followed by [ B]: no rounding, no decimals. *)
Theorem formatBytes_below_1024 (n : Z) :
  (0 < n < 1024)%Z ->
  formatBytes (Fin (inject_Z n)) = digitsOf n +:+ " B".
Proof.
  intros Hn. unfold formatBytes. cbn [isFinite negb orb nonPositive].
  assert (Hpos : Qle_bool (inject_Z n) 0 = false).
  { destruct (Qle_bool (inject_Z n) 0) eqn:E; [|reflexivity].
    apply Qle_bool_iff in E. change 0%Q with (inject_Z 0) in E.
    rewrite <- Zle_Qle in E. lia. }
  rewrite Hpos.
  assert (Hsmall : Qle_bool 1024 (inject_Z n) = false).
  { destruct (Qle_bool 1024 (inject_Z n)) eqn:E; [|reflexivity].
    apply Qle_bool_iff in E. change 1024%Q with (inject_Z 1024) in E.
    rewrite <- Zle_Qle in E. lia. }
  cbn [length units scale]. rewrite Hsmall. cbn [andb].
  unfold fixedDigits. cbn [Nat.eqb]. unfold toFixed.
  assert (Habs : Qabs (inject_Z n) = inject_Z n).
  { unfold Qabs, inject_Z. f_equal. apply Z.abs_eq. lia. }
  rewrite Habs.
  assert (Hbig : Qle_bool (inject_Z (10 ^ 21)) (inject_Z n) = false).
  { destruct (Qle_bool (inject_Z (10 ^ 21)) (inject_Z n)) eqn:E; [|reflexivity].
    apply Qle_bool_iff in E. rewrite <- Zle_Qle in E. lia. }
  rewrite Hbig.
  assert (Hsign : Qle_bool 0 (inject_Z n) = true).
  { apply Qle_bool_iff. change 0%Q with (inject_Z 0). rewrite <- Zle_Qle. lia. }
  rewrite Hsign. change (10 ^ Z.of_nat 0)%Z with 1%Z. rewrite Qfloor_half.
  reflexivity.
Qed.

End FormatBytesSizes.

(** ** The attachment locator *)

Section SidecarFacts.
Context {rt : Runtime} (O : oracle).

Lemma sidecarLoop_order dirPath' baseUrl' dirName' stem maxChars exts results w :
  exists atts w',
    sidecarLoop O dirPath' baseUrl' dirName' stem maxChars exts results w
    = (Ok (results ++ atts), w')
    /\ fs w' = fs w
    /\ map faceOf atts
       = map (attachmentFace baseUrl' dirName' stem) (presentExts (fs w) dirPath' stem exts).
Proof.
  revert results w. induction exts as [|ext rest IH]; intros results w.
  - exists [], w. cbn [sidecarLoop]. unfold ret. rewrite app_nil_r. now repeat split.
  - cbn [sidecarLoop presentExts List.filter]. unfold bind at 1. rewrite pathExists_run.
    set (candidate := stem +:+ "." +:+ ext).
    destruct (fs w !! path_join dirPath' candidate) as [f|] eqn:Hf.
    + set (url := baseUrl' +:+ _).
      assert (Hinline : exists inline w1,
                 (match kindOfExt ext with
                  | KText => t <- readTextTruncated O (path_join dirPath' candidate) maxChars ;;
                             ret (Some t)
                  | _ => ret None
                  end) (logged w [EvPathExists (path_join dirPath' candidate)])
                 = (Ok inline, w1)
                 /\ fs w1 = fs w).
      { destruct (kindOfExt ext); try (eexists _, _; repeat split; reflexivity).
        destruct (readTextTruncated_run O (path_join dirPath' candidate) maxChars
                    (logged w [EvPathExists (path_join dirPath' candidate)]))
          as (t & w1 & Hrun & Hfs & _).
        exists (Some t), w1. unfold bind. rewrite Hrun. now split. }
      destruct Hinline as (inline & w1 & Hrun & Hfs).
      unfold bind at 1. rewrite Hrun.
      set (item := {| att_fileName := candidate; att_url := url;
                      att_kind := kindOfExt ext; att_inlineText := inline |}).
      destruct (IH (results ++ [item]) w1) as (atts & w' & Hloop & Hfs' & Hmap).
      exists (item :: atts), w'. rewrite Hloop, <- app_assoc.
      split; [reflexivity|]. split; [congruence|].
      cbn [map]. rewrite Hmap, Hfs. reflexivity.
    + destruct (IH results (logged w [EvPathExists (path_join dirPath' candidate)]))
        as (atts & w' & Hloop & Hfs' & Hmap).
      exists atts, w'. split; [exact Hloop|]. split; [exact Hfs'|exact Hmap].
Qed.

Lemma filter_length_le {A} (f : A -> bool) (l : list A) :
  (length (List.filter f l) <= length l)%nat.
Proof.
  induction l as [|x l IH]; [reflexivity|]. cbn [List.filter].
  destruct (f x); cbn [length]; lia.
Qed.

(** X13. The attachments of an episode are the candidate files that
    exist, one each, in the order of the fixed extension list (not of the
    directory): name, URL and kind are those of the extension.  There are
    at most twelve, and the lookup changes no file. *)
Theorem attachments_in_probe_order (dirPath' audioFileName baseUrl' dirName' : string)
    (maxChars : nat) (w : world) :
  exists atts w',
    findSidecarAttachments O dirPath' audioFileName baseUrl' dirName' maxChars w
    = (Ok atts, w')
    /\ fs w' = fs w
    /\ map faceOf atts
       = map (attachmentFace baseUrl' dirName' (stemOf audioFileName))
           (presentExts (fs w) dirPath' (stemOf audioFileName) sidecarExts)
    /\ (length atts <= 12)%nat.
Proof.
  unfold findSidecarAttachments.
  destruct (sidecarLoop_order dirPath' baseUrl' dirName' (stemOf audioFileName) maxChars
              sidecarExts [] w) as (atts & w' & Hrun & Hfs & Hmap).
  exists atts, w'. repeat split; try assumption.
  rewrite <- (length_map faceOf), Hmap, length_map.
  apply (filter_length_le _ sidecarExts).
Qed.

(** X14. [readTextTruncated] never throws and touches only its file:
    it stats, opens, reads once and closes.  A file that was opened is
    closed, also when the read fails; and every failure (of stat, open,
    the read of the bytes asked for, or close, or a path that is not a
    regular file) gives the empty text. *)
Theorem read_text_closes_what_it_opens (fullPath : string) (maxChars : nat) (w : world) :
  exists t evs,
    readTextTruncated O fullPath maxChars w = (Ok t, logged w evs)
    /\ Forall (fun ev => eventTarget ev = fullPath) evs
    /\ (In (EvOpen fullPath) evs -> open_fails O fullPath = false ->
        In (EvClose fullPath) evs)
    /\ (stat_fails O fullPath = true
        \/ fs w !! fullPath = None
        \/ (exists f, fs w !! fullPath = Some f /\ isFile f = false)
        \/ open_fails O fullPath = true
        \/ (exists f, fs w !! fullPath = Some f
                      /\ read_result O fullPath
                           (Nat.min (Nat.max 1024 (maxChars * 4)) (size f)) = None)
        \/ close_fails O fullPath = true ->
        t = EmptyString).
Proof.
  unfold readTextTruncated.
  cbv [try_catch try_finally bind stat openFile readFile closeFile emit ret throw].
  destruct w as [files evs0]. cbn [fs log].
  assert (Hearly : exists t evs,
             (Ok EmptyString, {| fs := files; log := evs0 ++ [EvStat fullPath] |})
             = (Ok t, logged {| fs := files; log := evs0 |} evs)
             /\ Forall (fun ev => eventTarget ev = fullPath) evs
             /\ (In (EvOpen fullPath) evs -> open_fails O fullPath = false ->
                 In (EvClose fullPath) evs)
             /\ (stat_fails O fullPath = true
                 \/ files !! fullPath = None
                 \/ (exists f, files !! fullPath = Some f /\ isFile f = false)
                 \/ open_fails O fullPath = true
                 \/ (exists f, files !! fullPath = Some f
                               /\ read_result O fullPath
                                    (Nat.min (Nat.max 1024 (maxChars * 4)) (size f)) = None)
                 \/ close_fails O fullPath = true ->
                 t = EmptyString)).
  { exists EmptyString, [EvStat fullPath]. repeat split.
    - repeat constructor.
    - intros [H|[]]. discriminate H. }
  destruct (stat_fails O fullPath) eqn:Hstat; [exact Hearly|].
  destruct (files !! fullPath) as [st|] eqn:Hst; [|exact Hearly].
  destruct (isFile st) eqn:Hfile; cbn [negb]; [|exact Hearly].
  clear Hearly.
  destruct (open_fails O fullPath) eqn:Hopen.
  { exists EmptyString, [EvStat fullPath; EvOpen fullPath].
    unfold logged. cbn [fs log]. rewrite <- app_assoc. cbn [app].
    repeat split.
    - repeat constructor.
    - intros _ H. discriminate H. }
  cbn [fs log]. rewrite Hst.
  set (len := Nat.min (Nat.max 1024 (maxChars * 4)) (size st)).
  destruct (read_result O fullPath len) as [bytesRead|] eqn:Hread;
    destruct (close_fails O fullPath) eqn:Hclose;
    eexists _, [EvStat fullPath; EvOpen fullPath; EvRead fullPath len; EvClose fullPath];
    unfold logged; cbn [fs log]; rewrite <- !app_assoc; cbn [app];
    (split; [reflexivity|]); (split; [repeat constructor|]);
    (split; [intros _ _; cbn; tauto|]);
    try reflexivity.
  intros [H|[H|[(f & H & Hf)|[H|[(f & H & Hf)|H]]]]]; try discriminate H.
  - injection H as <-. congruence.
  - injection H as <-. fold len in Hf. congruence.
Qed.

End SidecarFacts.

(** ** The items of the feed *)

Section ItemFacts.
Context {rt : Runtime} (O : oracle) (env : EnvConfig).

Lemma getFileSize_run (p : string) (w : world) :
  getFileSize O p w = (Ok (sizeSeen O (fs w) p), logged w [EvStat p]).
Proof.
  unfold getFileSize, sizeSeen. cbv [try_catch bind stat emit ret throw logged].
  destruct w as [files evs]. cbn [fs log].
  destruct (stat_fails O p); [reflexivity|].
  destruct (files !! p); reflexivity.
Qed.

Lemma buildEpisodeShownotes_run source episode episodeUrl fileSizeBytes baseUrl'
    mode inlineAttachments inlineTextMaxChars w :
  exists notes w',
    buildEpisodeShownotes O source episode episodeUrl fileSizeBytes baseUrl' mode
      inlineAttachments inlineTextMaxChars w = (Ok notes, w')
    /\ fs w' = fs w.
Proof.
  destruct mode.
  - eexists _, w. split; reflexivity.
  - destruct (findSidecarAttachments_run O (dirPath source) (ep_fileName episode) baseUrl'
                (dirName source) inlineTextMaxChars w) as (atts & w' & Hrun & Hfs & _).
    eexists _, w'. cbn [buildEpisodeShownotes]. unfold bind. rewrite Hrun.
    split; [reflexivity|exact Hfs].
Qed.

Lemma episodeItem_run source options episode w :
  exists item w',
    episodeItem O env source options episode w = (Ok item, w')
    /\ fs w' = fs w
    /\ item_title item = ep_title episode
    /\ item_date item = ep_pubDate episode
    /\ item_id item = episodeUrlOf source options episode
    /\ item_link item = episodeUrlOf source options episode
    /\ enclosure_url item = episodeUrlOf source options episode
    /\ enclosure_length item = sizeSeen O (fs w) (ep_filePath episode)
    /\ item_description item
       = match EPISODE_SHOWNOTES env with
         | ModeTitle => ep_title episode
         | ModeFull => ep_title episode +:+ " ("
                         +:+ formatBytes (sizeSeen O (fs w) (ep_filePath episode)) +:+ ")"
         end.
Proof.
  unfold episodeItem. unfold bind at 1. rewrite getFileSize_run.
  destruct (buildEpisodeShownotes_run source episode (episodeUrlOf source options episode)
              (sizeSeen O (fs w) (ep_filePath episode)) (baseUrl options)
              (EPISODE_SHOWNOTES env) (EPISODE_INLINE_ATTACHMENTS env)
              (inlineTextMaxCharsOf env) (logged w [EvStat (ep_filePath episode)]))
    as (notes & w' & Hrun & Hfs).
  unfold episodeUrlOf in Hrun. unfold bind. rewrite Hrun.
  eexists _, w'. split; [reflexivity|]. split; [exact Hfs|].
  cbn. repeat split; reflexivity.
Qed.

Lemma feedItems_run (source : PodcastSource) (options : ProcessOptions)
    (eps : list Episode) (w : world) :
  exists items w',
    feedItems O env source options eps w = (Ok items, w')
    /\ fs w' = fs w
    /\ map item_title items = map ep_title eps
    /\ map item_date items = map ep_pubDate eps
    /\ map enclosure_url items = map (episodeUrlOf source options) eps
    /\ map enclosure_length items = map (fun e => sizeSeen O (fs w) (ep_filePath e)) eps
    /\ Forall (fun it => item_id it = enclosure_url it /\ item_link it = enclosure_url it) items.
Proof.
  revert w. induction eps as [|e rest IH]; intros w.
  - exists [], w. cbn. repeat split. constructor.
  - cbn [feedItems].
    destruct (episodeItem_run source options e w)
      as (item & w1 & Hrun & Hfs & Ht & Hd & Hid & Hl & Hu & Hlen & _).
    destruct (IH w1) as (items & w' & Hrest & Hfs' & Hts & Hds & Hus & Hlens & Hall).
    exists (item :: items), w'. unfold bind. rewrite Hrun, Hrest.
    split; [reflexivity|]. split; [congruence|].
    cbn [map]. rewrite Ht, Hd, Hu, Hlen, Hts, Hds, Hus, Hlens, Hfs.
    repeat split. constructor; [|exact Hall]. split; congruence.
Qed.

(** X15. The episode loop of [generateFeed] never throws and changes
    no file.  It makes one item per episode, in the order of the episodes:
    title and date are the episode's; id, link and enclosure URL are all
    the audio URL; the enclosure length is the size [stat] gives, or 0 when
    the file is missing or [stat] fails. *)
Theorem feed_items_follow_episodes (source : PodcastSource) (options : ProcessOptions)
    (eps : list Episode) (w : world) :
  exists items w',
    feedItems O env source options eps w = (Ok items, w')
    /\ fs w' = fs w
    /\ map item_title items = map ep_title eps
    /\ map item_date items = map ep_pubDate eps
    /\ map enclosure_url items = map (episodeUrlOf source options) eps
    /\ map enclosure_length items = map (fun e => sizeSeen O (fs w) (ep_filePath e)) eps
    /\ Forall (fun it => item_id it = enclosure_url it /\ item_link it = enclosure_url it) items.
Proof. exact (feedItems_run source options eps w). Qed.

Lemma or_else_same (a : string) : or_else a a = a.
Proof. unfold or_else. destruct (truthy a); reflexivity. Qed.

(** X16. With [EPISODE_SHOWNOTES] set to [title] the loop does nothing
    but one [stat] per episode, in order: no directory of attachments is
    probed and no file is opened.  Description and iTunes summary are the
    bare title, and the content is the escaped title in one paragraph,
    also when the title is empty. *)
Theorem title_mode_reads_only_sizes (source : PodcastSource) (options : ProcessOptions)
    (eps : list Episode) (w : world)
    (Hmode : EPISODE_SHOWNOTES env = ModeTitle) :
  exists items,
    feedItems O env source options eps w
    = (Ok items, logged w (map (fun e => EvStat (ep_filePath e)) eps))
    /\ map item_description items = map ep_title eps
    /\ map itunes_summary items = map ep_title eps
    /\ map item_content items
       = map (fun e => "<p>" +:+ escapeHtml (ep_title e) +:+ "</p>") eps.
Proof.
  revert w. induction eps as [|e rest IH]; intros w.
  - exists []. cbn. unfold ret, logged. rewrite app_nil_r. destruct w. repeat split.
  - cbn [feedItems]. unfold bind at 1. unfold episodeItem. unfold bind at 1.
    rewrite getFileSize_run. rewrite Hmode. cbn [buildEpisodeShownotes].
    unfold bind at 1. unfold ret at 1. unfold ret at 1.
    destruct (IH (logged w [EvStat (ep_filePath e)])) as (items & Hrest & Hds & Hss & Hcs).
    unfold bind. rewrite Hrest. eexists. split.
    + unfold ret. rewrite logged_logged. reflexivity.
    + cbn [map item_description itunes_summary item_content plain html].
      rewrite Hds, Hss, Hcs, !or_else_same. repeat split.
Qed.

(** X17. In the full mode an episode whose audio file is missing, or
    whose [stat] fails, is still listed: the enclosure length is 0 and the
    description reads "<title> (0 B)". *)
Theorem missing_audio_is_listed_with_zero_size (source : PodcastSource)
    (options : ProcessOptions) (episode : Episode) (w : world)
    (Hmode : EPISODE_SHOWNOTES env = ModeFull)
    (Hmissing : fs w !! ep_filePath episode = None
                \/ stat_fails O (ep_filePath episode) = true) :
  exists item w',
    episodeItem O env source options episode w = (Ok item, w')
    /\ enclosure_length item = Fin 0
    /\ item_description item = ep_title episode +:+ " (0 B)".
Proof.
  destruct (episodeItem_run source options episode w)
    as (item & w' & Hrun & _ & _ & _ & _ & _ & _ & Hlen & Hdesc).
  exists item, w'. split; [exact Hrun|].
  assert (Hzero : sizeSeen O (fs w) (ep_filePath episode) = Fin 0).
  { unfold sizeSeen. destruct Hmissing as [-> | ->]; [|reflexivity].
    destruct (stat_fails O _); reflexivity. }
  rewrite Hmode, Hzero in Hdesc. rewrite Hzero in Hlen.
  split; [exact Hlen|exact Hdesc].
Qed.

End ItemFacts.

(** ** The Images section of the show notes *)

Section ImagesFacts.
Context {rt : Runtime}.

Lemma split_at_unique {A} (x : A) (l1 l2 pre post : list A) :
  ~ In x l1 -> ~ In x l2 -> l1 ++ x :: l2 = pre ++ x :: post -> pre = l1.
Proof.
  intros H1 H2. revert pre. induction l1 as [|a l1 IH]; intros [|b pre] E; cbn in E.
  - reflexivity.
  - injection E as <- E. contradiction H2. rewrite E. apply in_elt.
  - injection E as -> _. contradiction H1. now left.
  - injection E as -> E. f_equal. apply IH; [|exact E].
    intros H. apply H1. now right.
Qed.

Lemma filter_image_nonempty (attachments : list attachment) :
  List.filter isImage attachments <> []
  <-> exists a, In a attachments /\ att_kind a = KImage.
Proof.
  split.
  - destruct (List.filter isImage attachments) as [|t images] eqn:Hf; [congruence|].
    intros _. exists t.
    assert (Ht : In t (List.filter isImage attachments)) by (rewrite Hf; now left).
    apply filter_In in Ht as [Hin Hk]. split; [assumption|].
    unfold isImage in Hk. now destruct (att_kind t).
  - intros (a & Hin & Hk) Hnil.
    assert (Ht : In a (List.filter isImage attachments)).
    { apply filter_In. split; [assumption|]. unfold isImage. now rewrite Hk. }
    rewrite Hnil in Ht. destruct Ht.
Qed.

Lemma image_blocks_not_heading (x : string) (images : list attachment) :
  secondUnit x = Some "h"%char -> ~ In x (map imageBlock images).
Proof.
  intros Hx H. apply in_map_iff in H as (a & <- & _). discriminate Hx.
Qed.

Lemma notes_section_no_images_heading inlineAttachments attachments :
  ~ In imagesHeading (notesSection inlineAttachments attachments).
Proof.
  unfold notesSection.
  destruct inlineAttachments;
    destruct (List.filter isText attachments) as [|t0 texts]; try (intros H; exact H).
  intros [H|H]; [discriminate H|].
  apply in_flat_map in H as (t & _ & H). unfold noteBlock in H.
  destruct (truthy (trim (opt_or_else (att_inlineText t) EmptyString)));
    repeat (destruct H as [H|H]; [discriminate H|]); destruct H.
Qed.

Lemma imagesSection_shape inlineAttachments attachments :
  imagesSection inlineAttachments attachments = []
  \/ imagesSection inlineAttachments attachments
     = imagesHeading :: map imageBlock (List.filter isImage attachments).
Proof.
  unfold imagesSection.
  destruct inlineAttachments; [now left| |];
    (destruct (List.filter isImage attachments); [now left|now right]).
Qed.

(** X18. The Images section of the full show notes: its heading is
    there exactly when inlining is not [none] and some attachment is an
    image; then every image attachment has its block; and the Notes
    heading never comes before the Images heading. *)
Theorem images_section_rule (source : PodcastSource) (episode : Episode)
    (episodeUrl : string) (fileSizeBytes : number) (inlineAttachments : inlineMode)
    (attachments : list attachment) :
  let parts := fullHtmlParts source episode episodeUrl fileSizeBytes inlineAttachments
                 attachments in
  (In imagesHeading parts
   <-> inlineAttachments <> InlineNone
       /\ exists a, In a attachments /\ att_kind a = KImage)
  /\ (inlineAttachments <> InlineNone ->
      forall a, In a attachments -> att_kind a = KImage -> In (imageBlock a) parts)
  /\ (forall pre post, parts = pre ++ imagesHeading :: post -> ~ In notesHeading pre).
Proof.
  intros parts. subst parts. rewrite fullHtmlParts_sections.
  set (base := fullHtmlParts source episode episodeUrl fileSizeBytes InlineNone attachments).
  assert (Hbase : forall x, secondUnit x = Some "h"%char -> ~ In x base).
  { intros x Hx H. now apply base_parts_second in H. }
  split; [|split].
  - rewrite !in_app_iff. split.
    + intros [H|[H|H]].
      * now apply Hbase in H.
      * unfold imagesSection in H.
        destruct inlineAttachments; [destruct H| |];
          (split; [discriminate|]; apply filter_image_nonempty;
           destruct (List.filter isImage attachments); [destruct H|discriminate]).
      * now apply notes_section_no_images_heading in H.
    + intros (Hmode & Himg). apply filter_image_nonempty in Himg.
      right; left. unfold imagesSection.
      destruct inlineAttachments; [congruence| |];
        (destruct (List.filter isImage attachments); [congruence|now left]).
  - intros Hmode a Hin Hk. rewrite !in_app_iff. right; left.
    assert (Ha : In a (List.filter isImage attachments)).
    { apply filter_In. split; [assumption|]. unfold isImage. now rewrite Hk. }
    unfold imagesSection.
    destruct inlineAttachments; [congruence| |];
      (destruct (List.filter isImage attachments) as [|i0 images] eqn:Hf; [destruct Ha|];
       right; now apply in_map).
  - intros pre post E.
    destruct (imagesSection_shape inlineAttachments attachments) as [Hs|Hs]; rewrite Hs in E.
    + exfalso. cbn [app] in E.
      assert (H : In imagesHeading (base ++ notesSection inlineAttachments attachments)).
      { rewrite E. apply in_elt. }
      apply in_app_iff in H as [H|H].
      * now apply Hbase in H.
      * now apply notes_section_no_images_heading in H.
    + cbn [app] in E.
      apply split_at_unique in E.
      * subst pre. now apply Hbase.
      * now apply Hbase.
      * rewrite in_app_iff. intros [H|H].
        -- now apply image_blocks_not_heading in H.
        -- now apply notes_section_no_images_heading in H.
Qed.

End ImagesFacts.

(** ** The iTunes search *)

Section SearchFacts.
Context {rt : Runtime} (O : oracle).

Lemma getProp_first (r0 : json) (key : string) :
  getProp (jsOr r0 (JObj [])) key = getProp r0 key.
Proof.
  unfold jsOr. destruct (jsTruthy r0) eqn:Ht; [reflexivity|].
  destruct r0; try reflexivity; discriminate Ht.
Qed.

(** X19. The search answers with the artwork of the first result
    only, whatever the later results carry, and prefers the larger image:
    [artworkUrl600], else [artworkUrl512], else [artworkUrl100], else
    [null]; a field counts when it is truthy. *)
Theorem search_prefers_largest_artwork_of_first_result (term country : string)
    (timeoutMs : number) (res : response) (body first : json) (others : list json)
    (w : world)
    (Hres : fetch_result O (searchUrl term country) (Some "application/json") = Some res)
    (Hok : ok res = true)
    (Hbody : jsonBody res = Some body)
    (Hresults : getProp body "results" = JArr (first :: others)) :
  let a600 := getProp first "artworkUrl600" in
  let a512 := getProp first "artworkUrl512" in
  let a100 := getProp first "artworkUrl100" in
  exists v,
    itunesSearchArtwork O term country timeoutMs w
    = (Ok v, logged w [EvFetch (searchUrl term country) (Some "application/json")])
    /\ (jsTruthy a600 = true -> v = a600)
    /\ (jsTruthy a600 = false -> jsTruthy a512 = true -> v = a512)
    /\ (jsTruthy a600 = false -> jsTruthy a512 = false -> jsTruthy a100 = true -> v = a100)
    /\ (jsTruthy a600 = false -> jsTruthy a512 = false -> jsTruthy a100 = false -> v = JNull).
Proof.
  intros a600 a512 a100. unfold searchUrl in Hres.
  unfold itunesSearchArtwork, searchUrl, try_catch, bind at 1.
  rewrite fetch_run, Hres, Hok, Hbody. cbn [negb]. rewrite Hresults.
  rewrite !getProp_first. fold a600 a512 a100. eexists. split; [reflexivity|].
  unfold jsOr. repeat split; intros; repeat match goal with H : jsTruthy _ = _ |- _ => rewrite H; clear H end; reflexivity.
Qed.

(** X20. The search never throws and asks once.  It answers [null]
    when the request fails, the status is not ok, the body is not JSON, or
    [results] is not a non-empty array. *)
Theorem search_without_results_is_null (term country : string) (timeoutMs : number)
    (w : world)
    (Hnone : match fetch_result O (searchUrl term country) (Some "application/json") with
             | None => True
             | Some res =>
                 ok res = false
                 \/ match jsonBody res with
                    | None => True
                    | Some body =>
                        forall first others, getProp body "results" <> JArr (first :: others)
                    end
             end) :
  itunesSearchArtwork O term country timeoutMs w
  = (Ok JNull, logged w [EvFetch (searchUrl term country) (Some "application/json")]).
Proof.
  unfold searchUrl in Hnone.
  unfold itunesSearchArtwork, searchUrl, try_catch, bind at 1. rewrite fetch_run.
  destruct (fetch_result O _ _) as [res|]; [|reflexivity].
  destruct (ok res); cbn [negb]; [|reflexivity].
  destruct Hnone as [Hnone|Hnone]; [discriminate Hnone|].
  destruct (jsonBody res) as [body|]; [|reflexivity].
  destruct (getProp body "results") as [| | | |items|] eqn:Hr; try reflexivity.
  destruct items as [|first others]; [reflexivity|].
  now contradiction (Hnone first others).
Qed.

End SearchFacts.

(** ** The head of the feed *)

Section HeadFacts.
Context {rt : Runtime} (O : oracle) (env : EnvConfig).
Variable path_basename : string -> string.
Variable today : Date.

Lemma truthy_append (a b : string) : truthy (a +:+ b) = truthy a || truthy b.
Proof. destruct a; [reflexivity|reflexivity]. Qed.

(** X21. The image of the feed.  An absolute [http://] or [https://]
    cover URL is used as it is; a route of the cover resolver is served
    from the base URL; without cover URL and cover path the default cover
    is used; and with a default cover the image is never empty. *)
Theorem feed_image_choice (source : PodcastSource) (options : ProcessOptions) :
  (forall raw, coverUrl source = Some raw ->
     startsWith "http://" raw || startsWith "https://" raw = true ->
     feedImage path_basename source options = raw)
  /\ (forall fileName, coverUrl source = Some (toCoverRoute fileName) ->
        feedImage path_basename source options = baseUrl options +:+ toCoverRoute fileName)
  /\ (opt_or_else (coverUrl source) EmptyString = EmptyString ->
      opt_or_else (coverPath source) EmptyString = EmptyString ->
      feedImage path_basename source options = defaultCover options)
  /\ (truthy (defaultCover options) = true ->
      truthy (feedImage path_basename source options) = true).
Proof.
  unfold feedImage. repeat split.
  - intros raw -> Habs. cbn [opt_or_else]. unfold or_else.
    destruct raw as [|c raw]; [discriminate Habs|]. cbn [truthy]. now rewrite Habs.
  - intros fileName ->. reflexivity.
  - intros -> ->. reflexivity.
  - intros Hdef.
    destruct (truthy (opt_or_else (coverUrl source) EmptyString)) eqn:Hraw.
    + destruct (_ || _); [exact Hraw|].
      rewrite truthy_append, Hraw. apply orb_true_r.
    + destruct (truthy (opt_or_else (coverPath source) EmptyString)); [|exact Hdef].
      rewrite !truthy_append. cbn. now rewrite !orb_true_r.
Qed.

Lemma last_map_nth {A B} (f : A -> B) (l : list A) (d : B) :
  List.last (map f l) d
  = match nth_error l (length l - 1) with Some x => f x | None => d end.
Proof.
  induction l as [|x l IH]; [reflexivity|].
  destruct l as [|y l]; [reflexivity|].
  change (List.last (map f (x :: y :: l)) d) with (List.last (map f (y :: l)) d).
  rewrite IH.
  replace (length (x :: y :: l) - 1)%nat with (S (length (y :: l) - 1)) by (cbn [length]; lia).
  reflexivity.
Qed.

(** X22. The feed is dated by its last item: the update date of the
    head is the date of the item the loop produces last (the order of the
    episode list decides, not the dates), and today for a feed without
    episodes. *)
Theorem feed_is_dated_by_its_last_item (source : PodcastSource) (options : ProcessOptions)
    (w w' : world) (items : list feedItem)
    (Hrun : feedItems O env source options (episodes source) w = (Ok items, w')) :
  updateDate today source = List.last (map item_date items) today.
Proof.
  destruct (feedItems_run O env source options (episodes source) w)
    as (items' & w'' & Hrun' & _ & _ & Hdates & _).
  rewrite Hrun in Hrun'. injection Hrun' as <- _.
  rewrite Hdates, last_map_nth. reflexivity.
Qed.

End HeadFacts.

(** ** The configuration of the environment *)

Section EnvFacts.
Context {rt : Runtime}.
Variable parseInt : string -> number.
Variable numberString : number -> string.

Lemma envOr_blank (env : gmap string string) (k key fallback : string) :
  Env.envOr (<[k := EmptyString]> env) key fallback = Env.envOr (delete k env) key fallback.
Proof.
  unfold Env.envOr. destruct (decide (k = key)) as [->|Hne].
  - rewrite lookup_insert_eq, lookup_delete_eq. reflexivity.
  - rewrite lookup_insert_ne, lookup_delete_ne by exact Hne. reflexivity.
Qed.

(** X23. A variable set to the empty string counts as not set: every
    field of the configuration is the same as without the variable. *)
Theorem blank_variable_is_unset (env : gmap string string) (k : string) :
  Env.getEnvConfig parseInt numberString (<[k := EmptyString]> env)
  = Env.getEnvConfig parseInt numberString (delete k env).
Proof. unfold Env.getEnvConfig. rewrite !envOr_blank. reflexivity. Qed.

(** X24. Remote covers are on when [REMOTE_COVER_ENABLED] is unset or
    empty, and otherwise exactly when its value is [true] in any letter
    case: every other value, such as [1] or [yes], turns them off. *)
Theorem remote_cover_switch (env : gmap string string) :
  (opt_or_else (env !! "REMOTE_COVER_ENABLED") EmptyString = EmptyString ->
   Env.REMOTE_COVER_ENABLED (Env.getEnvConfig parseInt numberString env) = true)
  /\ (forall v, env !! "REMOTE_COVER_ENABLED" = Some v -> truthy v = true ->
        (Env.REMOTE_COVER_ENABLED (Env.getEnvConfig parseInt numberString env) = true
         <-> toLowerCase v = "true")).
Proof.
  unfold Env.getEnvConfig, Env.envOr. cbn [Env.REMOTE_COVER_ENABLED]. split.
  - destruct (env !! "REMOTE_COVER_ENABLED") as [v|]; [|reflexivity].
    cbn [opt_or_else]. unfold or_else. destruct v; [reflexivity|discriminate].
  - intros v -> Hv. cbn [opt_or_else]. unfold or_else. rewrite Hv.
    apply String.eqb_eq.
Qed.

End EnvFacts.

(** ** The parts of the cover resolver *)

Section CoverParts.
Context {rt : Runtime} (O : oracle) (env : EnvConfig).

(** X25. Switched off ([REMOTE_COVER_ENABLED] false, or the provider
    [none]) the resolver answers with the empty result at once: it makes
    no call at all, not even a look into the cache, and a cover cached
    earlier is not served. *)
Theorem disabled_resolver_does_nothing (source : PodcastSource) (w : world)
    (Hoff : REMOTE_COVER_ENABLED env = false \/ REMOTE_COVER_PROVIDER env = ProviderNone) :
  resolveCoverForSource O env source w = (Ok emptyResult, w).
Proof.
  unfold resolveCoverForSource. destruct Hoff as [-> | ->]; [reflexivity|].
  destruct (REMOTE_COVER_ENABLED env); reflexivity.
Qed.

(** X26. [downloadToFile] checks the answer before it touches the
    disk.  It fetches first; when the request is rejected, the status is
    not ok or the body cannot be read, it throws having made no other
    call, and every file is as it was.  It calls [writeFile] only after
    [ensureDir] went well.  When it completes, the file at the path holds
    the body of the answer, byte for byte.  It never takes an entry away:
    what was at another path is there afterwards. *)
Theorem download_checks_status_before_writing (url path : string) (timeoutMs : number)
    (w w' : world) (r : outcome unit)
    (Hrun : downloadToFile O url path timeoutMs w = (r, w')) :
  exists tail,
    log w' = log w ++ EvFetch url None :: tail
    /\ (tail = [] \/ tail = [EvEnsureDir (path_dirname path)]
        \/ tail = [EvEnsureDir (path_dirname path); EvWriteFile path])
    /\ (requestFails O url -> r = Throw /\ tail = [] /\ fs w' = fs w)
    /\ (r = Ok tt ->
        tail = [EvEnsureDir (path_dirname path); EvWriteFile path]
        /\ exists res buf,
             fetch_result O url None = Some res /\ ok res = true
             /\ arrayBuffer res = Some buf
             /\ fs w' !! path = Some (writtenFile O buf))
    /\ (In (EvWriteFile path) tail -> ensureDir_fails O (path_dirname path) = false)
    /\ (forall q f, q <> path -> fs w !! q = Some f -> fs w' !! q = Some f).
Proof.
  destruct (downloadToFile_calls O _ _ _ _ _ _ Hrun) as (tail & Hlog & Hshape & Hreq & Hok & Hdir).
  exists tail. repeat (split; [assumption|]).
  exact (proj2 (downloadToFile_effect O _ _ _ _ _ _ Hrun)).
Qed.

Lemma cleanupVariants_stuck base keep exts w w' :
  (forall e, In e exts -> allUnits (isNot "/") e = true) ->
  cleanupVariants O base keep exts w = (Throw, w') ->
  exists e, In e exts /\ e <> keep
            /\ remove_fails O (base +:+ e) = true
            /\ is_Some (fs w' !! (base +:+ e))
            /\ exists evs, log w' = log w ++ evs ++ [EvRemove (base +:+ e)].
Proof.
  revert w. induction exts as [|ext rest IH]; intros w Hslash Hrun.
  - discriminate Hrun.
  - assert (Hslash' : forall e, In e rest -> allUnits (isNot "/") e = true)
      by (intros e He; apply Hslash; now right).
    destruct (String.eqb ext keep) eqn:Hk.
    { cbn [cleanupVariants] in Hrun. rewrite Hk in Hrun.
      destruct (IH w Hslash' Hrun) as (e & He & H). exists e. split; [now right|exact H]. }
    rewrite cleanupVariants_step in Hrun by assumption.
    assert (Hne : ext <> keep) by (intros ->; rewrite String.eqb_refl in Hk; discriminate Hk).
    destruct (fs w !! (base +:+ ext)) as [f|] eqn:Hf.
    + destruct (remove_fails O (base +:+ ext)) eqn:Hrm.
      * apply pair_equal_spec in Hrun as [_ <-].
        exists ext. split; [now left|]. split; [exact Hne|].
        split; [exact Hrm|]. cbn [fs log]. split.
        -- rewrite lookup_prune, (below_variant base ext ext) by (apply Hslash; now left).
           cbn [andb]. rewrite Hf. now eexists.
        -- exists [EvPathExists (base +:+ ext)]. reflexivity.
      * destruct (IH _ Hslash' Hrun) as (e & He & Hn & Hr & Hs & evs & Hlog).
        exists e. split; [now right|]. repeat (split; [assumption|]).
        cbn [log] in Hlog.
        exists ([EvPathExists (base +:+ ext); EvRemove (base +:+ ext)] ++ evs).
        rewrite Hlog, <- !app_assoc. reflexivity.
    + destruct (IH _ Hslash' Hrun) as (e & He & Hn & Hr & Hs & evs & Hlog).
      exists e. split; [now right|]. repeat (split; [assumption|]).
      cbn [log logged] in Hlog.
      exists (EvPathExists (base +:+ ext) :: evs).
      rewrite Hlog, <- !app_assoc. reflexivity.
Qed.

(** X27. [cleanupOldVariants] probes and removes the other variants of
    the cover and nothing else; the kept variant is neither probed nor
    removed, and its file stays as it is.  Nothing is created.  When the
    cleanup completes no other variant is left.  When it throws, the last
    call is the removal that failed, and that variant is still there. *)
Theorem cleanup_deletes_only_other_variants (base keep : string) (w w' : world)
    (r : outcome unit)
    (Hkeep : allUnits (isNot "/") keep = true)
    (Hrun : cleanupOldVariants O base keep w = (r, w')) :
  (exists evs, log w' = log w ++ evs /\ Forall (cleanupCall base keep) evs)
  /\ fs w' !! (base +:+ keep) = fs w !! (base +:+ keep)
  /\ (forall p, fs w !! p = None -> fs w' !! p = None)
  /\ (r = Ok tt -> forall e, In e coverExts -> e <> keep -> fs w' !! (base +:+ e) = None)
  /\ (r = Throw ->
      exists e, In e coverExts /\ e <> keep
                /\ remove_fails O (base +:+ e) = true
                /\ is_Some (fs w' !! (base +:+ e))
                /\ exists evs, log w' = log w ++ evs ++ [EvRemove (base +:+ e)]).
Proof.
  unfold cleanupOldVariants in Hrun. split; [|split; [|split; [|split]]].
  - exact (cleanupVariants_calls O base keep coverExts w r w' (fun e He => He) Hrun).
  - exact (proj1 (proj2 (cleanupVariants_effect O base keep coverExts w r w' Hkeep Hrun))).
  - exact (cleanupVariants_mono O base keep coverExts w r w' Hrun).
  - intros ->. exact (cleanupVariants_ok O base keep coverExts w w' Hrun).
  - intros ->. exact (cleanupVariants_stuck base keep coverExts w w' coverExts_slash_free Hrun).
Qed.

End CoverParts.

(** ** The list of attachments in the show notes *)

Section AttachmentList.
Context {rt : Runtime}.

Lemma In_fold_push {A} (f : A -> string) (l : list A) (parts : list string) (x : string) :
  In x (fold_left (fun ps a => push ps (f a)) l parts) <-> In x parts \/ In x (map f l).
Proof.
  revert parts. induction l as [|a l IH]; intros parts; cbn [fold_left map].
  - cbn. tauto.
  - rewrite IH, In_push. cbn [In]. split; intros H; repeat destruct H as [H|H]; auto.
Qed.

(** X28. Every attachment is linked from the list of the show notes,
    whatever its kind and whatever the inline mode; the "Attachments" entry
    of the list is there exactly when there is an attachment. *)
Theorem every_attachment_is_linked (source : PodcastSource) (episode : Episode)
    (episodeUrl : string) (fileSizeBytes : number) (inlineAttachments : inlineMode)
    (attachments : list attachment) :
  let parts := fullHtmlParts source episode episodeUrl fileSizeBytes inlineAttachments
                 attachments in
  (forall a, In a attachments -> In (attachmentItem a) parts)
  /\ (In attachmentsOpening parts <-> attachments <> []).
Proof.
  intros parts. subst parts. rewrite fullHtmlParts_sections.
  set (images := imagesSection inlineAttachments attachments).
  set (notes := notesSection inlineAttachments attachments).
  assert (Hsections : forall x, In x (images ++ notes) -> startsWith "<li>" x = false).
  { intros x Hx. apply in_app_iff in Hx as [Hx|Hx].
    - subst images.
      destruct (imagesSection_shape inlineAttachments attachments) as [Hs|Hs];
        rewrite Hs in Hx; [destruct Hx|].
      destruct Hx as [<-|Hx]; [reflexivity|].
      apply in_map_iff in Hx as (a & <- & _). reflexivity.
    - subst notes. unfold notesSection in Hx.
      destruct inlineAttachments; try (now destruct Hx);
        destruct (List.filter isText attachments) as [|t0 texts]; try (now destruct Hx).
      destruct Hx as [<-|Hx]; [reflexivity|].
      apply in_flat_map in Hx as (t & _ & Hx). unfold noteBlock in Hx.
      destruct (truthy (trim (opt_or_else (att_inlineText t) EmptyString)));
        repeat (destruct Hx as [<-|Hx]; [reflexivity|]); destruct Hx. }
  unfold fullHtmlParts. cbn [inlineSections length Nat.eqb negb andb].
  rewrite nonempty_length. split.
  - intros a Ha. apply in_app_iff. left.
    destruct attachments as [|a0 rest]; [destruct Ha|].
    replace (inlineSections InlineNone (a0 :: rest)) with (fun ps : list string => ps)
      by (unfold inlineSections; now rewrite andb_false_r).
    rewrite !In_push, In_fold_push. left; left; right. now apply in_map.
  - split.
    + intros H Hnil. subst attachments. apply in_app_iff in H as [H|H].
      * cbn in H. repeat (destruct H as [H|H]; [discriminate H|]). destruct H.
      * apply Hsections in H. discriminate H.
    + intros Hne. apply in_app_iff. left.
      destruct attachments as [|a0 rest]; [congruence|].
      replace (inlineSections InlineNone (a0 :: rest)) with (fun ps : list string => ps)
        by (unfold inlineSections; now rewrite andb_false_r).
      rewrite !In_push, In_fold_push. left; left; left. rewrite In_push. now right.
Qed.

End AttachmentList.

(** * Runs on the concrete platform *)

Lemma resolver_touches_only_cache_variants_witness :
  let O := Demo.oracleWith None (fun _ => false) in
  let source := Demo.source (Some "http://h/c.png") None in
  let w := Demo.worldOf [Cases.staleCover; Cases.audioFile] in
  let run := @resolveCoverForSource Demo.runtime O Demo.env source w in
  exists evs,
    log (snd run) = log w ++ evs
    /\ Forall (fun ev => @cacheCall Demo.runtime "/srv/.covers/show" ev = true) evs
    /\ (forall p, In (EvWriteFile p) evs -> ~ In (EvRemove p) evs).
Proof.
  intros O source w run.
  apply (@resolver_touches_only_cache_variants Demo.runtime O Demo.env source w (snd run)
           (fst run)).
  vm_compute. reflexivity.
Defined.

Lemma returned_cover_exists_witness :
  let O := Demo.oracleWith None (fun _ => false) in
  let source := Demo.source (Some "http://h/c.png") None in
  let w := Demo.worldOf [Cases.staleCover] in
  let run := @resolveCoverForSource Demo.runtime O Demo.env source w in
  let r := {| res_coverUrl := Some "/covers/show.png";
              res_coverCachePath := Some "/srv/.covers/show.png" |} in
  r = emptyResult
  \/ exists ext,
       In ext coverExts
       /\ res_coverCachePath r = Some ("/srv/.covers/show" +:+ ext)
       /\ res_coverUrl r
          = Some ("/covers/" +:+ @encodeURIComponent Demo.runtime ("show" +:+ ext))
       /\ is_Some (fs (snd run) !! ("/srv/.covers/show" +:+ ext)).
Proof.
  intros O source w run r.
  apply (@returned_cover_exists Demo.runtime O Demo.env source w (snd run) r).
  vm_compute. reflexivity.
Defined.

Lemma downloaded_cover_is_reused_while_fresh_witness :
  let O1 := Demo.oracleWith None (fun _ => false) in
  let source := Demo.source (Some "http://h/c.png") None in
  let w := Demo.worldOf [Cases.staleCover] in
  let w' := snd (@resolveCoverForSource Demo.runtime O1 Demo.env source w) in
  let r := {| res_coverUrl := Some "/covers/show.png";
              res_coverCachePath := Some "/srv/.covers/show.png" |} in
  (exists evs,
     @resolveCoverForSource Demo.runtime (Cases.laterRun 1000500) Demo.env source w'
     = (Ok r, logged w' evs)
     /\ Forall (fun ev => isFetchEvent ev = false) evs)
  /\ @noFreshHit Demo.runtime (Cases.laterRun 999999) Demo.env source w'.
Proof.
  intros O1 source w w' r.
  assert (Hrun : @resolveCoverForSource Demo.runtime O1 Demo.env source w = (Ok r, w'))
    by (vm_compute; reflexivity).
  assert (Hno : @noFreshHit Demo.runtime O1 Demo.env source w).
  { intros e He. repeat (destruct He as [<-|He]; [vm_compute; reflexivity|]). destruct He. }
  split.
  - destruct (@downloaded_cover_is_reused_while_fresh Demo.runtime O1 (Cases.laterRun 1000500)
                Demo.env source w w' r 30 Hrun ltac:(discriminate) Hno eq_refl)
      as (ext & _ & Hr & Hhit & _).
    injection Hr as _ Hpath.
    assert (ext = ".png") as -> by (symmetry; exact Hpath).
    apply Hhit; [reflexivity|vm_compute; discriminate|vm_compute; reflexivity].
  - destruct (@downloaded_cover_is_reused_while_fresh Demo.runtime O1 (Cases.laterRun 999999)
                Demo.env source w w' r 30 Hrun ltac:(discriminate) Hno eq_refl)
      as (ext & _ & _ & _ & Hmiss).
    apply Hmiss. right. left. vm_compute. reflexivity.
Defined.

Lemma failed_download_skips_cleanup_witness :
  let source := Demo.source (Some "http://h/c.png") None in
  let w := Demo.worldOf [Cases.staleCover; ("/srv/.covers/show.png", Demo.textFile (-4000000000) "OLDPNG")] in
  let path := "/srv/.covers/show.png" in
  exists w' pre tail,
    @resolveCoverForSource Demo.runtime Cases.diskFull Demo.env source w = (Ok emptyResult, w')
    /\ log w' = log w ++ pre ++ EvFetch "http://h/c.png" None :: tail
    /\ Forall (fun ev => isMutation ev = false) pre
    /\ (tail = [] \/ tail = [EvEnsureDir (@path_dirname Demo.runtime path)]
        \/ tail = [EvEnsureDir (@path_dirname Demo.runtime path); EvWriteFile path])
    /\ (requestFails Cases.diskFull "http://h/c.png" -> tail = [] /\ fs w' = fs w)
    /\ (forall q f, q <> path -> fs w !! q = Some f -> fs w' !! q = Some f).
Proof.
  intros source w path.
  apply (@failed_download_skips_cleanup Demo.runtime Cases.diskFull Demo.env source w
           "http://h/c.png").
  - reflexivity.
  - reflexivity.
  - intros e He. repeat (destruct He as [<-|He]; [vm_compute; reflexivity|]). destruct He.
  - vm_compute. reflexivity.
  - reflexivity.
  - intros (res & buf & _ & _ & _ & _ & H). vm_compute in H. discriminate H.
Defined.

Lemma at_most_one_search_and_one_download_witness :
  let O := Demo.oracleWith (Some (Demo.jsonResponse Cases.searchBody)) (fun _ => false) in
  let source := Demo.source None None in
  let w := Demo.worldOf [] in
  let run := @resolveCoverForSource Demo.runtime O Demo.env source w in
  let search := EvFetch (@searchUrl Demo.runtime "Show" "cn") (Some "application/json") in
  exists evs,
    log (snd run) = log w ++ evs
    /\ (List.filter isFetchEvent evs = []
        \/ List.filter isFetchEvent evs = [search]
        \/ (exists url, List.filter isFetchEvent evs = [EvFetch url None])
        \/ (exists url, List.filter isFetchEvent evs = [search; EvFetch url None])).
Proof.
  intros O source w run.
  apply (@at_most_one_search_and_one_download Demo.runtime O Demo.env source w (snd run)
           (fst run)).
  vm_compute. reflexivity.
Defined.

Lemma ttl_without_days_never_hits_witness :
  let O := Demo.oracleWith None (fun _ => false) in
  let env := Cases.envWith ModeFull true NaN in
  let w := Demo.worldOf [("/srv/.covers/show.jpg", Demo.textFile 999999 "NEW")] in
  (forall files p, @freshHit O NaN files p = false)
  /\ fst (@probeCache Demo.runtime O env "/srv/.covers/show" "show" coverExts w) = Ok None.
Proof.
  intros O env w.
  apply (@ttl_without_days_never_hits Demo.runtime O env (Demo.source None None) w).
  left. reflexivity.
Defined.

Lemma guessExt_by_path_suffix_witness :
  guessExtFromUrl ("http://h/a.PNG" +:+ "?" +:+ "size=600") = guessExtFromUrl "http://h/a.PNG"
  /\ guessExtFromUrl ("http://h/a" +:+ ".PNG") = ".png".
Proof.
  destruct (guessExt_by_path_suffix "http://h/a.PNG" "size=600" "http://h/a" ".PNG")
    as (_ & Hquery & Hsuffix).
  split; [exact Hquery|].
  destruct (Hsuffix eq_refl) as (Hpng & _). exact (Hpng eq_refl).
Defined.

Lemma stemOf_strips_one_extension_witness :
  stemOf ("ep1.final" +:+ "." +:+ "mp3") = "ep1.final".
Proof.
  apply (proj1 (stemOf_strips_one_extension "ep1" "ep1.final" "mp3")).
  - discriminate.
  - reflexivity.
Defined.

Lemma formatDate_iso_witness :
  @formatDate Demo.runtime "2024-01-02T03:04:05.000Z" = "2024-01-02 03:04:05.000 UTC".
Proof.
  apply (proj2 (@formatDate_iso Demo.runtime "2024-01-02T03:04:05.000Z" "2024-01-02"
                  "03:04:05.000")); reflexivity.
Defined.

Lemma escapeHtml_fixes_plain_strings_witness :
  escapeHtml "Episode 1" = "Episode 1".
Proof.
  apply (proj2 (escapeHtml_fixes_plain_strings "Episode 1")). reflexivity.
Defined.

Lemma formatBytes_below_1024_witness :
  @formatBytes Demo.runtime (Fin (inject_Z 1000)) = digitsOf 1000 +:+ " B".
Proof. apply (@formatBytes_below_1024 Demo.runtime 1000). lia. Defined.

Lemma title_mode_reads_only_sizes_witness :
  let O := Demo.oracleWith None (fun _ => false) in
  let env := Cases.envWith ModeTitle true (Fin 30) in
  let w := Demo.worldOf [Cases.audioFile] in
  exists items,
    @feedItems Demo.runtime O env (Demo.source None None) Demo.options [Demo.episode1] w
    = (Ok items, logged w [EvStat "/audio/show/ep1.mp3"])
    /\ map item_description items = ["Episode 1"]
    /\ map itunes_summary items = ["Episode 1"]
    /\ map item_content items = ["<p>" +:+ escapeHtml "Episode 1" +:+ "</p>"].
Proof.
  intros O env w.
  apply (@title_mode_reads_only_sizes Demo.runtime O env (Demo.source None None) Demo.options
           [Demo.episode1] w).
  reflexivity.
Defined.

Lemma missing_audio_is_listed_with_zero_size_witness :
  let O := Demo.oracleWith None (fun _ => false) in
  let w := Demo.worldOf [] in
  exists item w',
    @episodeItem Demo.runtime O Demo.env (Demo.source None None) Demo.options Demo.episode1 w
    = (Ok item, w')
    /\ enclosure_length item = Fin 0
    /\ item_description item = "Episode 1" +:+ " (0 B)".
Proof.
  intros O w.
  apply (@missing_audio_is_listed_with_zero_size Demo.runtime O Demo.env
           (Demo.source None None) Demo.options Demo.episode1 w).
  - reflexivity.
  - left. vm_compute. reflexivity.
Defined.

Lemma search_prefers_largest_artwork_of_first_result_witness :
  let O := Demo.oracleWith (Some (Demo.jsonResponse Cases.searchBody)) (fun _ => false) in
  let w := Demo.worldOf [] in
  exists v,
    @itunesSearchArtwork Demo.runtime O "Show" "cn" (Fin 8000) w
    = (Ok v, logged w [EvFetch (@searchUrl Demo.runtime "Show" "cn") (Some "application/json")])
    /\ v = JStr "http://h/100.jpg".
Proof.
  intros O w.
  destruct (@search_prefers_largest_artwork_of_first_result Demo.runtime O "Show" "cn"
              (Fin 8000) (Demo.jsonResponse Cases.searchBody) Cases.searchBody
              (JObj [("artworkUrl600", JStr EmptyString);
                     ("artworkUrl100", JStr "http://h/100.jpg")])
              [JObj [("artworkUrl600", JStr "http://h/other600.png")]] w
              eq_refl eq_refl eq_refl eq_refl)
    as (v & Hrun & _ & _ & H100 & _).
  exists v. split; [exact Hrun|]. exact (H100 eq_refl eq_refl eq_refl).
Defined.

Lemma search_without_results_is_null_witness :
  let w := Demo.worldOf [] in
  @itunesSearchArtwork Demo.runtime Cases.offline "Show" "cn" (Fin 8000) w
  = (Ok JNull, logged w [EvFetch (@searchUrl Demo.runtime "Show" "cn") (Some "application/json")]).
Proof.
  intros w.
  apply (@search_without_results_is_null Demo.runtime Cases.offline "Show" "cn" (Fin 8000) w).
  vm_compute. exact I.
Defined.

Lemma feed_image_choice_witness :
  @feedImage Demo.runtime (fun p => p) (Cases.sourceWithCover (Some "/covers/show.png"))
    Demo.options
  = "http://localhost:3000" +:+ "/covers/show.png".
Proof.
  apply (proj1 (proj2 (@feed_image_choice Demo.runtime (fun p => p)
                         (Cases.sourceWithCover (Some "/covers/show.png")) Demo.options))
           "show.png").
  reflexivity.
Defined.

Lemma feed_is_dated_by_its_last_item_witness :
  let O := Demo.oracleWith None (fun _ => false) in
  let env := Cases.envWith ModeTitle true (Fin 30) in
  let source := Demo.source None None in
  let w := Demo.worldOf [Cases.audioFile] in
  let run := @feedItems Demo.runtime O env source Demo.options (episodes source) w in
  let items := match fst run with Ok items => items | Throw => [] end in
  @updateDate Demo.runtime "2030-01-01T00:00:00.000Z" source
  = List.last (map item_date items) "2030-01-01T00:00:00.000Z".
Proof.
  intros O env source w run items.
  apply (@feed_is_dated_by_its_last_item Demo.runtime O env "2030-01-01T00:00:00.000Z" source
           Demo.options w (snd run) items).
  vm_compute. reflexivity.
Defined.

Lemma remote_cover_switch_witness :
  let parse := fun _ : string => NaN in
  let show := fun _ : number => "NaN" in
  @Env.REMOTE_COVER_ENABLED
    (@Env.getEnvConfig Demo.runtime parse show {["REMOTE_COVER_ENABLED" := "TRUE"]}) = true
  /\ @Env.REMOTE_COVER_ENABLED
       (@Env.getEnvConfig Demo.runtime parse show {["REMOTE_COVER_ENABLED" := "1"]}) = false.
Proof.
  intros parse show. split.
  - apply (proj2 (@remote_cover_switch Demo.runtime parse show
                    {["REMOTE_COVER_ENABLED" := "TRUE"]}) "TRUE").
    + vm_compute. reflexivity.
    + reflexivity.
    + reflexivity.
  - vm_compute. reflexivity.
Defined.

Lemma disabled_resolver_does_nothing_witness :
  let O := Demo.oracleWith None (fun _ => false) in
  let env := Cases.envWith ModeFull false (Fin 30) in
  let w := Demo.worldOf [("/srv/.covers/show.jpg", Demo.textFile 999999 "NEW")] in
  @resolveCoverForSource Demo.runtime O env (Demo.source (Some "http://h/c.png") None) w
  = (Ok emptyResult, w).
Proof.
  intros O env w.
  apply (@disabled_resolver_does_nothing Demo.runtime O env
           (Demo.source (Some "http://h/c.png") None) w).
  left. reflexivity.
Defined.

Lemma download_checks_status_before_writing_witness :
  let O := Demo.oracleWith None (fun _ => false) in
  let w := Demo.worldOf [Cases.staleCover] in
  let path := "/srv/.covers/show.png" in
  let run := @downloadToFile Demo.runtime O "http://h/c.png" path (Fin 8000) w in
  fs (snd run) !! path = Some (writtenFile O "PNGDATA")
  /\ fs (snd run) !! "/srv/.covers/show.jpg" = Some (snd Cases.staleCover)
  /\ log (snd run) = [EvFetch "http://h/c.png" None;
                      EvEnsureDir "/srv/.covers"; EvWriteFile path].
Proof.
  intros O w path run.
  destruct (@download_checks_status_before_writing Demo.runtime O "http://h/c.png" path
              (Fin 8000) w (snd run) (Ok tt))
    as (tail & Hlog & _ & _ & Hok & _ & Hstay).
  - vm_compute. reflexivity.
  - destruct (Hok eq_refl) as (Htail & res & buf & Hres & _ & Hbuf & Hfile).
    split; [|split].
    + injection Hres as <-. injection Hbuf as <-. exact Hfile.
    + apply Hstay; [discriminate|vm_compute; reflexivity].
    + rewrite Hlog, Htail. reflexivity.
Defined.

Lemma cleanup_deletes_only_other_variants_witness :
  let O := Demo.oracleWith None (fun _ => false) in
  let w := Demo.worldOf [Cases.staleCover;
                         ("/srv/.covers/show.png", Demo.textFile 999999 "NEW")] in
  let w' := snd (cleanupOldVariants O "/srv/.covers/show" ".png" w) in
  fs w' !! "/srv/.covers/show.png" = fs w !! "/srv/.covers/show.png"
  /\ fs w' !! "/srv/.covers/show.jpg" = None.
Proof.
  intros O w w'.
  destruct (cleanup_deletes_only_other_variants O "/srv/.covers/show" ".png" w w' (Ok tt))
    as (_ & Hkept & _ & Hgone & _).
  - reflexivity.
  - vm_compute. reflexivity.
  - split; [exact Hkept|].
    apply (Hgone eq_refl ".jpg"); [vm_compute; tauto|discriminate].
Defined.
